(** * math-captcha: the expression engine and the captcha manager

    A shallow embedding of [math-captcha.js]: the operator registry, the
    random expression generator, the two consumers of an expression stack
    ([solve] and [latex]), the template substitution, and the key-to-record
    map of the manager with [getImage], [check], [cleanup] and the
    callback chain of [generate].

    Conventions of the embedding.
    - JavaScript numbers are an abstract type [num] with the primitive
      operations the source uses (class [JSNumber]); nothing is assumed
      about them unless a statement says so.  [QNum] is an
      exact-rational instance used to run the definitions.
    - A JavaScript value that the source handles is a number or
      [undefined] ([value]).
    - An expression array is a [list token] in array order; the consumers
      pop from its end, so they run on [stack_of e], the tokens listed
      last-first.
    - [Math.random()] is a tape of rationals, read at a position that each
      draw advances.
    - The [captchas] object is a [gmap] from keys to slots; a slot holds a
      record or [undefined] (the source assigns [undefined], it never
      deletes a property).  Keys are assumed not to name a property
      inherited from [Object.prototype].
    - Calls of [generate] and [cleanup], timers going off and callbacks
      invoked by the environment are [event]s; a [system] is the world
      together with the callbacks in flight, and [run] takes it through
      a list of events in the order given, so that several pipelines
      may be in flight at once.
    - The two patterns of [parseColor] are terms of [regex], run by a
      backtracking matcher.  The numbers of [parseColor] are a class of
      their own ([ColourNumber]); IEEE doubles, taken from [SpecFloat],
      are its instance [Binary64].
    - Strings are sequences of 8-bit characters. *)

From Stdlib Require Import ZArith NArith QArith Qround Qcanon String Ascii List Lia.
From Stdlib Require Import Decimal DecimalString DecimalFacts DecimalPos DecimalN DecimalNat.
From Stdlib Require Import Floats.SpecFloat.
From stdpp Require Import gmap strings list.

Local Open Scope string_scope.
Local Open Scope list_scope.
Local Open Scope Z_scope.

(** ** Numbers and values *)

(** The primitives of JavaScript numbers that the source relies on. *)
Class JSNumber (num : Type) := {
  of_N : N -> num;                 (* a non-negative integer literal *)
  nan : num;                       (* NaN, the number [undefined] converts to *)
  add : num -> num -> num;         (* a + b *)
  sub : num -> num -> num;         (* a - b *)
  mul : num -> num -> num;         (* a * b *)
  div : num -> num -> num;         (* a / b *)
  pow : num -> num -> num;         (* Math.pow(a, b) *)
  round : num -> num;              (* Math.round(a) *)
  num_eqb : num -> num -> bool;    (* a == b on two numbers *)
  show : num -> string             (* a + '' *)
}.

Inductive value (num : Type) : Type :=
| Num (n : num)
| Undefined.
Arguments Num {num} n.
Arguments Undefined {num}.

(** ToNumber, as applied by the arithmetic operators. *)
Definition to_number {num} `{JSNumber num} (v : value num) : num :=
  match v with
  | Num n => n
  | Undefined => nan
  end.

(** ToString, as applied by [exp+'']. *)
Definition to_string {num} `{JSNumber num} (v : value num) : string :=
  match v with
  | Num n => show n
  | Undefined => "undefined"
  end.

(** [args[i]] of an argument array: [undefined] past its end. *)
Definition js_arg {num} (args : list (value num)) (i : nat) : value num :=
  nth i args Undefined.

(** ** Operators *)

Module Operator.
Record t (num : Type) : Type := new {
  precedence : Z;
  associative : bool;
  doGroup : bool;
  latex : string;
  arity : nat;
  op : list (value num) -> value num
}.
Arguments new {num} precedence associative doGroup latex arity op.
Arguments precedence {num} _.
Arguments associative {num} _.
Arguments doGroup {num} _.
Arguments latex {num} _.
Arguments arity {num} _.
Arguments op {num} _ _.
End Operator.

(** A token of an expression array: whatever [values] holds, or an
    [Operator] object. *)
Inductive token (num : Type) : Type :=
| TVal (v : value num)
| TOp (o : Operator.t num).
Arguments TVal {num} v.
Arguments TOp {num} o.

(** The array seen from its end: [pop] takes the head. *)
Definition stack_of {A} (e : list A) : list A := rev e.

(** ** Strings: the regular-expression replacement of [substitute] *)

(** [strip_prefix p s] is what follows [p] when [s] starts with [p]. *)
Fixpoint strip_prefix (p s : string) : option string :=
  match p with
  | EmptyString => Some s
  | String a p' =>
      match s with
      | EmptyString => None
      | String b s' => if Ascii.eqb a b then strip_prefix p' s' else None
      end
  end.

(** The leftmost occurrence of [p] in [s]: the text before it and after it. *)
Fixpoint find_first (p s : string) : option (string * string) :=
  match strip_prefix p s with
  | Some post => Some (EmptyString, post)
  | None =>
      match s with
      | EmptyString => None
      | String c s' =>
          match find_first p s' with
          | Some (pre, post) => Some (String c pre, post)
          | None => None
          end
      end
  end.

(** The replacement text of [String.prototype.replace] for a pattern
    without capture groups: [$$] is a dollar sign, [$&] the match, [$`]
    the text before the match and [$'] the text after it; anything else
    stands for itself. *)
Fixpoint expand (rep pre matched post : string) : string :=
  match rep with
  | EmptyString => EmptyString
  | String c rest =>
      if Ascii.eqb c "$" then
        match rest with
        | String d rest' =>
            if Ascii.eqb d "$" then String "$" (expand rest' pre matched post)
            else if Ascii.eqb d "&" then matched +:+ expand rest' pre matched post
            else if Ascii.eqb d "`" then pre +:+ expand rest' pre matched post
            else if Ascii.eqb d "'" then post +:+ expand rest' pre matched post
            else String c (expand rest pre matched post)
        | EmptyString => String c EmptyString
        end
      else String c (expand rest pre matched post)
  end.

(** [s.replace(new RegExp('\\$' + n), rep)]: the pattern is the literal
    text [$n]; only its leftmost match is replaced. *)
Definition replace (p rep s : string) : string :=
  match find_first p s with
  | Some (pre, post) => pre +:+ expand rep pre p post +:+ post
  | None => s
  end.

(** The decimal numeral of a natural number. *)
Definition show_nat (n : nat) : string := NilEmpty.string_of_uint (Nat.to_uint n).

(** The decimal numeral of a non-negative integer. *)
Definition show_N (n : N) : string := NilEmpty.string_of_uint (N.to_uint n).

(** The pattern text for the placeholder of index [n]. *)
Definition placeholder (n : nat) : string := String "$" (show_nat n).

(** ** Exceptions and the random tape *)

Inductive exn : Type :=
| TypeError      (* a property of [undefined] was read or written *)
| OutOfFuel.     (* the embedding's bound on nested calls was too small *)

Inductive result (A : Type) : Type :=
| Ok (a : A)
| Throw (e : exn).
Arguments Ok {A} a.
Arguments Throw {A} e.

(** A computation that draws from [Math.random()]: it reads the tape from
    a position on and returns the position it reached. *)
Definition Gen (A : Type) : Type := (nat -> Q) -> nat -> result A * nat.

Definition ret {A} (a : A) : Gen A := fun _ pos => (Ok a, pos).

Definition throw {A} (e : exn) : Gen A := fun _ pos => (Throw e, pos).

Definition bind {A B} (c : Gen A) (k : A -> Gen B) : Gen B :=
  fun tape pos =>
    match c tape pos with
    | (Ok a, pos') => k a tape pos'
    | (Throw e, pos') => (Throw e, pos')
    end.

Notation "'let*' x := c 'in' k" := (bind c (fun x => k))
  (at level 10, x name, c at level 100, k at level 200).

(** [a[i]] for an integer index: [undefined] off the array. *)
Definition js_index {A} (l : list A) (i : Z) : option A :=
  if i <? 0 then None else l !! Z.to_nat i.

(** ** The manager's data *)

Module Options.
(** The options the modelled methods read. *)
Record t (num : Type) : Type := mk {
  path : string;
  minOps : Z;
  maxOps : Z;
  values : list (value num);
  cleanupTime : Z
}.
Arguments mk {num} path minOps maxOps values cleanupTime.
Arguments path {num} _.
Arguments minOps {num} _.
Arguments maxOps {num} _.
Arguments values {num} _.
Arguments cleanupTime {num} _.
End Options.

Module record.
(** The tracking structure stored under a key; [handler] is absent until
    the pipeline has succeeded. *)
Record t (num : Type) : Type := mk {
  exp : list (token num);
  latex : string;
  answer : value num;
  file : string;
  handler : option nat
}.
Arguments mk {num} exp latex answer file handler.
Arguments exp {num} _.
Arguments latex {num} _.
Arguments answer {num} _.
Arguments file {num} _.
Arguments handler {num} _.
End record.

Record manager (num : Type) : Type := Manager {
  options : Options.t num;
  texcmd : string;
  dvipngcmd : string;
  operators : list (Operator.t num);
  captchas : gmap string (option (record.t num))
}.
Arguments Manager {num} options texcmd dvipngcmd operators captchas.
Arguments options {num} _.
Arguments texcmd {num} _.
Arguments dvipngcmd {num} _.
Arguments operators {num} _.
Arguments captchas {num} _.

(** What the manager asks of its environment. *)
Inductive effect : Type :=
| WriteFile (name data : string)     (* fs.writeFile(name, data, ...) *)
| Exec (cmd : string).               (* exec(cmd, ...) *)

(** The manager together with the pending timers ([setTimeout] handles
    are numbered; a timer holds the key it will clean up and its delay in
    milliseconds) and the requests made so far. *)
Record world (num : Type) : Type := World {
  this : manager num;
  timers : gmap nat (string * Z);
  next_timer : nat;
  effects : list effect
}.
Arguments World {num} this timers next_timer effects.
Arguments this {num} _.
Arguments timers {num} _.
Arguments next_timer {num} _.
Arguments effects {num} _.

(** [this.captchas[key] = slot] *)
Definition set_captcha {num} (m : manager num) (key : string)
    (slot : option (record.t num)) : manager num :=
  Manager (options m) (texcmd m) (dvipngcmd m) (operators m) (<[key := slot]> (captchas m)).

(** [this.captchas[key]] when it is truthy. *)
Definition live {num} (m : manager num) (key : string) : option (record.t num) :=
  match captchas m !! key with
  | Some (Some r) => Some r
  | _ => None
  end.

(** An error value handed to a callback. *)
Definition error : Type := string.

(** How one [generate] call ended. *)
Inductive report : Type :=
| Success (key : string)        (* success(key) was called *)
| Failure (err : error)         (* failure(err) was called *)
| CallbackThrew (e : exn).      (* a callback raised an exception *)

(** What the three external stages answered: [None] is the [null] error
    of a stage that worked.  A stage is only consulted when reached. *)
Record stages : Type := Stages {
  write_err : option error;
  tex_err : option error;
  dvipng_err : option error
}.

(** Array.prototype.toString: the elements joined by commas. *)
Fixpoint join_comma (l : list string) : string :=
  match l with
  | [] => EmptyString
  | [s] => s
  | s :: l' => s +:+ "," +:+ join_comma l'
  end.

Definition newline : string := String (ascii_of_nat 10) EmptyString.

(** The double-quote character, as a string. *)
Definition quote : string := String (ascii_of_nat 34) EmptyString.

Module captcha.
Section Engine.
Context {num : Type} `{JSNumber num}.

(** *** precedence *)
(** The argument is [expression[expression.length-1]]: [None] stands for
    the [undefined] read from an empty array. *)
Definition precedence (exp : option (token num)) : Z :=
  match exp with
  | Some (TOp o) => Operator.precedence o
  | _ => 0
  end.

(** *** substitute *)
(** The loop of [substitute] from index [i] on. *)
Fixpoint substitute_from (i : nat) (latex : string) (subs : list string) : string :=
  match subs with
  | [] => latex
  | s :: subs' => substitute_from (S i) (replace (placeholder (i + 1)) s latex) subs'
  end.

Definition substitute (latex : string) (subs : list string) : string :=
  substitute_from 0 latex subs.

(** *** solve *)
(** [for (i = 0; i < arity; ++i) args.push(rec(expression))]: [k] calls
    left, each on the stack the previous one left behind. *)
Fixpoint solve_args (rec : list (token num) -> option (value num * list (token num)))
    (k : nat) (args : list (value num)) (st : list (token num))
    : option (list (value num) * list (token num)) :=
  match k with
  | O => Some (args, st)
  | S k' =>
      match rec st with
      | Some (v, st') => solve_args rec k' (args ++ [v]) st'
      | None => None
      end
  end.

(** [solve] on the stack [st], with the stack it leaves.  [fuel] bounds
    the nesting of calls; [None] is only the lack of it.  An empty array
    pops [undefined], which is not an [Operator] and is returned. *)
Fixpoint solve_aux (fuel : nat) (st : list (token num))
    : option (value num * list (token num)) :=
  match fuel with
  | O => None
  | S f =>
      match st with
      | [] => Some (Undefined, [])
      | TVal v :: rest => Some (v, rest)
      | TOp exp :: rest =>
          match solve_args (solve_aux f) (Operator.arity exp) [] rest with
          | Some (args, rest') => Some (Operator.op exp args, rest')
          | None => None
          end
      end
  end.

(** [solve(expression)]: a call nests at most once per token. *)
Definition solve (expression : list (token num)) : option (value num) :=
  fst <$> solve_aux (S (length expression)) (stack_of expression).

(** *** latex *)
(** The test that decides the parentheses around operand [i], where [tp]
    is the precedence of the token on top of the stack. *)
Definition group_operand (exp : Operator.t num) (i : nat) (tp : Z) : bool :=
  Operator.doGroup exp && (0 <? i)%nat && negb (tp =? 0)
  && ((Operator.precedence exp <? tp) || negb (Operator.associative exp)).

(** The loop of [latex] over the operands, [k] of them left, [i] the
    index of the next. *)
Fixpoint latex_args (rec : list (token num) -> option (string * list (token num)))
    (exp : Operator.t num) (k i : nat) (args : list string) (st : list (token num))
    : option (list string * list (token num)) :=
  match k with
  | O => Some (args, st)
  | S k' =>
      let tp := precedence (head st) in
      match rec st with
      | Some (s, st') =>
          let arg := if group_operand exp i tp then "(" +:+ s +:+ ")" else s in
          latex_args rec exp k' (S i) (args ++ [arg]) st'
      | None => None
      end
  end.

Fixpoint latex_aux (fuel : nat) (st : list (token num))
    : option (string * list (token num)) :=
  match fuel with
  | O => None
  | S f =>
      match st with
      | [] => Some (to_string Undefined, [])
      | TVal v :: rest => Some (to_string v, rest)
      | TOp exp :: rest =>
          match latex_args (latex_aux f) exp (Operator.arity exp) 0 [] rest with
          | Some (args, rest') => Some (substitute (Operator.latex exp) args, rest')
          | None => None
          end
      end
  end.

Definition latex (expression : list (token num)) : option string :=
  fst <$> latex_aux (S (length expression)) (stack_of expression).

(** *** randInt and generateExpression *)
(** [n + Math.floor(Math.random() * (m - n + 1))], on integer bounds. *)
Definition randInt (n m : Z) : Gen Z :=
  fun tape pos => (Ok (n + Qfloor (tape pos * inject_Z (m - n + 1))), S pos).

(** [while (valCount < op.arity) { rtn.push(values[...]); valCount += 1; }]
    The test is the loop's own; [fuel] only bounds the number of rounds
    and is given as [arity - valCount], the number the test allows. *)
Fixpoint push_values (fuel : nat) (values : list (value num)) (arity : nat)
    (rtn : list (token num)) (valCount : Z) : Gen (list (token num) * Z) :=
  match fuel with
  | O => ret (rtn, valCount)
  | S f =>
      if valCount <? Z.of_nat arity then
        let* idx := randInt 0 (Z.of_nat (length values) - 1) in
        push_values f values arity
          (rtn ++ [TVal (default Undefined (js_index values idx))]) (valCount + 1)
      else ret (rtn, valCount)
  end.

(** [for (i = 0; i < ops; ++i) { ... }], [n] rounds left.  Reading
    [op.arity] of an [undefined] operator throws a TypeError. *)
Fixpoint generate_ops (n : nat) (operators : list (Operator.t num))
    (values : list (value num)) (rtn : list (token num)) (valCount : Z)
    : Gen (list (token num)) :=
  match n with
  | O => ret rtn
  | S n' =>
      let* idx := randInt 0 (Z.of_nat (length operators) - 1) in
      match js_index operators idx with
      | None => throw TypeError
      | Some op =>
          let arity := Operator.arity op in
          let* filled := push_values (Z.to_nat (Z.of_nat arity - valCount))
                           values arity rtn valCount in
          generate_ops n' operators values (fst filled ++ [TOp op]) (snd filled - 1)
      end
  end.

Definition generateExpression (operators : list (Operator.t num))
    (minOps maxOps : Z) (values : list (value num)) : Gen (list (token num)) :=
  let* ops := randInt minOps maxOps in
  generate_ops (Z.to_nat ops) operators values [] 0.

(** *** The operators registered by the constructor *)
Definition binary (f : num -> num -> num) (args : list (value num)) : value num :=
  Num (f (to_number (js_arg args 0)) (to_number (js_arg args 1))).

Definition op_add : Operator.t num := Operator.new 5 true true "$1 + $2" 2 (binary add).
Definition op_sub : Operator.t num := Operator.new 5 false true "$1 - $2" 2 (binary sub).
Definition op_mul : Operator.t num := Operator.new 3 true true "$1 \times $2" 2 (binary mul).
Definition op_div : Operator.t num := Operator.new 3 false false "\frac{$1}{$2}" 2 (binary div).

Definition default_operators : list (Operator.t num) := [op_add; op_sub; op_mul; op_div].

End Engine.

Section Manager.
Context {num : Type} `{JSNumber num}.
(** The MD5 digest in hexadecimal, [crypto.createHash('md5')]. *)
Variable md5 : string -> string.

(** *** wrapLatex *)
Definition wrapLatex (math : string) : string :=
  "\documentclass[12pt]{article}" +:+ newline +:+
  "\usepackage{amsmath}" +:+ newline +:+
  "\pagestyle{empty}" +:+ newline +:+ newline +:+
  "\begin{document}" +:+ newline +:+ newline +:+
  "\begin{displaymath}" +:+ newline +:+ math +:+ newline +:+ "\end{displaymath}"
    +:+ newline +:+ newline +:+
  "\end{document}".

(** *** getImage *)
(** [None] is the [null] returned for a falsy slot. *)
Definition getImage (m : manager num) (key : string) : option string :=
  match live m key with
  | Some r => Some (record.file r)
  | None => None
  end.

(** *** check *)
Definition check (m : manager num) (key : string) (answer places : value num) : bool :=
  match live m key with
  | Some r =>
      let shift := pow (of_N 10) (to_number places) in
      let rounded := round (mul (to_number (record.answer r)) shift) in
      let adjusted := round (mul (to_number answer) shift) in
      num_eqb adjusted rounded
  | None => false
  end.

(** *** cleanup *)
(** [clearTimeout] of an [undefined] handler does nothing.  The array of
    file names is appended to ['rm '] as a string, which joins it with
    commas. *)
Definition cleanup (key : string) (w : world num) : world num :=
  match live (this w) key with
  | Some r =>
      World
        (set_captcha (this w) key None)
        (match record.handler r with
         | Some h => delete h (timers w)
         | None => timers w
         end)
        (next_timer w)
        (effects w ++
           [Exec ("rm " +:+ join_comma
              (map (fun v => Options.path (options (this w)) +:+ "/" +:+ key +:+ v)
                   [".tex"; ".aux"; ".dvi"; ".png"; ".log"]))])
  | None => w
  end.

(** An expiry timer going off: it is spent, and calls [cleanup(key)]. *)
Definition fire (h : nat) (w : world num) : world num :=
  match timers w !! h with
  | Some (key, _) =>
      cleanup key (World (this w) (delete h (timers w)) (next_timer w) (effects w))
  | None => w
  end.

(** *** generate *)
(** The synchronous part: the expression, its markup and answer (each
    from a copy of the array), the key, the record stored under it, and
    the request to write the source file.  It returns the key and the
    file stem. *)
Definition generate_begin (w : world num) : Gen (world num * string * string) :=
  let m := this w in
  let* exp := generateExpression (operators m) (Options.minOps (options m))
                (Options.maxOps (options m)) (Options.values (options m)) in
  match latex ([] ++ exp), solve ([] ++ exp) with
  | Some math, Some answer =>
      let latex := wrapLatex math in
      let key := md5 latex in
      let file := Options.path (options m) +:+ "/" +:+ key in
      ret (World
             (set_captcha m key (Some (record.mk exp latex answer (file +:+ ".png") None)))
             (timers w) (next_timer w)
             (effects w ++ [WriteFile (file +:+ ".tex") latex]),
           key, file)
  | _, _ => throw OutOfFuel
  end.

(** [that.captchas[key] = undefined; failure(err);] *)
Definition fail (w : world num) (key : string) (err : error) : world num * report :=
  (World (set_captcha (this w) key None) (timers w) (next_timer w) (effects w),
   Failure err).

(** The callback of the rasterizer.  Writing [handler] into a slot that
    holds [undefined] throws a TypeError. *)
Definition dvipng_done (w : world num) (key : string) (err : option error)
    : world num * report :=
  match err with
  | Some e => fail w key e
  | None =>
      match live (this w) key with
      | Some r =>
          let h := next_timer w in
          (World
             (set_captcha (this w) key
                (Some (record.mk (record.exp r) (record.latex r) (record.answer r)
                         (record.file r) (Some h))))
             (<[h := (key, Options.cleanupTime (options (this w)) * 1000)]> (timers w))
             (S h)
             (effects w),
           Success key)
      | None => (w, CallbackThrew TypeError)
      end
  end.

(** The callback of the typesetter: on success it starts the rasterizer,
    whose answer is [next]. *)
Definition tex_done (w : world num) (key file : string) (err next : option error)
    : world num * report :=
  match err with
  | Some e => fail w key e
  | None =>
      dvipng_done
        (World (this w) (timers w) (next_timer w)
           (effects w ++
              [Exec (dvipngcmd (this w) +:+ " -o " +:+ file +:+ ".png " +:+ file +:+ ".dvi")]))
        key next
  end.

(** The callback of [fs.writeFile]: on success it starts the typesetter. *)
Definition write_done (w : world num) (key file : string) (err : option error)
    (later : stages) : world num * report :=
  match err with
  | Some e => fail w key e
  | None =>
      tex_done
        (World (this w) (timers w) (next_timer w)
           (effects w ++ [Exec (texcmd (this w) +:+ " " +:+ file +:+ ".tex")]))
        key file (tex_err later) (dvipng_err later)
  end.

(** One [generate] call whose callbacks run with no other call on the
    manager in between.  [Throw] is an exception raised before any
    callback was scheduled. *)
Definition generate (w : world num) (st : stages) : Gen (world num * report) :=
  let* started := generate_begin w in
  let '(w', key, file) := started in
  ret (write_done w' key file (write_err st) st).

End Manager.
End captcha.

(** ** Reference notions the statements are measured against *)

(** *** Well-formed stacks *)

(** The operand slots a token opens. *)
Definition slots_of {num} (t : token num) : nat :=
  match t with
  | TVal _ => 0
  | TOp o => Operator.arity o
  end.

(** Consuming a stack token by token from the end: every token fills one
    pending operand slot, so one must be pending (otherwise the count would
    go negative), and an operator opens [arity] new ones.  The result is
    the number of slots still pending when the tokens run out. *)
Fixpoint consume {num} (pending : nat) (st : list (token num)) : option nat :=
  match st with
  | [] => Some pending
  | t :: rest =>
      match pending with
      | O => None
      | S p => consume (p + slots_of t) rest
      end
  end.

(** One value is asked for, and every slot is filled exactly. *)
Definition well_formed {num} (e : list (token num)) : bool :=
  match consume 1 (stack_of e) with
  | Some O => true
  | _ => false
  end.

(** The tree a stack stands for: the children are listed in the order
    [solve] and [latex] pop them. *)
#[warnings="-register-all"]
Inductive tree (num : Type) : Type :=
| Leaf (v : value num)
| Node (o : Operator.t num) (children : list (tree num)).
Arguments Leaf {num} v.
Arguments Node {num} o children.

(** The tokens of a tree, last-first: the operator, then each child in pop
    order. *)
Fixpoint tokens_of {num} (t : tree num) : list (token num) :=
  match t with
  | Leaf v => [TVal v]
  | Node o children => TOp o :: flat_map tokens_of children
  end.

(** Every operator has as many children as its arity. *)
Fixpoint proper {num} (t : tree num) : Prop :=
  match t with
  | Leaf _ => True
  | Node o children =>
      length children = Operator.arity o /\ fold_right (fun c P => proper c /\ P) True children
  end.

(** The value of a tree: the operator's function on the values of the
    children, in pop order. *)
Fixpoint eval {num} (t : tree num) : value num :=
  match t with
  | Leaf v => v
  | Node o children => Operator.op o (map eval children)
  end.

(** The number of tokens of a tree. *)
Fixpoint size {num} (t : tree num) : nat :=
  match t with
  | Leaf _ => 1
  | Node _ children => S (fold_right (fun c n => size c + n)%nat O children)
  end.

(** The stacks [generateExpression] builds from binary operators: the
    first operand popped is always a literal, the second the rest. *)
Inductive comb (num : Type) : Type :=
| Last (v : value num)
| Link (o : Operator.t num) (v : value num) (rest : comb num).
Arguments Last {num} v.
Arguments Link {num} o v rest.

Fixpoint comb_tree {num} (c : comb num) : tree num :=
  match c with
  | Last v => Leaf v
  | Link o v rest => Node o [Leaf v; comb_tree rest]
  end.

(** The array of a comb, in array order. *)
Fixpoint comb_array {num} (c : comb num) : list (token num) :=
  match c with
  | Last v => [TVal v]
  | Link o v rest => comb_array rest ++ [TVal v; TOp o]
  end.

(** The operators of a comb, outermost first. *)
Fixpoint comb_ops {num} (c : comb num) : list (Operator.t num) :=
  match c with
  | Last _ => []
  | Link o _ rest => o :: comb_ops rest
  end.

(** The literals of a comb. *)
Fixpoint comb_values {num} (c : comb num) : list (value num) :=
  match c with
  | Last v => [v]
  | Link _ v rest => v :: comb_values rest
  end.

(** *** The random tape and the pool *)

(** Every draw of [Math.random()] lies in [0, 1). *)
Definition valid_tape (tape : nat -> Q) : Prop :=
  forall i : nat, (0 <= tape i)%Q /\ (tape i < 1)%Q.

(** What [values[randInt(0, values.length-1)]] can be. *)
Definition from_pool {num} (values : list (value num)) (v : value num) : Prop :=
  v ∈ values \/ (values = [] /\ v = Undefined).

(** *** Templates with explicit placeholders *)

Inductive piece : Type :=
| Txt (s : string)
| Hole (i : nat).

Fixpoint print_template (t : list piece) : string :=
  match t with
  | [] => EmptyString
  | Txt s :: t' => s +:+ print_template t'
  | Hole i :: t' => placeholder i +:+ print_template t'
  end.

(** The leftmost hole of index [i] filled with [s]; the others stay. *)
Fixpoint fill_first (i : nat) (s : string) (t : list piece) : list piece :=
  match t with
  | [] => []
  | Hole j :: t' => if Nat.eqb i j then Txt s :: t' else Hole j :: fill_first i s t'
  | Txt x :: t' => Txt x :: fill_first i s t'
  end.

(** For each of [subs] in turn, numbered from [i + 1], the leftmost hole
    of its index filled. *)
Fixpoint fill_firsts (i : nat) (subs : list string) (t : list piece) : list piece :=
  match subs with
  | [] => t
  | s :: subs' => fill_firsts (S i) subs' (fill_first (i + 1) s t)
  end.

(** Operands are numbered from [i + 1]: the one for hole [j]; a hole
    without an operand stays as it is. *)
Definition operand_at (i : nat) (subs : list string) (j : nat) : string :=
  if (i <? j)%nat then default (placeholder j) (subs !! (j - i - 1)%nat) else placeholder j.

(** Every hole filled with its operand. *)
Fixpoint fill_from (i : nat) (subs : list string) (t : list piece) : string :=
  match t with
  | [] => EmptyString
  | Txt x :: t' => x +:+ fill_from i subs t'
  | Hole j :: t' => operand_at i subs j +:+ fill_from i subs t'
  end.

(** Every hole [$j] filled with [subs[j-1]]. *)
Definition fill_all (subs : list string) (t : list piece) : string := fill_from 0 subs t.

(** The indices of the holes of a template, left to right. *)
Fixpoint holes (t : list piece) : list nat :=
  match t with
  | [] => []
  | Txt _ :: t' => holes t'
  | Hole i :: t' => i :: holes t'
  end.

(** The texts between the holes. *)
Fixpoint texts (t : list piece) : list string :=
  match t with
  | [] => []
  | Txt s :: t' => s :: texts t'
  | Hole _ :: t' => texts t'
  end.

(** No dollar sign in a string. *)
Fixpoint dollar_free (s : string) : bool :=
  match s with
  | EmptyString => true
  | String c s' => negb (Ascii.eqb c "$") && dollar_free s'
  end.

(** The number of places at which [p] occurs in [s]. *)
Fixpoint occurrences (p s : string) : nat :=
  match s with
  | EmptyString => O
  | String _ s' =>
      ((match strip_prefix p s with Some _ => 1 | None => 0 end) + occurrences p s')%nat
  end.

(** A template whose texts hold no dollar sign and whose placeholders
    have one digit. *)
Definition plain (t : list piece) : Prop :=
  Forall (fun x => dollar_free x = true) (texts t) /\ Forall (fun j => (j <= 9)%nat) (holes t).

(** The character of a digit. *)
Definition digit_char (j : nat) : ascii := ascii_of_nat (48 + j).

(** *** Reading markup by the usual precedence *)

(** The lexical units of the markup the four default templates produce. *)
Inductive mtok : Type :=
| MNum (n : N)
| MPlus
| MMinus
| MTimes      (* \times *)
| MFrac       (* \frac *)
| MLBrace
| MRBrace
| MLParen
| MRParen
| MBad.

Definition digit_of (c : ascii) : option (uint -> uint) :=
  if Ascii.eqb c "0" then Some D0
  else if Ascii.eqb c "1" then Some D1
  else if Ascii.eqb c "2" then Some D2
  else if Ascii.eqb c "3" then Some D3
  else if Ascii.eqb c "4" then Some D4
  else if Ascii.eqb c "5" then Some D5
  else if Ascii.eqb c "6" then Some D6
  else if Ascii.eqb c "7" then Some D7
  else if Ascii.eqb c "8" then Some D8
  else if Ascii.eqb c "9" then Some D9
  else None.

(** The numeral read so far, its digits last-first, ends here. *)
Definition flush (acc : option uint) (l : list mtok) : list mtok :=
  match acc with
  | Some d => MNum (N.of_uint (Decimal.rev d)) :: l
  | None => l
  end.

(** A numeral is a maximal run of digits; blanks separate. *)
Fixpoint lex (acc : option uint) (s : string) : list mtok :=
  match s with
  | EmptyString => flush acc []
  | String c s' =>
      match digit_of c with
      | Some d => lex (Some (d (default Nil acc))) s'
      | None =>
          flush acc
            (if Ascii.eqb c " " then lex None s'
             else if Ascii.eqb c "+" then MPlus :: lex None s'
             else if Ascii.eqb c "-" then MMinus :: lex None s'
             else if Ascii.eqb c "(" then MLParen :: lex None s'
             else if Ascii.eqb c ")" then MRParen :: lex None s'
             else if Ascii.eqb c "{" then MLBrace :: lex None s'
             else if Ascii.eqb c "}" then MRBrace :: lex None s'
             else if Ascii.eqb c "\" then
               match s' with
               | String "t" (String "i" (String "m" (String "e" (String "s" r)))) =>
                   MTimes :: lex None r
               | String "f" (String "r" (String "a" (String "c" r))) =>
                   MFrac :: lex None r
               | _ => MBad :: lex None s'
               end
             else MBad :: lex None s')
      end
  end.

Inductive addop : Type := APlus | AMinus.

Section Reading.
Context {num : Type} `{JSNumber num}.

(** Where a value is awaited: the sum so far with the sign of the term
    being read, and the product so far of that term. *)
Record ctx : Type := Ctx {
  sum : option (num * addop);
  prod : option num
}.

Definition empty_ctx : ctx := Ctx None None.

(** What encloses the expression being read. *)
Inductive frame : Type :=
| InParen (c : ctx)              (* ( ... *)
| InNumerator (c : ctx)          (* \frac{ ... *)
| InDenominator (c : ctx) (n : num).   (* \frac{n}{ ... *)

Inductive reader : Type :=
| Expect (c : ctx) (stk : list frame)
| Have (s : option (num * addop)) (t : num) (stk : list frame).

(** A factor joins the product of its term: multiplication binds
    tighter than addition and subtraction, and associates to the left. *)
Definition into_prod (c : ctx) (v : num) : num :=
  match prod c with
  | Some p => mul p v
  | None => v
  end.

(** A finished term joins the sum: addition and subtraction associate to
    the left. *)
Definition into_sum (s : option (num * addop)) (t : num) : num :=
  match s with
  | Some (a, APlus) => add a t
  | Some (a, AMinus) => sub a t
  | None => t
  end.

Fixpoint read (r : reader) (ts : list mtok) : option num :=
  match ts with
  | [] =>
      match r with
      | Have s t [] => Some (into_sum s t)
      | _ => None
      end
  | tk :: ts' =>
      match tk with
      | MNum n =>
          match r with
          | Expect c stk => read (Have (sum c) (into_prod c (of_N n)) stk) ts'
          | _ => None
          end
      | MLParen =>
          match r with
          | Expect c stk => read (Expect empty_ctx (InParen c :: stk)) ts'
          | _ => None
          end
      | MFrac =>
          match r, ts' with
          | Expect c stk, MLBrace :: ts'' =>
              read (Expect empty_ctx (InNumerator c :: stk)) ts''
          | _, _ => None
          end
      | MPlus =>
          match r with
          | Have s t stk => read (Expect (Ctx (Some (into_sum s t, APlus)) None) stk) ts'
          | _ => None
          end
      | MMinus =>
          match r with
          | Have s t stk => read (Expect (Ctx (Some (into_sum s t, AMinus)) None) stk) ts'
          | _ => None
          end
      | MTimes =>
          match r with
          | Have s t stk => read (Expect (Ctx s (Some t)) stk) ts'
          | _ => None
          end
      | MRParen =>
          match r with
          | Have s t (InParen c :: stk) =>
              read (Have (sum c) (into_prod c (into_sum s t)) stk) ts'
          | _ => None
          end
      | MRBrace =>
          match r with
          | Have s t (InNumerator c :: stk) =>
              match ts' with
              | MLBrace :: ts'' =>
                  read (Expect empty_ctx (InDenominator c (into_sum s t) :: stk)) ts''
              | _ => None
              end
          | Have s t (InDenominator c n :: stk) =>
              read (Have (sum c) (into_prod c (div n (into_sum s t))) stk) ts'
          | _ => None
          end
      | MLBrace | MBad => None
      end
  end.

(** The number a markup string denotes when read with the usual
    precedence: [\frac] and parentheses group, [\times] binds tighter
    than [+] and [-], and operators of one level associate to the left.
    [None]: the string is not such markup. *)
Definition interp (s : string) : option num :=
  read (Expect empty_ctx []) (lex None s).

End Reading.
Arguments ctx num : clear implicits.
Arguments frame num : clear implicits.
Arguments reader num : clear implicits.

(** *** The markup of a tree *)

Section Rendering.
Context {num : Type} `{JSNumber num}.

(** The token on top of the stack when a tree is about to be consumed. *)
Definition top_token (t : tree num) : token num :=
  match t with
  | Leaf v => TVal v
  | Node o _ => TOp o
  end.

(** The precedence [latex] reads off a subtree before rendering it. *)
Definition head_precedence (t : tree num) : Z :=
  captcha.precedence (Some (top_token t)).

Definition parenthesize (s : string) : string := "(" +:+ s +:+ ")".

(** The markup of a tree: the operator's template with the markup of the
    children substituted, child [i] in parentheses when [group_operand]
    says so. *)
Fixpoint render (t : tree num) : string :=
  match t with
  | Leaf v => to_string v
  | Node o children =>
      captcha.substitute (Operator.latex o)
        ((fix operands (i : nat) (cs : list (tree num)) : list string :=
            match cs with
            | [] => []
            | c :: cs' =>
                (if captcha.group_operand o i (head_precedence c)
                 then parenthesize (render c) else render c)
                :: operands (S i) cs'
            end) O children)
  end.

(** The operands of a node as [render] passes them to [substitute]. *)
Fixpoint render_operands (o : Operator.t num) (i : nat) (cs : list (tree num)) : list string :=
  match cs with
  | [] => []
  | c :: cs' =>
      (if captcha.group_operand o i (head_precedence c)
       then parenthesize (render c) else render c)
      :: render_operands o (S i) cs'
  end.

(** The grouping rule in words: the operator groups, the operand is not
    the first, the head of the operand has a precedence other than zero,
    and it binds looser than the operator or the operator is not
    associative. *)
Definition grouping_rule (exp : Operator.t num) (i : nat) (c : tree num) : Prop :=
  Operator.doGroup exp = true /\ i <> O /\ head_precedence c <> 0 /\
  (Operator.precedence exp < head_precedence c \/ Operator.associative exp = false).

(** The rule with its last exception read as "the operand is a literal",
    not "the head of the operand has precedence zero". *)
Definition grouping_rule_literal (exp : Operator.t num) (i : nat) (c : tree num) : Prop :=
  Operator.doGroup exp = true /\ i <> O /\ (forall v, c <> Leaf v) /\
  (Operator.precedence exp < head_precedence c \/ Operator.associative exp = false).

End Rendering.

(** *** Combs over the default registry *)










(** Units that close what is being read, or the end. *)
Definition closes (k : list mtok) : Prop :=
  match k with
  | [] | MRParen :: _ | MRBrace :: _ => True
  | _ => False
  end.

Section DefaultCombs.
Context {num : Type} `{JSNumber num}.






End DefaultCombs.

(** ** Exact rational numbers

    An instance of [JSNumber] that computes: a number is an exact rational
    or [None], which stands for every non-finite result (division by zero
    included).  It agrees with JavaScript's numbers as long as every
    operand and result is finite and exactly representable; rounding
    error is not modelled.  A non-integer prints as a fraction. *)

Definition qnum : Type := option Qc.

Definition qnum_of_Z (z : Z) : qnum := Some (Q2Qc (inject_Z z)).

Definition qnum_lift2 (f : Qc -> Qc -> Qc) (a b : qnum) : qnum :=
  match a, b with
  | Some x, Some y => Some (f x y)
  | _, _ => None
  end.

Definition qnum_div (a b : qnum) : qnum :=
  match a, b with
  | Some x, Some y => if Qc_eq_dec y (Q2Qc 0) then None else Some (Qcdiv x y)
  | _, _ => None
  end.

(** Integer exponents only. *)
Definition qnum_pow (a b : qnum) : qnum :=
  match a, b with
  | Some x, Some y =>
      if Pos.eqb (Qden (Qcanon.this y)) 1 then
        if 0 <=? Qnum (Qcanon.this y) then Some (Qcpower x (Z.to_nat (Qnum (Qcanon.this y))))
        else if Qc_eq_dec x (Q2Qc 0) then None
        else Some (Qcinv (Qcpower x (Z.to_nat (- Qnum (Qcanon.this y)))))
      else None
  | _, _ => None
  end.

(** The nearest integer, a half going up. *)
Definition qnum_round (a : qnum) : qnum :=
  match a with
  | Some x => qnum_of_Z (Qfloor (Qplus (Qcanon.this x) (1 # 2)))
  | None => None
  end.

(** NaN equals nothing. *)
Definition qnum_eqb (a b : qnum) : bool :=
  match a, b with
  | Some x, Some y => Qeq_bool (Qcanon.this x) (Qcanon.this y)
  | _, _ => false
  end.

Definition qnum_show (a : qnum) : string :=
  match a with
  | None => "NaN"
  | Some x =>
      let n := Qnum (Qcanon.this x) in
      let sign := if n <? 0 then "-" else EmptyString in
      let digits := show_N (Z.to_N (Z.abs n)) in
      if Pos.eqb (Qden (Qcanon.this x)) 1 then sign +:+ digits
      else sign +:+ digits +:+ "/" +:+ show_N (Npos (Qden (Qcanon.this x)))
  end.

#[export] Instance QNum : JSNumber qnum := {
  of_N n := qnum_of_Z (Z.of_N n);
  nan := None;
  add := qnum_lift2 Qcplus;
  sub := qnum_lift2 Qcminus;
  mul := qnum_lift2 Qcmult;
  div := qnum_div;
  pow := qnum_pow;
  round := qnum_round;
  num_eqb := qnum_eqb;
  show := qnum_show
}.

(** The laws of exact arithmetic that reading a sum or a product from the
    left relies on, and the decimal numeral of a small integer literal. *)
Class ExactArith (num : Type) `{JSNumber num} : Prop := {
  add_assoc : forall a b c : num, add a (add b c) = add (add a b) c;
  add_sub_assoc : forall a b c : num, add a (sub b c) = sub (add a b) c;
  mul_assoc : forall a b c : num, mul a (mul b c) = mul (mul a b) c;
  show_of_N : forall n : N, (n < 2 ^ 53)%N -> show (of_N n) = show_N n
}.

(** ** Stated notions of the manager *)

(** The array of a tree: its tokens in array order. *)
Definition array_of {num} (t : tree num) : list (token num) := rev (tokens_of t).

(** A key the manager treats as unknown: its slot holds [undefined], so
    [getImage] answers [null], [check] answers [false] and [cleanup]
    changes nothing. *)
Definition forgotten {num} `{JSNumber num} (w : world num) (key : string) : Prop :=
  captchas (this w) !! key = Some None
  /\ captcha.getImage (this w) key = None
  /\ (forall answer places, captcha.check (this w) key answer places = false)
  /\ captcha.cleanup key w = w.

(** ** Concrete inputs *)

(** A tape that always draws 0, and one that always draws 1/2. *)
Definition zero_tape : nat -> Q := fun _ => 0%Q.
Definition half_tape : nat -> Q := fun _ => (1 # 2)%Q.

(** A stand-in for the digest: no statement depends on its value. *)
Definition digest (s : string) : string := "d41d8cd98f00b204e9800998ecf8427e".

Section Inputs.
Context {num : Type} `{JSNumber num}.

(** A custom operator of arity three, [new Operator(5, true, true,
    '$1 + $2 + $3', 3, function(a, b, c) { return a+b+c; })]. *)
Definition op_sum3 : Operator.t num :=
  Operator.new 5 true true "$1 + $2 + $3" 3
    (fun args => Num (add (add (to_number (js_arg args 0)) (to_number (js_arg args 1)))
                          (to_number (js_arg args 2)))).

(** A custom operator of precedence zero, [new Operator(0, false, false,
    '{$1}^{$2}', 2, Math.pow)]. *)
Definition op_pow0 : Operator.t num :=
  Operator.new 0 false false "{$1}^{$2}" 2 (captcha.binary pow).

Definition lit (n : N) : token num := TVal (Num (of_N n)).

(** The values of [default_options]. *)
Definition default_values : list (value num) :=
  map (fun n => Num (of_N n)) [1; 2; 3; 4; 5; 6; 7; 8; 9]%N.

Definition default_options : Options.t num :=
  Options.mk "/tmp/math-captcha" 3 5 default_values 600.

(** A manager as the constructor leaves it, in a world without timers. *)
Definition fresh_world : world num :=
  World
    (Manager default_options
       "/usr/bin/latex -halt-on-error -output-directory=/tmp/math-captcha"
       ("/usr/bin/dvipng -fg " +:+ quote +:+ "rgb 1.000 1.000 1.000" +:+ quote +:+
        " -bg " +:+ quote +:+ "Transparent" +:+ quote +:+ " -T tight -D 100")
       captcha.default_operators ∅)
    ∅ 0 [].

(** What [half_tape] makes [generate] draw from [fresh_world]: four
    multiplications of fives. *)
Definition drawn_expression : list (token num) :=
  [lit 5; lit 5; TOp captcha.op_mul; lit 5; TOp captcha.op_mul;
   lit 5; TOp captcha.op_mul; lit 5; TOp captcha.op_mul].

Definition drawn_latex : string :=
  captcha.wrapLatex "5 \times 5 \times 5 \times 5 \times 5".

Definition drawn_key : string := digest drawn_latex.

Definition drawn_file : string := "/tmp/math-captcha/" +:+ drawn_key.

Definition drawn_record (handler : option nat) : record.t num :=
  record.mk drawn_expression drawn_latex (Num (of_N 3125)) (drawn_file +:+ ".png") handler.

(** [fresh_world] once [generate] has stored its record and asked for the
    source file to be written; no stage has answered yet. *)
Definition pending_world : world num :=
  World (set_captcha (this fresh_world) drawn_key (Some (drawn_record None)))
    ∅ 0 [WriteFile (drawn_file +:+ ".tex") drawn_latex].

(** [pending_world] once the three stages have succeeded. *)
Definition ready_world : world num :=
  World (set_captcha (this fresh_world) drawn_key (Some (drawn_record (Some 0%nat))))
    {[ 0%nat := (drawn_key, 600000) ]} 1
    [WriteFile (drawn_file +:+ ".tex") drawn_latex;
     Exec (texcmd (this fresh_world) +:+ " " +:+ drawn_file +:+ ".tex");
     Exec (dvipngcmd (this fresh_world) +:+ " -o " +:+ drawn_file +:+ ".png "
           +:+ drawn_file +:+ ".dvi")].

End Inputs.

(** ** Further notions *)

(** The draw that makes [randInt n m] return [z]. *)
Definition draw_for (n m z : Z) : Q := (z - n) # Z.to_pos (m - n + 1).

(** A token drawn from a registry and a pool. *)
Definition drawn {num} (operators : list (Operator.t num)) (values : list (value num))
    (tk : token num) : Prop :=
  match tk with
  | TVal v => from_pool values v
  | TOp o => o ∈ operators
  end.

(** The operators of an array, in array order. *)
Fixpoint operators_of {num} (e : list (token num)) : list (Operator.t num) :=
  match e with
  | [] => []
  | TVal _ :: e' => operators_of e'
  | TOp o :: e' => o :: operators_of e'
  end.

(** The array [v, v, op, v, op, ...] with [n] operators. *)
Fixpoint chain {num} (op : Operator.t num) (v : value num) (n : nat) : list (token num) :=
  match n with
  | O => [TVal v]
  | S n' => chain op v n' ++ [TVal v; TOp op]
  end.

(** [op(v, op(v, ... op(v, v)))] with [n] applications. *)
Fixpoint chain_value {num} (op : Operator.t num) (v : value num) (n : nat) : value num :=
  match n with
  | O => v
  | S n' => Operator.op op [v; chain_value op v n']
  end.

(** ** Calls and callbacks in any order *)

(** A callback that [generate] has handed over and that has not been
    invoked yet. *)
Inductive awaited : Type :=
| WriteCallback (key file : string)     (* of fs.writeFile(file+'.tex', ...) *)
| TexCallback (key file : string)       (* of exec(that.texcmd ...) *)
| DvipngCallback (key : string).        (* of exec(that.dvipngcmd ...) *)

(** The manager in use: its world, the callbacks in flight, and what the
    callbacks have reported so far. *)
Record system (num : Type) : Type := System {
  state : world num;
  awaiting : list awaited;
  reported : list report
}.
Arguments System {num} state awaiting reported.
Arguments state {num} _.
Arguments awaiting {num} _.
Arguments reported {num} _.

(** What can happen to a manager: a call of [generate] (with the draws it
    will see), a call of [cleanup], a timer going off, and the
    environment invoking the [i]-th callback in flight with [err]. *)
Inductive event : Type :=
| CallGenerate (tape : nat -> Q) (pos : nat)
| CallCleanup (key : string)
| Expire (h : nat)
| Answer (i : nat) (err : option error).

Section Interleaving.
Context {num : Type} `{JSNumber num}.
Variable md5 : string -> string.
(** In [that.captchas[key].handler = setTimeout(...)] with the slot
    holding [undefined], engines differ on whether [setTimeout] is
    called before the TypeError is raised; [eager] says that it is. *)
Variable eager : bool.

(** The rasterizer's callback: [dvipng_done], and the timer that an
    eager engine arms before the assignment throws. *)
Definition dvipng_answered (w : world num) (key : string) (err : option error)
    : world num * report :=
  match err, live (this w) key with
  | None, None =>
      if eager then
        (World (this w)
           (<[next_timer w := (key, Options.cleanupTime (options (this w)) * 1000)]> (timers w))
           (S (next_timer w)) (effects w),
         CallbackThrew TypeError)
      else captcha.dvipng_done w key err
  | _, _ => captcha.dvipng_done w key err
  end.

(** One callback invoked with [err]: the world after it, the callback it
    handed over in turn, and what it reported. *)
Definition invoke (a : awaited) (err : option error) (w : world num)
    : world num * option awaited * option report :=
  match a with
  | WriteCallback key file =>
      match err with
      | Some e => let r := captcha.fail w key e in (fst r, None, Some (snd r))
      | None =>
          (World (this w) (timers w) (next_timer w)
             (effects w ++ [Exec (texcmd (this w) +:+ " " +:+ file +:+ ".tex")]),
           Some (TexCallback key file), None)
      end
  | TexCallback key file =>
      match err with
      | Some e => let r := captcha.fail w key e in (fst r, None, Some (snd r))
      | None =>
          (World (this w) (timers w) (next_timer w)
             (effects w ++
                [Exec (dvipngcmd (this w) +:+ " -o " +:+ file +:+ ".png " +:+ file +:+ ".dvi")]),
           Some (DvipngCallback key), None)
      end
  | DvipngCallback key =>
      let r := dvipng_answered w key err in (fst r, None, Some (snd r))
  end.

(** One event.  A [generate] call that throws leaves the manager as it
    was; an event that names no callback in flight, or no armed timer,
    changes nothing. *)
Definition step (ev : event) (s : system num) : system num :=
  match ev with
  | CallGenerate tape pos =>
      match captcha.generate_begin md5 (state s) tape pos with
      | (Ok (w', key, file), _) =>
          System w' (awaiting s ++ [WriteCallback key file]) (reported s)
      | (Throw _, _) => s
      end
  | CallCleanup key => System (captcha.cleanup key (state s)) (awaiting s) (reported s)
  | Expire h => System (captcha.fire h (state s)) (awaiting s) (reported s)
  | Answer i err =>
      match awaiting s !! i with
      | Some a =>
          let '(w', next, rep) := invoke a err (state s) in
          System w'
            (take i (awaiting s) ++ option_list next ++ drop (S i) (awaiting s))
            (reported s ++ option_list rep)
      | None => s
      end
  end.

Definition run (evs : list event) (s : system num) : system num :=
  fold_left (fun s ev => step ev s) evs s.

(** What the constructor and [parseOptions] set. *)
Definition configuration (m : manager num)
    : Options.t num * string * string * list (Operator.t num) :=
  (options m, texcmd m, dvipngcmd m, operators m).

(** The key a callback closes over. *)
Definition key_of (a : awaited) : string :=
  match a with
  | WriteCallback key _ | TexCallback key _ | DvipngCallback key => key
  end.

(** The key an event concerns, if it does anything. *)
Definition concerned (ev : event) (s : system num) : option string :=
  match ev with
  | CallGenerate tape pos =>
      match captcha.generate_begin md5 (state s) tape pos with
      | (Ok (_, key, _), _) => Some key
      | (Throw _, _) => None
      end
  | CallCleanup key => Some key
  | Expire h => fst <$> timers (state s) !! h
  | Answer i err => key_of <$> awaiting s !! i
  end.

(** The draws of the [generate] calls are [good]. *)
Definition draws (good : (nat -> Q) -> Prop) (ev : event) : Prop :=
  match ev with
  | CallGenerate tape _ => good tape
  | _ => True
  end.

(** A record as [generate] builds it for the manager [m] from [good]
    draws: its expression is one [generateExpression] returns for the
    manager's registry and options, its document wraps the markup of that
    expression, its answer is the value of that expression, it is stored
    under the digest of the document, and its image is named after the
    key. *)
Definition built_by_generate (good : (nat -> Q) -> Prop) (m : manager num) (key : string)
    (r : record.t num) : Prop :=
  (exists (tape : nat -> Q) (pos pos' : nat),
      good tape /\
      captcha.generateExpression (operators m) (Options.minOps (options m))
        (Options.maxOps (options m)) (Options.values (options m)) tape pos
      = (Ok (record.exp r), pos'))
  /\ (exists math : string,
        captcha.latex (record.exp r) = Some math /\ record.latex r = captcha.wrapLatex math)
  /\ captcha.solve (record.exp r) = Some (record.answer r)
  /\ key = md5 (record.latex r)
  /\ record.file r = (Options.path (options m) +:+ "/" +:+ key) +:+ ".png".

(** Every stored record is as [generate] built it. *)
Definition records_built (good : (nat -> Q) -> Prop) (w : world num) : Prop :=
  forall (key : string) (r : record.t num),
    live (this w) key = Some r -> built_by_generate good (this w) key r.

(** Every stored record whose pipeline has completed has its timer
    armed, for its own key and the configured delay; timer handles are
    never reused. *)
Definition timers_armed (w : world num) : Prop :=
  (forall (key : string) (r : record.t num) (h : nat),
      live (this w) key = Some r -> record.handler r = Some h ->
      timers w !! h = Some (key, Options.cleanupTime (options (this w)) * 1000))
  /\ (forall (h : nat) (kd : string * Z), timers w !! h = Some kd -> (h < next_timer w)%nat).

End Interleaving.

(** [ready_world] once [generate] has drawn the same expression again
    and stored a new record under the same key. *)
Definition restarted_world {num} `{JSNumber num} : world num :=
  World (set_captcha (this ready_world) drawn_key (Some (drawn_record None)))
    (timers ready_world) (next_timer ready_world)
    (effects ready_world ++ [WriteFile (drawn_file +:+ ".tex") drawn_latex]).

(** One [generate] call that draws from [half_tape], and its three
    callbacks invoked without an error. *)
Definition one_captcha : list event :=
  [CallGenerate half_tape 0%nat; Answer 0%nat None; Answer 0%nat None; Answer 0%nat None].

(** No space in a string. *)
Fixpoint space_free (s : string) : bool :=
  match s with
  | EmptyString => true
  | String c s' => negb (Ascii.eqb c " ") && space_free s'
  end.

(** The names [cleanup] builds for the files of a key. *)
Definition cleanup_names (path key : string) : list string :=
  map (fun v => path +:+ "/" +:+ key +:+ v) [".tex"; ".aux"; ".dvi"; ".png"; ".log"].

(** ** Regular expressions, as far as the source writes them *)

(** A character class repeated greedily between [min] and [max] times
    ([None]: no upper bound), a sequence, and a capturing group. *)
Inductive regex : Type :=
| Chars (p : ascii -> bool) (min : nat) (max : option nat)
| Cat (r1 r2 : regex)
| Capture (r : regex).

(** A greedy quantifier with backtracking: take as many characters as
    allowed, and give them back one by one while the rest of the pattern,
    [k], fails. *)
Fixpoint greedy {R} (p : ascii -> bool) (min : nat) (max : option nat) (s : string)
    (k : string -> option R) : option R :=
  let stop := match min with O => k s | S _ => None end in
  match max with
  | Some O => stop
  | _ =>
      match s with
      | String c s' =>
          if p c then
            match greedy p (Nat.pred min) (Nat.pred <$> max) s' k with
            | Some r => Some r
            | None => stop
            end
          else stop
      | EmptyString => stop
      end
  end.

(** What was read of [s] when [rest] is left. *)
Definition consumed (s rest : string) : string :=
  substring 0 (String.length s - String.length rest) s.

(** Matching at the start of [s]; [caps] are the groups closed so far. *)
Fixpoint regex_run {R} (r : regex) (s : string) (caps : list string)
    (k : string -> list string -> option R) : option R :=
  match r with
  | Chars p min max => greedy p min max s (fun rest => k rest caps)
  | Cat r1 r2 => regex_run r1 s caps (fun rest caps' => regex_run r2 rest caps' k)
  | Capture r' => regex_run r' s caps (fun rest caps' => k rest (caps' ++ [consumed s rest]))
  end.

(** [s.match(r)] for a pattern without the [g] flag: the leftmost match,
    as the array of the matched text and the groups, or [null]. *)
Fixpoint js_match (r : regex) (s : string) : option (list string) :=
  match regex_run r s [] (fun rest caps => Some (consumed s rest :: caps)) with
  | Some m => Some m
  | None =>
      match s with
      | String _ s' => js_match r s'
      | EmptyString => None
      end
  end.

Definition one (p : ascii -> bool) : regex := Chars p 1 (Some 1%nat).

Definition is_char (x : ascii) (c : ascii) : bool := Ascii.eqb c x.

(** A letter under the [i] flag. *)
Definition either_case (lower upper : ascii) (c : ascii) : bool :=
  Ascii.eqb c lower || Ascii.eqb c upper.

(** [\d] *)
Definition is_digit (c : ascii) : bool :=
  (48 <=? N_of_ascii c)%N && (N_of_ascii c <=? 57)%N.

(** [/transparent/i] *)
Definition transparent_pattern : regex :=
  Cat (one (either_case "t" "T")) (Cat (one (either_case "r" "R"))
  (Cat (one (either_case "a" "A")) (Cat (one (either_case "n" "N"))
  (Cat (one (either_case "s" "S")) (Cat (one (either_case "p" "P"))
  (Cat (one (either_case "a" "A")) (Cat (one (either_case "r" "R"))
  (Cat (one (either_case "e" "E")) (Cat (one (either_case "n" "N"))
       (one (either_case "t" "T"))))))))))).

(** A channel, [\d{1,3}\.?\d*] in a capturing group. *)
Definition channel_pattern : regex :=
  Capture (Cat (Chars is_digit 1 (Some 3%nat))
          (Cat (Chars (is_char ".") 0 (Some 1%nat))
               (Chars is_digit 0 None))).

(** [[, ]+] *)
Definition separator_pattern : regex :=
  Chars (fun c => is_char "," c || is_char " " c) 1 None.

(** The pattern of an [rgb] colour: [rgb], an optional [\(] or space,
    and three channels with separators between them, then an optional
    [\)]. *)
Definition rgb_pattern : regex :=
  Cat (one (is_char "r")) (Cat (one (is_char "g")) (Cat (one (is_char "b"))
  (Cat (Chars (fun c => is_char "(" c || is_char " " c) 0 (Some 1%nat))
  (Cat channel_pattern (Cat separator_pattern
  (Cat channel_pattern (Cat separator_pattern
  (Cat channel_pattern (Chars (is_char ")") 0 (Some 1%nat)))))))))).

(** ** Colours *)

(** The numbers of [parseColor].  They are made from text and printed
    back as text inside it, so they get primitives of their own:
    [from_N n] is the number [parseInt] returns for digits of value [n],
    [not_a_number] the one it returns without digits. *)
Class ColourNumber (cnum : Type) := {
  from_N : N -> cnum;
  not_a_number : cnum;
  parseFloat : string -> cnum;       (* parseFloat(s) *)
  exceeds_one : cnum -> bool;        (* x > 1 *)
  over_255 : cnum -> cnum;           (* x / 255 *)
  toFixed3 : cnum -> string          (* new Number(x).toFixed(3) *)
}.

(** The value of a hexadecimal digit. *)
Definition hex_digit (c : ascii) : option N :=
  let n := N_of_ascii c in
  if (48 <=? n)%N && (n <=? 57)%N then Some (n - 48)%N
  else if (97 <=? n)%N && (n <=? 102)%N then Some (n - 87)%N
  else if (65 <=? n)%N && (n <=? 70)%N then Some (n - 55)%N
  else None.

(** The value of the longest prefix of hexadecimal digits, if there is
    a digit; [acc] is the value so far. *)
Fixpoint hex_prefix (acc : option N) (s : string) : option N :=
  match s with
  | String c s' =>
      match hex_digit c with
      | Some d => hex_prefix (Some (16 * default 0 acc + d)%N) s'
      | None => acc
      end
  | EmptyString => acc
  end.

(** [s.substring(a, b)] for [a <= b]. *)
Definition js_substring (a b : nat) (s : string) : string := substring a (b - a) s.

Section Colours.
Context {cnum : Type} `{ColourNumber cnum}.

(** [parseInt('0x' + t)]: the prefix selects radix 16, and the digits
    are read from [t] as far as they go. *)
Definition parseInt_0x (t : string) : cnum :=
  match hex_prefix None t with
  | Some n => from_N n
  | None => not_a_number
  end.

(** *** parseColor *)
Definition parseColor (color : string) : string :=
  match js_match transparent_pattern color with
  | Some _ => color
  | None =>
      let '(red, green, blue) :=
        match js_match rgb_pattern color with
        | Some m =>
            (parseFloat (nth 1 m EmptyString), parseFloat (nth 2 m EmptyString),
             parseFloat (nth 3 m EmptyString))
        | None =>
            let color :=
              match color with
              | String c _ => if Ascii.eqb c "#" then js_substring 1 7 color else color
              | EmptyString => color
              end in
            (parseInt_0x (js_substring 0 2 color), parseInt_0x (js_substring 2 4 color),
             parseInt_0x (js_substring 4 6 color))
        end in
      let '(red, green, blue) :=
        if exceeds_one red || exceeds_one blue || exceeds_one green
        then (over_255 red, over_255 green, over_255 blue)
        else (red, green, blue) in
      "rgb " +:+ toFixed3 red +:+ " " +:+ toFixed3 green +:+ " " +:+ toFixed3 blue
  end.

End Colours.

(** *** Notions the statements about colours use *)

(** Every character of a string is in a class. *)
Fixpoint all_chars (p : ascii -> bool) (s : string) : bool :=
  match s with
  | EmptyString => true
  | String c s' => p c && all_chars p s'
  end.

(** A letter in lower case, any other character as it is. *)
Definition to_lower (c : ascii) : ascii :=
  let n := N_of_ascii c in
  if (65 <=? n)%N && (n <=? 90)%N then ascii_of_N (n + 32) else c.

(** Two strings that differ in the case of letters at most. *)
Fixpoint same_letters (a b : string) : bool :=
  match a, b with
  | EmptyString, EmptyString => true
  | String x a', String y b' => Ascii.eqb (to_lower x) (to_lower y) && same_letters a' b'
  | _, _ => false
  end.

(** The text of a channel in the [rgb] notation: digits, and possibly a
    point and more digits. *)
Definition channel_text (whole : string) (frac : option string) : string :=
  whole +:+ match frac with
            | Some f => "." +:+ f
            | None => EmptyString
            end.

(** One to three digits before the point, digits after it. *)
Definition channel_written (whole : string) (frac : option string) : bool :=
  all_chars is_digit whole && (1 <=? String.length whole)%nat
  && (String.length whole <=? 3)%nat
  && match frac with
     | Some f => all_chars is_digit f
     | None => true
     end.

(** A byte as two hexadecimal digits. *)
Definition hex_char (d : N) : ascii :=
  if (d <? 10)%N then ascii_of_N (48 + d) else ascii_of_N (87 + d).

Definition two_hex (n : N) : string :=
  String (hex_char (n / 16)) (String (hex_char (n mod 16)) EmptyString).

(** A count of thousandths in decimal notation with three decimals. *)
Definition thousandths (n : N) : string :=
  let frac := (n mod 1000)%N in
  show_N (n / 1000) +:+ "." +:+
  (if (frac <? 10)%N then "00" else if (frac <? 100)%N then "0" else EmptyString) +:+
  show_N frac.

(** The three decimals of a channel of value [x]: of [x / 255] when the
    colour is scaled, of [x] when it is not. *)
Definition printed (scaled : bool) (x : N) : string :=
  if scaled then thousandths ((2000 * x + 255) / 510) else thousandths (1000 * x).

(** What [parseColor] relies on for the channels of a hexadecimal
    colour, which are integers below 256: the comparison with 1, and the
    three decimals of such an integer and of its quotient by 255, the
    nearest count of thousandths. *)
Class HexChannels (cnum : Type) `{ColourNumber cnum} : Prop := {
  exceeds_one_from_N : forall a : N, (a < 256)%N -> exceeds_one (from_N a) = (1 <? a)%N;
  toFixed3_from_N : forall a : N, (a <= 1)%N -> toFixed3 (from_N a) = thousandths (1000 * a);
  toFixed3_over_255 :
    forall a : N, (a < 256)%N ->
      toFixed3 (over_255 (from_N a)) = thousandths ((2000 * a + 255) / 510)
}.

(** *** IEEE doubles for the numbers of [parseColor] *)

(** The double of an integer. *)
Definition binary64_of_Z (z : Z) : spec_float := binary_normalize 53 1024 z 0 false.

(** The double nearest to [p / q]: the quotient is cut after at least 59
    bits, its last bit is set when something was cut off, and the result
    is rounded to the nearest double, ties to even. *)
Definition nearest_binary64 (p : N) (q : positive) : spec_float :=
  match p with
  | N0 => S754_zero false
  | Npos p' =>
      let shift := Z.max 0 (60 + Z.log2 (Zpos q) - Z.log2 (Zpos p')) in
      let scaled := Zpos p' * 2 ^ shift in
      let sticky := if scaled mod Zpos q =? 0 then 0 else 1 in
      binary_normalize 53 1024 (Z.lor (scaled / Zpos q) sticky) (- shift) false
  end.

(** The value of decimal digits read after [acc], and how many were
    read; [None] when a character is no digit. *)
Fixpoint decimal_digits (acc : N) (count : nat) (s : string) : option (N * nat) :=
  match s with
  | EmptyString => Some (acc, count)
  | String c s' =>
      if is_digit c then decimal_digits (10 * acc + (N_of_ascii c - 48))%N (S count) s'
      else None
  end.

(** The text before the first point, and the text after it if there is
    one. *)
Fixpoint split_point (s : string) : string * option string :=
  match s with
  | EmptyString => (EmptyString, None)
  | String c s' =>
      if Ascii.eqb c "." then (EmptyString, Some s')
      else let '(whole, frac) := split_point s' in (String c whole, frac)
  end.

(** [parseFloat] on the text a channel of the pattern captures: digits,
    and possibly a point followed by digits.  Other text is outside this
    instance, which answers NaN for it. *)
Definition binary64_parseFloat (s : string) : spec_float :=
  let '(whole, frac) := split_point s in
  match whole with
  | EmptyString => S754_nan
  | String _ _ =>
      match decimal_digits 0 0 whole with
      | Some (w, _) =>
          match decimal_digits w 0 (default EmptyString frac) with
          | Some (n, places) => nearest_binary64 n (Z.to_pos (10 ^ Z.of_nat places))
          | None => S754_nan
          end
      | None => S754_nan
      end
  end.

(** [toFixed(3)]: the count of thousandths nearest to the exact value of
    the double, a half going away from zero.  From 10^21 on JavaScript
    prints the exponent form of the number, which is outside this
    instance. *)
Definition binary64_toFixed3 (x : spec_float) : string :=
  match x with
  | S754_nan => "NaN"
  | S754_infinity s => if s then "-Infinity" else "Infinity"
  | S754_zero _ => "0.000"
  | S754_finite s m e =>
      let n := if 0 <=? e then Zpos m * 1000 * 2 ^ e
               else (2 * (Zpos m * 1000) + 2 ^ (- e)) / 2 ^ (1 - e) in
      if 10 ^ 24 <=? n then EmptyString
      else (if s then "-" else EmptyString) +:+ thousandths (Z.to_N n)
  end.

#[export] Instance Binary64 : ColourNumber spec_float := {
  from_N n := binary64_of_Z (Z.of_N n);
  not_a_number := S754_nan;
  parseFloat := binary64_parseFloat;
  exceeds_one x := SFltb (binary64_of_Z 1) x;
  over_255 x := SFdiv 53 1024 x (binary64_of_Z 255);
  toFixed3 := binary64_toFixed3
}.

(** ** Configuration *)

Module Settings.
(** The options object as [parseOptions] reads it: the options of the
    commands, and the options the other methods read. *)
Record t (num : Type) : Type := mk {
  tex : string;
  dvipng : string;
  fg : string;
  bg : string;
  bounding : string;
  resolution : num;
  others : Options.t num
}.
Arguments mk {num} tex dvipng fg bg bounding resolution others.
Arguments tex {num} _.
Arguments dvipng {num} _.
Arguments fg {num} _.
Arguments bg {num} _.
Arguments bounding {num} _.
Arguments resolution {num} _.
Arguments others {num} _.
End Settings.

Module Given.
(** The options handed to the constructor: any of them may be missing. *)
Record t (num : Type) : Type := mk {
  tex : option string;
  dvipng : option string;
  fg : option string;
  bg : option string;
  bounding : option string;
  resolution : option num;
  path : option string;
  minOps : option Z;
  maxOps : option Z;
  values : option (list (value num));
  cleanupTime : option Z
}.
Arguments mk {num} tex dvipng fg bg bounding resolution path minOps maxOps values cleanupTime.
Arguments tex {num} _.
Arguments dvipng {num} _.
Arguments fg {num} _.
Arguments bg {num} _.
Arguments bounding {num} _.
Arguments resolution {num} _.
Arguments path {num} _.
Arguments minOps {num} _.
Arguments maxOps {num} _.
Arguments values {num} _.
Arguments cleanupTime {num} _.

(** No options at all: [new CAPTCHA()] or [new CAPTCHA({})]. *)
Definition none {num} : t num := mk None None None None None None None None None None None.
End Given.

(** [this.operators.push(op)] *)
Definition push_operator {num} (m : manager num) (op : Operator.t num) : manager num :=
  Manager (options m) (texcmd m) (dvipngcmd m) (operators m ++ [op]) (captchas m).

Section Construction.
Context {num : Type} `{JSNumber num} {cnum : Type} `{ColourNumber cnum}.

(** *** parseOptions *)
Definition parseOptions (m : manager num) (options : Settings.t num) : manager num :=
  Manager
    (Settings.others options)
    (Settings.tex options +:+ " -halt-on-error -output-directory="
       +:+ Options.path (Settings.others options))
    (Settings.dvipng options +:+ " -fg " +:+ quote +:+ parseColor (Settings.fg options)
       +:+ quote +:+ " -bg " +:+ quote +:+ parseColor (Settings.bg options) +:+ quote
       +:+ " -T " +:+ Settings.bounding options
       +:+ " -D " +:+ show (Settings.resolution options))
    (operators m)
    (captchas m).

(** The [default_options] of the module. *)
Definition default_settings : Settings.t num :=
  Settings.mk "/usr/bin/latex" "/usr/bin/dvipng" "#ffffff" "Transparent" "tight" (of_N 100)
    default_options.

(** [_.extend({}, defaults, given)]: the given options over the
    defaults. *)
Definition extend (defaults : Settings.t num) (given : Given.t num) : Settings.t num :=
  Settings.mk
    (default (Settings.tex defaults) (Given.tex given))
    (default (Settings.dvipng defaults) (Given.dvipng given))
    (default (Settings.fg defaults) (Given.fg given))
    (default (Settings.bg defaults) (Given.bg given))
    (default (Settings.bounding defaults) (Given.bounding given))
    (default (Settings.resolution defaults) (Given.resolution given))
    (Options.mk
       (default (Options.path (Settings.others defaults)) (Given.path given))
       (default (Options.minOps (Settings.others defaults)) (Given.minOps given))
       (default (Options.maxOps (Settings.others defaults)) (Given.maxOps given))
       (default (Options.values (Settings.others defaults)) (Given.values given))
       (default (Options.cleanupTime (Settings.others defaults)) (Given.cleanupTime given))).

(** *** The constructor *)
(** The instance data are set to empty values, [parseOptions] assigns
    the options and the commands, and the four operators are pushed. *)
Definition CAPTCHA (options : Given.t num) : manager num :=
  let merged := extend default_settings options in
  let m := parseOptions (Manager (Settings.others merged) EmptyString EmptyString [] ∅) merged in
  push_operator
    (push_operator (push_operator (push_operator m captcha.op_add) captcha.op_sub) captcha.op_mul)
    captcha.op_div.

End Construction.

(** ** Tapes made to order *)

(** The tape that holds [draws] from position [pos] on, and zeros
    after them. *)
Definition tape_of (draws : list Q) (pos : nat) : nat -> Q :=
  fun i => nth (i - pos) draws 0%Q.

(** A tape that holds [draws] from position [pos] on. *)
Definition plays (tape : nat -> Q) (pos : nat) (draws : list Q) : Prop :=
  forall (j : nat) (d : Q), draws !! j = Some d -> tape (pos + j)%nat = d.

(** A draw of [Math.random()]. *)
Definition unit_draw (d : Q) : Prop := (0 <= d)%Q /\ (d < 1)%Q.

(** ** What reaches the file system and the shell *)

Section Requests.
Context {num : Type} `{JSNumber num}.
Variable md5 : string -> string.





End Requests.

(** * Properties *)

(** ** Trees and stacks *)

Section TreeFacts.
Context {num : Type}.

(** Induction on trees with the hypothesis for every child. *)
Lemma tree_ind_all (P : tree num -> Prop) :
  (forall v, P (Leaf v)) ->
  (forall o children, Forall P children -> P (Node o children)) ->
  forall t, P t.
Proof.
  intros HLeaf HNode.
  fix IH 1.
  intros [v | o children].
  - apply HLeaf.
  - apply HNode.
    induction children as [| c cs IHcs]; constructor.
    + apply IH.
    + apply IHcs.
Qed.

Lemma proper_children (o : Operator.t num) (children : list (tree num)) :
  proper (Node o children) ->
  length children = Operator.arity o /\ Forall proper children.
Proof.
  simpl. intros [Hlen Hall]. split; [exact Hlen |].
  clear Hlen. induction children as [| c cs IH]; constructor.
  - apply Hall.
  - apply IH, Hall.
Qed.

Lemma length_tokens_of (t : tree num) : length (tokens_of t) = size t.
Proof.
  induction t as [v | o children IH] using tree_ind_all; [reflexivity |].
  simpl. f_equal.
  induction IH as [| c cs Hc _ IHcs]; [reflexivity |].
  simpl. rewrite length_app, Hc, IHcs. reflexivity.
Qed.

Lemma comb_array_stack (c : comb num) : stack_of (comb_array c) = tokens_of (comb_tree c).
Proof.
  unfold stack_of.
  induction c as [v | o v rest IH]; [reflexivity |].
  simpl. rewrite rev_app_distr. simpl. rewrite IH, app_nil_r. reflexivity.
Qed.

Lemma comb_tree_proper (c : comb num) :
  Forall (fun o => Operator.arity o = 2%nat) (comb_ops c) -> proper (comb_tree c).
Proof.
  induction c as [v | o v rest IH]; simpl; [trivial |].
  intros Hall. inversion Hall as [| ? ? Ho Hrest]; subst.
  rewrite Ho. repeat split. apply IH, Hrest.
Qed.

End TreeFacts.

(** ** [solve] *)

Section SolveFacts.
Context {num : Type} `{JSNumber num}.
Import captcha.

(** Enough fuel is never used up: [solve_aux] answers on every stack,
    well-formed or not, and leaves a stack that is no longer. *)
Lemma solve_aux_total (fuel : nat) :
  forall st : list (token num), (length st < fuel)%nat ->
  exists v st', solve_aux fuel st = Some (v, st') /\ (length st' <= length st)%nat.
Proof.
  induction fuel as [| f IH]; intros st Hlen; [lia |].
  destruct st as [| [v | o] rest]; simpl.
  - exists Undefined, []. split; [reflexivity | simpl; lia].
  - exists v, rest. split; [reflexivity | simpl; lia].
  - simpl in Hlen.
    assert (Hargs : forall k args (st : list (token num)), (length st < f)%nat ->
              exists args' st', solve_args (solve_aux f) k args st = Some (args', st')
                                /\ (length st' <= length st)%nat).
    { induction k as [| k IHk]; intros args st Hst; simpl.
      - exists args, st. split; [reflexivity | lia].
      - destruct (IH st Hst) as (v & st1 & -> & Hle).
        destruct (IHk (args ++ [v]) st1 ltac:(lia)) as (args' & st2 & -> & Hle2).
        exists args', st2. split; [reflexivity | lia]. }
    destruct (Hargs (Operator.arity o) [] rest ltac:(lia)) as (args' & st' & -> & Hle).
    exists (Operator.op o args'), st'. split; [reflexivity | lia].
Qed.

(** [solve] returns on every array. *)
Lemma solve_total (e : list (token num)) : exists v, solve e = Some v.
Proof.
  unfold solve, stack_of.
  destruct (solve_aux_total (S (length e)) (rev e)) as (v & st' & Hv & _).
  - rewrite length_rev. lia.
  - exists v. rewrite Hv. reflexivity.
Qed.

(** The loop over the operands of a node: one call per child, each
    consuming exactly the tokens of its child. *)
Lemma solve_args_children (f : nat) (children : list (tree num)) :
  Forall (fun c => forall below, solve_aux f (tokens_of c ++ below) = Some (eval c, below))
         children ->
  forall args below,
    solve_args (solve_aux f) (length children) args (flat_map tokens_of children ++ below)
    = Some (args ++ map eval children, below).
Proof.
  induction 1 as [| c cs Hc _ IH]; intros args below; simpl.
  - rewrite app_nil_r. reflexivity.
  - rewrite <- app_assoc, Hc, IH, <- app_assoc. reflexivity.
Qed.

Lemma size_children_le (c : tree num) (cs : list (tree num)) :
  In c cs -> (size c <= fold_right (fun c n => size c + n)%nat O cs)%nat.
Proof.
  induction cs as [| d ds IH]; simpl; [tauto |].
  intros [-> | Hin]; [lia |]. specialize (IH Hin). lia.
Qed.

(** On the tokens of a proper tree, [solve] takes exactly these tokens and
    returns the value of the tree, whatever lies below them. *)
Lemma solve_aux_tree (t : tree num) :
  proper t ->
  forall fuel below, (size t <= fuel)%nat ->
    solve_aux fuel (tokens_of t ++ below) = Some (eval t, below).
Proof.
  induction t as [v | o children IH] using tree_ind_all; intros Hp fuel below Hfuel.
  - destruct fuel; [simpl in Hfuel; lia | reflexivity].
  - destruct fuel as [| f]; [simpl in Hfuel; lia |].
    apply proper_children in Hp as [Hlen Hall].
    simpl. rewrite <- Hlen.
    rewrite solve_args_children; [reflexivity |].
    rewrite Forall_forall in IH, Hall |- *.
    intros c Hc below'. apply IH; [exact Hc | apply Hall, Hc |].
    simpl in Hfuel. apply list_elem_of_In in Hc.
    pose proof (size_children_le c children Hc). lia.
Qed.

Lemma solve_tree (e : list (token num)) (t : tree num) :
  stack_of e = tokens_of t -> proper t -> solve e = Some (eval t).
Proof.
  intros He Hp. unfold solve.
  rewrite He, <- (app_nil_r (tokens_of t)), solve_aux_tree; [reflexivity | exact Hp |].
  rewrite <- length_tokens_of, <- He. unfold stack_of. rewrite length_rev. lia.
Qed.

End SolveFacts.

(** ** [latex] *)

Section LatexFacts.
Context {num : Type} `{JSNumber num}.
Import captcha.

Lemma latex_aux_total (fuel : nat) :
  forall st : list (token num), (length st < fuel)%nat ->
  exists s st', latex_aux fuel st = Some (s, st') /\ (length st' <= length st)%nat.
Proof.
  induction fuel as [| f IH]; intros st Hlen; [lia |].
  destruct st as [| [v | o] rest]; simpl.
  - eexists _, []. split; [reflexivity | simpl; lia].
  - eexists _, rest. split; [reflexivity | simpl; lia].
  - simpl in Hlen.
    assert (Hargs : forall k i args (st : list (token num)), (length st < f)%nat ->
              exists args' st', latex_args (latex_aux f) o k i args st = Some (args', st')
                                /\ (length st' <= length st)%nat).
    { induction k as [| k IHk]; intros i args st Hst; simpl.
      - exists args, st. split; [reflexivity | lia].
      - destruct (IH st Hst) as (s & st1 & -> & Hle).
        match goal with
        | |- context [latex_args _ _ _ _ ?a _] =>
            destruct (IHk (S i) a st1 ltac:(lia)) as (args' & st2 & -> & Hle2)
        end.
        exists args', st2. split; [reflexivity | lia]. }
    destruct (Hargs (Operator.arity o) O [] rest ltac:(lia)) as (args' & st' & -> & Hle).
    eexists _, st'. split; [reflexivity | lia].
Qed.

(** [latex] returns on every array. *)
Lemma latex_total (e : list (token num)) : exists s, latex e = Some s.
Proof.
  unfold latex, stack_of.
  destruct (latex_aux_total (S (length e)) (rev e)) as (s & st' & Hs & _).
  - rewrite length_rev. lia.
  - exists s. rewrite Hs. reflexivity.
Qed.

Lemma render_node (o : Operator.t num) (children : list (tree num)) :
  render (Node o children) = substitute (Operator.latex o) (render_operands o O children).
Proof.
  simpl. f_equal. generalize O.
  induction children as [| c cs IH]; intros i; simpl; [reflexivity |].
  f_equal. apply IH.
Qed.

Lemma head_tokens_of (t : tree num) (below : list (token num)) :
  head (tokens_of t ++ below) = Some (top_token t).
Proof. destruct t; reflexivity. Qed.

Lemma latex_args_children (f : nat) (o : Operator.t num) (children : list (tree num)) :
  Forall (fun c => forall below, latex_aux f (tokens_of c ++ below) = Some (render c, below))
         children ->
  forall i args below,
    latex_args (latex_aux f) o (length children) i args (flat_map tokens_of children ++ below)
    = Some (args ++ render_operands o i children, below).
Proof.
  induction 1 as [| c cs Hc _ IH]; intros i args below; simpl.
  - rewrite app_nil_r. reflexivity.
  - rewrite <- app_assoc, Hc, head_tokens_of, IH, <- app_assoc. reflexivity.
Qed.

(** On the tokens of a proper tree, [latex] takes exactly these tokens and
    returns the markup of the tree. *)
Lemma latex_aux_tree (t : tree num) :
  proper t ->
  forall fuel below, (size t <= fuel)%nat ->
    latex_aux fuel (tokens_of t ++ below) = Some (render t, below).
Proof.
  induction t as [v | o children IH] using tree_ind_all; intros Hp fuel below Hfuel.
  - destruct fuel; [simpl in Hfuel; lia | reflexivity].
  - destruct fuel as [| f]; [simpl in Hfuel; lia |].
    apply proper_children in Hp as [Hlen Hall].
    rewrite render_node.
    cbn [tokens_of app latex_aux]. rewrite <- Hlen.
    rewrite latex_args_children; [reflexivity |].
    rewrite Forall_forall in IH, Hall |- *.
    intros c Hc below'. apply IH; [exact Hc | apply Hall, Hc |].
    simpl in Hfuel. apply list_elem_of_In in Hc.
    pose proof (size_children_le c children Hc). lia.
Qed.

Lemma latex_tree (e : list (token num)) (t : tree num) :
  stack_of e = tokens_of t -> proper t -> latex e = Some (render t).
Proof.
  intros He Hp. unfold latex.
  rewrite He, <- (app_nil_r (tokens_of t)), latex_aux_tree; [reflexivity | exact Hp |].
  rewrite <- length_tokens_of, <- He. unfold stack_of. rewrite length_rev. lia.
Qed.

(** The test of [latex] is the grouping rule. *)
Lemma group_operand_rule (exp : Operator.t num) (i : nat) (c : tree num) :
  group_operand exp i (head_precedence c) = true <-> grouping_rule exp i c.
Proof.
  unfold group_operand, grouping_rule.
  rewrite !andb_true_iff, orb_true_iff, !negb_true_iff.
  rewrite Nat.ltb_lt, Z.eqb_neq, Z.ltb_lt.
  intuition lia.
Qed.

End LatexFacts.

(** ** [substitute] *)

Section StringFacts.

Lemma append_cons (c : ascii) (a b : string) : String c a +:+ b = String c (a +:+ b).
Proof. reflexivity. Qed.

Lemma append_nil (b : string) : EmptyString +:+ b = b.
Proof. reflexivity. Qed.

Lemma append_assoc (a b c : string) : (a +:+ b) +:+ c = a +:+ (b +:+ c).
Proof.
  induction a as [| x a IH]; [reflexivity |].
  rewrite !append_cons, IH. reflexivity.
Qed.



Lemma expand_dollar_free (rep pre matched post : string) :
  dollar_free rep = true -> expand rep pre matched post = rep.
Proof.
  induction rep as [| c rep IH]; simpl; [reflexivity |].
  intros Hfree. apply andb_true_iff in Hfree as [Hc Hrep].
  apply negb_true_iff in Hc. rewrite Hc. f_equal. apply IH, Hrep.
Qed.

Lemma find_first_unfold (p s : string) :
  find_first p s =
  match strip_prefix p s with
  | Some post => Some (EmptyString, post)
  | None =>
      match s with
      | EmptyString => None
      | String c s' =>
          match find_first p s' with
          | Some (pre, post) => Some (String c pre, post)
          | None => None
          end
      end
  end.
Proof. destruct s; reflexivity. Qed.

Lemma strip_prefix_other (q s : string) (c : ascii) :
  Ascii.eqb c "$" = false -> strip_prefix (String "$" q) (String c s) = None.
Proof.
  intros Hc. cbn [strip_prefix]. rewrite Ascii.eqb_sym, Hc. reflexivity.
Qed.

(** A text without a dollar sign is skipped by the search for a
    placeholder. *)
Lemma find_first_skip (q x s : string) :
  dollar_free x = true ->
  find_first (String "$" q) (x +:+ s) =
  match find_first (String "$" q) s with
  | Some (a, b) => Some (x +:+ a, b)
  | None => None
  end.
Proof.
  induction x as [| c x IH]; intros Hfree.
  - rewrite append_nil. destruct (find_first _ s) as [[a b] |]; reflexivity.
  - cbn [dollar_free] in Hfree. apply andb_true_iff in Hfree as [Hc Hx].
    apply negb_true_iff in Hc.
    rewrite append_cons.
    rewrite find_first_unfold, (strip_prefix_other _ _ _ Hc), (IH Hx).
    destruct (find_first _ s) as [[a b] |]; reflexivity.
Qed.

Lemma replace_skip (q rep x s : string) :
  dollar_free x = true -> dollar_free rep = true ->
  replace (String "$" q) rep (x +:+ s) = x +:+ replace (String "$" q) rep s.
Proof.
  intros Hx Hrep. unfold replace. rewrite (find_first_skip _ _ _ Hx).
  destruct (find_first _ s) as [[a b] |]; [| reflexivity].
  rewrite !(expand_dollar_free _ _ _ _ Hrep), append_assoc. reflexivity.
Qed.

Lemma strip_prefix_self (p s : string) : strip_prefix p (p +:+ s) = Some s.
Proof.
  induction p as [| c p IH]; [reflexivity |].
  rewrite append_cons. cbn [strip_prefix]. rewrite Ascii.eqb_refl. exact IH.
Qed.

(** A placeholder at the front is the leftmost match of its own pattern. *)
Lemma replace_here (p rep s : string) :
  dollar_free rep = true -> replace p rep (p +:+ s) = rep +:+ s.
Proof.
  intros Hrep. unfold replace.
  rewrite find_first_unfold, strip_prefix_self, (expand_dollar_free _ _ _ _ Hrep).
  reflexivity.
Qed.

Lemma show_nat_digit (j : nat) :
  (j <= 9)%nat -> show_nat j = String (digit_char j) EmptyString.
Proof.
  intros Hj. do 10 (destruct j as [| j]; [reflexivity |]). lia.
Qed.

Lemma digit_char_inj (i j : nat) :
  (i <= 9)%nat -> (j <= 9)%nat -> Ascii.eqb (digit_char i) (digit_char j) = Nat.eqb i j.
Proof.
  intros Hi Hj.
  do 10 (destruct i as [| i]; [do 10 (destruct j as [| j]; [reflexivity |]); lia |]). lia.
Qed.

Lemma digit_char_not_dollar (j : nat) :
  (j <= 9)%nat -> Ascii.eqb (digit_char j) "$" = false.
Proof.
  intros Hj. do 10 (destruct j as [| j]; [reflexivity |]). lia.
Qed.

(** Another one-digit placeholder is passed over like plain text. *)
Lemma replace_pass (i j : nat) (rep s : string) :
  (i <= 9)%nat -> (j <= 9)%nat -> i <> j -> dollar_free rep = true ->
  replace (placeholder i) rep (placeholder j +:+ s) =
  placeholder j +:+ replace (placeholder i) rep s.
Proof.
  intros Hi Hj Hne Hrep. unfold placeholder.
  rewrite (show_nat_digit i Hi), (show_nat_digit j Hj).
  unfold replace. rewrite !append_cons, !append_nil.
  rewrite find_first_unfold. cbn [strip_prefix].
  rewrite Ascii.eqb_refl, (digit_char_inj i j Hi Hj).
  destruct (Nat.eqb_spec i j) as [-> | _]; [contradiction |].
  rewrite find_first_unfold, (strip_prefix_other _ _ _ (digit_char_not_dollar j Hj)).
  destruct (find_first _ s) as [[a b] |]; [| reflexivity].
  rewrite !(expand_dollar_free _ _ _ _ Hrep). reflexivity.
Qed.


Lemma plain_txt x t : plain (Txt x :: t) <-> dollar_free x = true /\ plain t.
Proof. unfold plain. simpl. rewrite Forall_cons. tauto. Qed.

Lemma plain_hole j t : plain (Hole j :: t) <-> (j <= 9)%nat /\ plain t.
Proof. unfold plain. simpl. rewrite Forall_cons. tauto. Qed.

Lemma replace_template (i : nat) (rep : string) (t : list piece) :
  (i <= 9)%nat -> dollar_free rep = true -> plain t ->
  replace (placeholder i) rep (print_template t) = print_template (fill_first i rep t).
Proof.
  intros Hi Hrep. induction t as [| [x | j] t IH]; intros Hplain.
  - reflexivity.
  - apply plain_txt in Hplain as [Hx Ht]. cbn [print_template fill_first].
    unfold placeholder at 1. rewrite (replace_skip _ _ _ _ Hx Hrep).
    fold (placeholder i). rewrite (IH Ht). reflexivity.
  - apply plain_hole in Hplain as [Hj Ht]. cbn [print_template fill_first].
    destruct (Nat.eqb_spec i j) as [<- | Hne].
    + apply replace_here, Hrep.
    + rewrite (replace_pass i j _ _ Hi Hj Hne Hrep), (IH Ht). reflexivity.
Qed.

Lemma plain_fill_first (i : nat) (rep : string) (t : list piece) :
  dollar_free rep = true -> plain t -> plain (fill_first i rep t).
Proof.
  intros Hrep. induction t as [| [x | j] t IH]; intros Hplain; cbn [fill_first].
  - exact Hplain.
  - apply plain_txt in Hplain as [Hx Ht]. apply plain_txt. auto.
  - apply plain_hole in Hplain as [Hj Ht].
    destruct (Nat.eqb i j).
    + apply plain_txt. auto.
    + apply plain_hole. auto.
Qed.

Lemma substitute_from_template (subs : list string) :
  forall (i : nat) (t : list piece),
    (i + length subs <= 9)%nat ->
    Forall (fun s => dollar_free s = true) subs ->
    plain t ->
    captcha.substitute_from i (print_template t) subs
    = print_template (fill_firsts i subs t).
Proof.
  induction subs as [| s subs IH]; intros i t Hlen Hsubs Hplain; [reflexivity |].
  apply Forall_cons in Hsubs as [Hs Hsubs]. simpl in Hlen.
  cbn [captcha.substitute_from fill_firsts].
  rewrite replace_template; [| lia | exact Hs | exact Hplain].
  apply IH; [lia | exact Hsubs | apply plain_fill_first; assumption].
Qed.

Lemma operand_at_nil (i j : nat) : operand_at i [] j = placeholder j.
Proof. unfold operand_at. destruct (i <? j)%nat; reflexivity. Qed.

Lemma fill_from_nil (i : nat) (t : list piece) : fill_from i [] t = print_template t.
Proof.
  induction t as [| [x | j] t IH]; simpl; [reflexivity | |].
  - rewrite IH. reflexivity.
  - rewrite IH, operand_at_nil. reflexivity.
Qed.

Lemma operand_at_shift (i j : nat) (s : string) (subs : list string) :
  j <> S i -> operand_at (S i) subs j = operand_at i (s :: subs) j.
Proof.
  intros Hne. unfold operand_at.
  destruct (Nat.ltb_spec (S i) j) as [Hlt | Hge].
  - destruct (Nat.ltb_spec i j) as [_ | ?]; [| lia].
    replace (j - i - 1)%nat with (S (j - S i - 1)) by lia. reflexivity.
  - destruct (Nat.ltb_spec i j) as [? | _]; [lia | reflexivity].
Qed.

Lemma fill_from_shift (i : nat) (s : string) (subs : list string) (t : list piece) :
  S i ∉ holes t -> fill_from (S i) subs t = fill_from i (s :: subs) t.
Proof.
  induction t as [| [x | j] t IH]; simpl; intros Hnot; [reflexivity | |].
  - rewrite (IH Hnot). reflexivity.
  - apply not_elem_of_cons in Hnot as [Hne Hnot].
    rewrite (IH Hnot), (operand_at_shift i j s subs); [reflexivity | congruence].
Qed.

Lemma operand_at_first (i : nat) (s : string) (subs : list string) :
  operand_at i (s :: subs) (S i) = s.
Proof.
  unfold operand_at. destruct (Nat.ltb_spec i (S i)) as [_ | ?]; [| lia].
  replace (S i - i - 1)%nat with O by lia. reflexivity.
Qed.

Lemma fill_from_first (i : nat) (s : string) (subs : list string) (t : list piece) :
  NoDup (holes t) ->
  fill_from (S i) subs (fill_first (i + 1) s t) = fill_from i (s :: subs) t.
Proof.
  replace (i + 1)%nat with (S i) by lia.
  induction t as [| [x | j] t IH]; cbn [holes fill_first fill_from]; intros Hnd.
  - reflexivity.
  - rewrite (IH Hnd). reflexivity.
  - apply NoDup_cons in Hnd as [Hnot Hnd].
    destruct (Nat.eqb_spec (S i) j) as [<- | Hne]; cbn [fill_from].
    + rewrite operand_at_first, (fill_from_shift i s subs t Hnot). reflexivity.
    + rewrite (IH Hnd), (operand_at_shift i j s subs); [reflexivity | congruence].
Qed.

Lemma holes_fill_first (i : nat) (s : string) (t : list piece) :
  holes (fill_first i s t) `sublist_of` holes t.
Proof.
  induction t as [| [x | j] t IH]; cbn [holes fill_first].
  - constructor.
  - exact IH.
  - destruct (Nat.eqb i j); cbn [holes].
    + apply sublist_cons, reflexivity.
    + apply sublist_skip, IH.
Qed.

Lemma fill_firsts_once (subs : list string) :
  forall (i : nat) (t : list piece),
    NoDup (holes t) -> print_template (fill_firsts i subs t) = fill_from i subs t.
Proof.
  induction subs as [| s subs IH]; intros i t Hnd; cbn [fill_firsts].
  - symmetry. apply fill_from_nil.
  - rewrite IH.
    + apply fill_from_first, Hnd.
    + eapply sublist_NoDup; [exact Hnd | apply holes_fill_first].
Qed.

End StringFacts.


(** ** [randInt] and [generateExpression] *)

Section GeneratorFacts.
Context {num : Type} `{JSNumber num}.
Import captcha.

Lemma Qfloor_unit_scaled (r : Q) (k : Z) :
  (0 <= r)%Q -> (r < 1)%Q -> 0 < k -> 0 <= Qfloor (r * inject_Z k) < k.
Proof.
  intros Hr0 Hr1 Hk.
  assert (Hk' : (inject_Z 0 < inject_Z k)%Q) by (rewrite <- Zlt_Qlt; exact Hk).
  split.
  - rewrite <- (Qfloor_Z 0). apply Qfloor_resp_le.
    apply Qmult_le_0_compat; [exact Hr0 | apply Qlt_le_weak, Hk'].
  - rewrite Zlt_Qlt.
    apply Qle_lt_trans with (r * inject_Z k)%Q; [apply Qfloor_le |].
    apply Qlt_le_trans with (1 * inject_Z k)%Q.
    + apply Qmult_lt_compat_r; assumption.
    + rewrite Qmult_1_l. apply Qle_refl.
Qed.

(** With a proper tape and [n <= m], [randInt(n, m)] lies in [n, m]. *)
Lemma randInt_range (tape : nat -> Q) (pos : nat) (n m : Z) :
  valid_tape tape -> n <= m ->
  exists z, randInt n m tape pos = (Ok z, S pos) /\ n <= z <= m.
Proof.
  intros Htape Hnm. unfold randInt. eexists. split; [reflexivity |].
  destruct (Htape pos) as [H0 H1].
  pose proof (Qfloor_unit_scaled (tape pos) (m - n + 1) H0 H1 ltac:(lia)). lia.
Qed.

Lemma js_index_in_range {A} (l : list A) (i : Z) :
  0 <= i <= Z.of_nat (length l) - 1 -> exists x, js_index l i = Some x /\ x ∈ l.
Proof.
  intros Hi. unfold js_index.
  destruct (Z.ltb_spec i 0) as [? | _]; [lia |].
  destruct (lookup_lt_is_Some_2 l (Z.to_nat i) ltac:(lia)) as [x Hx].
  exists x. split; [exact Hx |]. eapply list_elem_of_lookup_2, Hx.
Qed.

Lemma js_index_nil {A} (i : Z) : js_index (@nil A) i = None.
Proof. unfold js_index. destruct (i <? 0); reflexivity. Qed.

(** A drawn literal comes from the pool; an empty pool yields [undefined]. *)
Lemma draw_value (values : list (value num)) (tape : nat -> Q) (pos : nat) :
  valid_tape tape ->
  exists idx, randInt 0 (Z.of_nat (length values) - 1) tape pos = (Ok idx, S pos)
              /\ from_pool values (default Undefined (js_index values idx)).
Proof.
  intros Htape. destruct values as [| v0 values'].
  - eexists. split; [reflexivity |]. right. rewrite js_index_nil. split; reflexivity.
  - destruct (randInt_range tape pos 0 (Z.of_nat (length (v0 :: values')) - 1) Htape)
      as (idx & Hidx & Hrange); [simpl; lia |].
    exists idx. split; [exact Hidx |].
    destruct (js_index_in_range (v0 :: values') idx Hrange) as (x & -> & Hin).
    left. exact Hin.
Qed.

(** The [while] loop pushes exactly the literals that are missing. *)
Lemma push_values_spec (values : list (value num)) (arity : nat) (tape : nat -> Q) :
  valid_tape tape ->
  forall (fuel : nat) (rtn : list (token num)) (valCount : Z) (pos : nat),
    Z.of_nat fuel = Z.max 0 (Z.of_nat arity - valCount) ->
    exists lits,
      push_values fuel values arity rtn valCount tape pos
      = (Ok (rtn ++ map TVal lits, valCount + Z.of_nat fuel), (pos + fuel)%nat)
      /\ length lits = fuel /\ Forall (from_pool values) lits.
Proof.
  intros Htape. induction fuel as [| f IH]; intros rtn valCount pos Hfuel.
  - exists []. simpl. rewrite app_nil_r, Z.add_0_r, Nat.add_0_r. split; [reflexivity | auto].
  - cbn [push_values].
    destruct (Z.ltb_spec valCount (Z.of_nat arity)) as [Hlt | Hge]; [| lia].
    destruct (draw_value values tape pos Htape) as (idx & Hidx & Hpool).
    unfold bind at 1. rewrite Hidx.
    destruct (IH (rtn ++ [TVal (default Undefined (js_index values idx))]) (valCount + 1)
                (S pos) ltac:(lia)) as (lits & Hrun & Hlen & Hall).
    exists (default Undefined (js_index values idx) :: lits).
    rewrite Hrun. split; [| split].
    + f_equal; [| lia]. f_equal. f_equal; [| lia].
      rewrite <- app_assoc. reflexivity.
    + simpl. rewrite Hlen. reflexivity.
    + constructor; assumption.
Qed.

(** With operators registered, the loop over the operators never throws:
    nothing in it looks at the bounds or at the pool. *)
Lemma generate_ops_returns (operators : list (Operator.t num)) (values : list (value num))
    (tape : nat -> Q) :
  valid_tape tape -> operators <> [] ->
  forall (n : nat) (rtn : list (token num)) (valCount : Z) (pos : nat),
    exists e pos', generate_ops n operators values rtn valCount tape pos = (Ok e, pos').
Proof.
  intros Htape Hops. induction n as [| n IH]; intros rtn valCount pos.
  - eexists _, _. reflexivity.
  - cbn [generate_ops].
    destruct (randInt_range tape pos 0 (Z.of_nat (length operators) - 1) Htape)
      as (idx & Hidx & Hrange); [destruct operators; [contradiction | simpl; lia] |].
    unfold bind at 1. rewrite Hidx.
    destruct (js_index_in_range operators idx Hrange) as (op & -> & _).
    destruct (push_values_spec values (Operator.arity op) tape Htape
                (Z.to_nat (Z.of_nat (Operator.arity op) - valCount)) rtn valCount (S pos)
                ltac:(lia)) as (lits & Hrun & _).
    unfold bind at 1. rewrite Hrun. apply IH.
Qed.

Lemma generateExpression_returns (operators : list (Operator.t num))
    (minOps maxOps : Z) (values : list (value num)) (tape : nat -> Q) (pos : nat) :
  valid_tape tape -> operators <> [] ->
  exists e pos', generateExpression operators minOps maxOps values tape pos = (Ok e, pos').
Proof.
  intros Htape Hops. unfold generateExpression, bind at 1, randInt at 1.
  apply generate_ops_returns; assumption.
Qed.

(** One more round on a comb, with binary operators only, gives a comb. *)
Lemma generate_ops_comb (operators : list (Operator.t num)) (values : list (value num))
    (tape : nat -> Q) :
  valid_tape tape -> operators <> [] ->
  Forall (fun o => Operator.arity o = 2%nat) operators ->
  forall (n : nat) (c : comb num) (pos : nat),
    exists c' pos',
      generate_ops n operators values (comb_array c) 1 tape pos = (Ok (comb_array c'), pos')
      /\ length (comb_ops c') = (n + length (comb_ops c))%nat
      /\ (Forall (fun o => o ∈ operators) (comb_ops c) ->
          Forall (fun o => o ∈ operators) (comb_ops c'))
      /\ (Forall (from_pool values) (comb_values c) ->
          Forall (from_pool values) (comb_values c')).
Proof.
  intros Htape Hops Hbin. induction n as [| n IH]; intros c pos.
  - exists c, pos. repeat split; auto.
  - cbn [generate_ops].
    destruct (randInt_range tape pos 0 (Z.of_nat (length operators) - 1) Htape)
      as (idx & Hidx & Hrange); [destruct operators; [contradiction | simpl; lia] |].
    unfold bind at 1. rewrite Hidx.
    destruct (js_index_in_range operators idx Hrange) as (op & -> & Hin).
    assert (Har : Operator.arity op = 2%nat)
      by (rewrite Forall_forall in Hbin; apply Hbin, Hin).
    rewrite Har.
    destruct (push_values_spec values 2 tape Htape 1 (comb_array c) 1 (S pos) ltac:(lia))
      as (lits & Hrun & Hlen & Hall).
    change (Z.to_nat (Z.of_nat 2 - 1)) with 1%nat.
    unfold bind at 1. rewrite Hrun. cbn [fst snd].
    destruct lits as [| v [| ? ?]]; try discriminate Hlen.
    replace (1 + Z.of_nat 1 - 1) with 1 by lia.
    replace ((comb_array c ++ map TVal [v]) ++ [TOp op]) with (comb_array (Link op v c))
      by (simpl; rewrite <- app_assoc; reflexivity).
    destruct (IH (Link op v c) (S pos + 1)%nat) as (c' & pos' & Hgen & Hlen' & Hops' & Hvals').
    exists c', pos'. split; [exact Hgen |]. split; [simpl in Hlen'; lia |].
    apply Forall_cons in Hall as [Hv _]. split.
    + intros Hc. apply Hops'. simpl. constructor; assumption.
    + intros Hc. apply Hvals'. simpl. constructor; assumption.
Qed.

(** With binary operators and at least one operator asked for,
    [generateExpression] returns the array of a comb. *)
Lemma generateExpression_comb (operators : list (Operator.t num))
    (minOps maxOps : Z) (values : list (value num)) (tape : nat -> Q) (pos : nat) :
  valid_tape tape -> operators <> [] ->
  Forall (fun o => Operator.arity o = 2%nat) operators ->
  1 <= minOps <= maxOps ->
  exists c pos',
    generateExpression operators minOps maxOps values tape pos = (Ok (comb_array c), pos')
    /\ minOps <= Z.of_nat (length (comb_ops c)) <= maxOps
    /\ Forall (fun o => o ∈ operators) (comb_ops c)
    /\ Forall (from_pool values) (comb_values c).
Proof.
  intros Htape Hops Hbin Hbounds. unfold generateExpression.
  destruct (randInt_range tape pos minOps maxOps Htape ltac:(lia)) as (ops & Hdraw & Hrange).
  unfold bind at 1. rewrite Hdraw.
  destruct (Z.to_nat ops) as [| n] eqn:Hn; [lia |].
  cbn [generate_ops].
  destruct (randInt_range tape (S pos) 0 (Z.of_nat (length operators) - 1) Htape)
    as (idx & Hidx & Hirange); [destruct operators; [contradiction | simpl; lia] |].
  unfold bind at 1. rewrite Hidx.
  destruct (js_index_in_range operators idx Hirange) as (op & -> & Hin).
  assert (Har : Operator.arity op = 2%nat)
    by (rewrite Forall_forall in Hbin; apply Hbin, Hin).
  rewrite Har.
  destruct (push_values_spec values 2 tape Htape 2 [] 0 (S (S pos)) ltac:(lia))
    as (lits & Hrun & Hlen & Hall).
  change (Z.to_nat (Z.of_nat 2 - 0)) with 2%nat.
  unfold bind at 1. rewrite Hrun. cbn [fst snd].
  destruct lits as [| v0 [| v1 [| ? ?]]]; try discriminate Hlen.
  replace (0 + Z.of_nat 2 - 1) with 1 by lia.
  change (([] ++ map TVal [v0; v1]) ++ [TOp op]) with (comb_array (Link op v1 (Last v0))).
  destruct (generate_ops_comb operators values tape Htape Hops Hbin n
              (Link op v1 (Last v0)) (S (S pos) + 2)%nat)
    as (c' & pos' & Hgen & Hlen' & Hops' & Hvals').
  exists c', pos'. split; [exact Hgen |].
  apply Forall_cons in Hall as [Hv0 Hall']. apply Forall_cons in Hall' as [Hv1 _].
  split; [simpl in Hlen'; lia |]. split.
  - apply Hops'. simpl. constructor; [exact Hin | constructor].
  - apply Hvals'. simpl. repeat (apply Forall_cons_2; [assumption |]). constructor.
Qed.

End GeneratorFacts.


(** ** Markup read with the usual precedence *)

Section ReadingFacts.
Context {num : Type} `{JSNumber num} `{!ExactArith num}.
Import captcha.



(** Closing units only look at the value read so far. *)
Lemma read_have_closes (s1 s2 : option (num * addop)) (t1 t2 : num)
    (stk : list (frame num)) (k : list mtok) :
  closes k -> into_sum s1 t1 = into_sum s2 t2 ->
  read (Have s1 t1 stk) k = read (Have s2 t2 stk) k.
Proof.
  intros Hk Heq.
  destruct k as [| tk k]; [| destruct tk; try contradiction];
    destruct stk as [| [c | c | c n] stk]; cbn [read]; rewrite ?Heq; reflexivity.
Qed.

Lemma closes_cons_paren (k : list mtok) : closes (MRParen :: k).
Proof. exact I. Qed.

Lemma closes_cons_brace (k : list mtok) : closes (MRBrace :: k).
Proof. exact I. Qed.







(** *** Lexing the markup of a comb *)







End ReadingFacts.

Section MarkupFacts.
Context {num : Type} `{JSNumber num} `{!ExactArith num}.
Import captcha.











Lemma default_operators_binary :
  Forall (fun o : Operator.t num => Operator.arity o = 2%nat) default_operators.
Proof. repeat constructor. Qed.

End MarkupFacts.

(** The reader on a few strings: precedence, left association, grouping,
    and text that is not markup. *)
Example interp_examples :
  interp (num := qnum) "1 + 2 \times 3" = Some (of_N 7)
  /\ interp (num := qnum) "(1 + 2) \times 3" = Some (of_N 9)
  /\ interp (num := qnum) "2 \times 3 + 4" = Some (of_N 10)
  /\ interp (num := qnum) "8 - 3 - 2" = Some (of_N 3)
  /\ interp (num := qnum) "8 - (3 - 2)" = Some (of_N 7)
  /\ interp (num := qnum) "\frac{6}{3} - 1" = Some (of_N 1)
  /\ interp (num := qnum) "2 \times \frac{9}{1 + 2} \times 5" = Some (of_N 30)
  /\ interp (num := qnum) "12" = Some (of_N 12)
  /\ interp (num := qnum) "1 +" = None
  /\ interp (num := qnum) "(1 + 2" = None
  /\ interp (num := qnum) "1 2" = None.
Proof. repeat split; vm_compute; reflexivity. Qed.


(** * The specification, statement by statement *)

Section Evaluation.
Context {num : Type} `{JSNumber num}.
Import captcha.

Lemma rev_flat_map_tokens (children : list (tree num)) :
  rev (flat_map tokens_of children) = concat (map array_of (rev children)).
Proof.
  induction children as [| c cs IH]; [reflexivity |].
  simpl. rewrite rev_app_distr, IH, map_app, concat_app. simpl.
  rewrite app_nil_r. reflexivity.
Qed.

(** In the array of a node the operands lie in reverse pop order, below
    the operator. *)
Lemma array_of_node (o : Operator.t num) (children : list (tree num)) :
  array_of (Node o children) = concat (map array_of (rev children)) ++ [TOp o].
Proof.
  unfold array_of at 1. simpl. rewrite rev_flat_map_tokens. reflexivity.
Qed.

Lemma stack_of_array_of (t : tree num) : stack_of (array_of t) = tokens_of t.
Proof. unfold stack_of, array_of. apply rev_involutive. Qed.

(** C4. [solve] pops one token from the end of the array.  A literal is
    returned as it is.  For an operator of arity [k] it calls itself [k]
    times, each call on the array the previous one left, and applies the
    operator's function to the [k] results in the order of the calls.
    So on the array of a proper tree, where the operand popped first lies
    nearest the end (last among the operands in the array), it returns
    the operator's function on the operands' values in pop order; for
    [x, y, -] that is [y - x]. *)
Theorem solve_pops_operands_from_the_end :
  (forall (e : list (token num)) (v : value num), solve (e ++ [TVal v]) = Some v)
  /\ (forall (f : nat) (o : Operator.t num) (rest : list (token num)),
        solve_aux (S f) (TOp o :: rest) =
        match solve_args (solve_aux f) (Operator.arity o) [] rest with
        | Some (args, rest') => Some (Operator.op o args, rest')
        | None => None
        end)
  /\ (forall (f k : nat) (args : list (value num)) (st : list (token num)),
        solve_args (solve_aux f) (S k) args st =
        match solve_aux f st with
        | Some (v, st') => solve_args (solve_aux f) k (args ++ [v]) st'
        | None => None
        end)
  /\ (forall (o : Operator.t num) (children : list (tree num)),
        proper (Node o children) ->
        solve (concat (map array_of (rev children)) ++ [TOp o])
        = Some (Operator.op o (map eval children)))
  /\ (forall x y : num,
        solve [TVal (Num x); TVal (Num y); TOp op_sub] = Some (Num (sub y x))).
Proof.
  split; [| split; [| split; [| split]]].
  - intros e v. unfold solve, stack_of. rewrite rev_app_distr. reflexivity.
  - reflexivity.
  - reflexivity.
  - intros o children Hp. rewrite <- array_of_node.
    rewrite (solve_tree _ (Node o children)); [reflexivity | apply stack_of_array_of | exact Hp].
  - reflexivity.
Qed.

End Evaluation.

(** C4 at a node: the array [2, 3, -, 7, -] of the tree [7 - (3 - 2)]. *)
Lemma solve_pops_operands_from_the_end_witness :
  let inner : tree qnum := Node captcha.op_sub [Leaf (Num (of_N 3)); Leaf (Num (of_N 2))] in
  let children := [Leaf (Num (of_N 7)); inner] in
  proper (Node captcha.op_sub children)
  /\ captcha.solve (concat (map array_of (rev children)) ++ [TOp captcha.op_sub])
     = Some (Operator.op captcha.op_sub (map eval children)).
Proof.
  intros inner children.
  assert (Hp : proper (Node captcha.op_sub children)) by (simpl; tauto).
  split; [exact Hp |].
  destruct (solve_pops_operands_from_the_end (num := qnum)) as (_ & _ & _ & Hnode & _).
  apply Hnode, Hp.
Defined.

Section Grouping.
Context {num : Type} `{JSNumber num}.
Import captcha.

(** C3 (amended). [latex] puts operand [i] of an operator in parentheses
    exactly when the operator groups ([doGroup]), [i] is not the first
    position (for every operator, associative or not), the head of the
    operand has a precedence other than zero, and that precedence is
    numerically greater than the operator's or the operator is not
    associative.  A literal has precedence zero and is never put in
    parentheses; so is an operator registered with precedence zero.  On
    the stack of a proper tree [latex] writes the operator's template with
    the operands so decided.  [3 - (4 - 5)] keeps its parentheses,
    [(3 - 4) - 5] is written without any, and under a subtraction a
    product is wrapped too: [7 - (5 \times 2)]. *)
Theorem latex_grouping_rule :
  (forall (exp : Operator.t num) (i : nat) (c : tree num),
      group_operand exp i (head_precedence c) = true <-> grouping_rule exp i c)
  /\ (forall (exp : Operator.t num) (i : nat) (v : value num),
        group_operand exp i (head_precedence (Leaf v)) = false)
  /\ (forall (exp sub : Operator.t num) (i : nat) (children : list (tree num)),
        Operator.precedence sub = 0 ->
        group_operand exp i (head_precedence (Node sub children)) = false)
  /\ (forall (o : Operator.t num) (children : list (tree num)),
        proper (Node o children) ->
        latex (array_of (Node o children))
        = Some (substitute (Operator.latex o) (render_operands o 0 children)))
  /\ latex (num := qnum) [lit 5; lit 4; TOp op_sub; lit 3; TOp op_sub] = Some "3 - (4 - 5)"
  /\ latex (num := qnum) [lit 5; lit 4; lit 3; TOp op_sub; TOp op_sub] = Some "3 - 4 - 5"
  /\ latex (num := qnum) [lit 2; lit 5; TOp op_mul; lit 7; TOp op_sub]
     = Some "7 - (5 \times 2)".
Proof.
  split; [| split; [| split; [| split; [| split; [| split]]]]].
  - apply group_operand_rule.
  - intros exp i v. unfold group_operand, head_precedence. simpl.
    rewrite !andb_false_r. reflexivity.
  - intros exp sub0 i children Hzero. unfold group_operand, head_precedence. simpl.
    rewrite Hzero. simpl. rewrite !andb_false_r. reflexivity.
  - intros o children Hp. rewrite <- render_node.
    apply latex_tree; [apply stack_of_array_of | exact Hp].
  - vm_compute. reflexivity.
  - vm_compute. reflexivity.
  - vm_compute. reflexivity.
Qed.

End Grouping.

(** C3 at the tree [3 - (4 - 5)]. *)
Lemma latex_grouping_rule_witness :
  let inner : tree qnum := Node captcha.op_sub [Leaf (Num (of_N 4)); Leaf (Num (of_N 5))] in
  let children := [Leaf (Num (of_N 3)); inner] in
  proper (Node captcha.op_sub children)
  /\ captcha.latex (array_of (Node captcha.op_sub children))
     = Some (captcha.substitute (Operator.latex captcha.op_sub)
               (render_operands captcha.op_sub 0 children)).
Proof.
  intros inner children.
  assert (Hp : proper (Node captcha.op_sub children)) by (simpl; tauto).
  split; [exact Hp |].
  destruct (latex_grouping_rule (num := qnum)) as (_ & _ & _ & Hnode & _).
  apply Hnode, Hp.
Defined.

(** C3 as worded fails: an operator of precedence zero is an operand
    that is not a literal, it stands second under a subtraction, which
    groups and is not associative, and yet [latex] writes it bare. *)
Lemma latex_leaves_precedence_zero_operand_bare :
  let inner : tree qnum := Node op_pow0 [Leaf (Num (of_N 3)); Leaf (Num (of_N 2))] in
  grouping_rule_literal captcha.op_sub 1 inner
  /\ captcha.group_operand captcha.op_sub 1 (head_precedence inner) = false
  /\ captcha.latex (array_of (Node captcha.op_sub [Leaf (Num (of_N 4)); inner]))
     = Some "4 - {3}^{2}"
  /\ ~ (captcha.group_operand captcha.op_sub 1 (head_precedence inner) = true
        <-> grouping_rule_literal captcha.op_sub 1 inner).
Proof.
  intros inner.
  assert (Hrule : grouping_rule_literal captcha.op_sub 1 inner).
  { unfold grouping_rule_literal. repeat split; try discriminate. right. reflexivity. }
  split; [exact Hrule |]. split; [reflexivity |]. split; [vm_compute; reflexivity |].
  intros [_ Hwrap]. specialize (Hwrap Hrule). discriminate Hwrap.
Qed.

Section Substitution.
Import captcha.

(** C10 (amended). For each index [i] from 1 to the number of operands,
    [substitute] replaces only the leftmost occurrence of the text [$i]
    in the string as it then stands.  For a template whose placeholders
    have one digit and whose text holds no dollar sign, given at most nine
    operands without a dollar sign: the result is the template with the
    leftmost placeholder of each index filled, every later occurrence of a
    placeholder left as it is; and when no placeholder occurs twice, each
    operand stands exactly at the place of its placeholder. *)
Theorem substitute_fills_leftmost_placeholders (t : list piece) (subs : list string) :
  plain t -> (length subs <= 9)%nat ->
  Forall (fun s => dollar_free s = true) subs ->
  substitute (print_template t) subs = print_template (fill_firsts 0 subs t)
  /\ (NoDup (holes t) -> substitute (print_template t) subs = fill_all subs t)
  /\ (forall (s : string) (later : list piece),
        subs = [s] -> t = Hole 1 :: later ->
        substitute (print_template t) subs = s +:+ print_template later)
  /\ (forall (i : nat) (s : string),
        (i <= 9)%nat -> dollar_free s = true ->
        replace (placeholder i) s (print_template t) = print_template (fill_first i s t)).
Proof.
  intros Hplain Hlen Hsubs.
  assert (Hfirsts : substitute (print_template t) subs = print_template (fill_firsts 0 subs t))
    by (apply substitute_from_template; simpl; assumption).
  split; [exact Hfirsts |]. split; [| split].
  - intros Hnd. rewrite Hfirsts. apply fill_firsts_once, Hnd.
  - intros s later -> ->. rewrite Hfirsts. reflexivity.
  - intros i s Hi Hs. apply replace_template; assumption.
Qed.

End Substitution.

(** C10 on the template of addition, and on one that repeats [$1]. *)
Lemma substitute_fills_leftmost_placeholders_witness :
  (plain [Hole 1; Txt " + "; Hole 2]
   /\ captcha.substitute "$1 + $2" ["3"; "(4 - 5)"] = "3 + (4 - 5)")
  /\ (plain [Hole 1; Txt " + "; Hole 1]
      /\ captcha.substitute "$1 + $1" ["7"] = "7 + $1").
Proof.
  assert (Hplain : forall i j : nat, (i <= 9)%nat -> (j <= 9)%nat ->
                     plain [Hole i; Txt " + "; Hole j]).
  { intros i j Hi Hj. split; simpl.
    - apply Forall_cons_2; [reflexivity | apply Forall_nil_2].
    - repeat (apply Forall_cons_2; [assumption |]). apply Forall_nil_2. }
  split; split; try (apply Hplain; lia).
  - destruct (substitute_fills_leftmost_placeholders
                [Hole 1; Txt " + "; Hole 2] ["3"; "(4 - 5)"]
                (Hplain 1%nat 2%nat ltac:(lia) ltac:(lia)) ltac:(simpl; lia)
                ltac:(repeat (apply Forall_cons_2; [reflexivity |]); apply Forall_nil_2))
      as (Hfirsts & _).
    exact Hfirsts.
  - destruct (substitute_fills_leftmost_placeholders
                [Hole 1; Txt " + "; Hole 1] ["7"]
                (Hplain 1%nat 1%nat ltac:(lia) ltac:(lia)) ltac:(simpl; lia)
                ltac:(repeat (apply Forall_cons_2; [reflexivity |]); apply Forall_nil_2))
      as (Hfirsts & _).
    exact Hfirsts.
Defined.

(** C10 as worded fails with ten operands: in this template every
    placeholder from [$1] to [$10] occurs exactly once, but [$1] is looked
    for first and found inside [$10]; the tenth operand never appears and
    [$1] itself stays.  Counting occurrences of the text instead, each of
    [$1] to [$10] occurs exactly once in [$2 $3 ... $10], and again the
    tenth operand never appears. *)
Lemma substitute_confuses_tenth_placeholder :
  let t := [Hole 10; Txt " "; Hole 1; Txt " "; Hole 2; Txt " "; Hole 3; Txt " "; Hole 4;
            Txt " "; Hole 5; Txt " "; Hole 6; Txt " "; Hole 7; Txt " "; Hole 8; Txt " ";
            Hole 9] in
  let subs := ["a"; "b"; "c"; "d"; "e"; "f"; "g"; "h"; "i"; "j"] in
  print_template t = "$10 $1 $2 $3 $4 $5 $6 $7 $8 $9"
  /\ NoDup (holes t)
  /\ (forall i : nat, (1 <= i <= 10)%nat <-> i ∈ holes t)
  /\ fill_all subs t = "j a b c d e f g h i"
  /\ captcha.substitute (print_template t) subs = "a0 $1 b c d e f g h i"
  /\ captcha.substitute (print_template t) subs <> fill_all subs t
  /\ (forall i : nat, (1 <= i <= 10)%nat ->
        occurrences (placeholder i) "$2 $3 $4 $5 $6 $7 $8 $9 $10" = 1%nat)
  /\ captcha.substitute "$2 $3 $4 $5 $6 $7 $8 $9 $10" subs = "b c d e f g h i a0".
Proof.
  intros t subs. split; [reflexivity |].
  split; [| split; [| split; [| split; [| split; [| split]]]]].
  - apply (bool_decide_unpack _). vm_compute. reflexivity.
  - intros i. simpl. rewrite !elem_of_cons, elem_of_nil. lia.
  - reflexivity.
  - reflexivity.
  - discriminate.
  - intros i Hi.
    do 11 (destruct i as [| i]; [try lia; reflexivity |]). lia.
  - reflexivity.
Qed.

(** ** The manager *)

Section ManagerFacts.
Context {num : Type} `{JSNumber num}.
Import captcha.

Lemma live_Some (m : manager num) (key : string) (r : record.t num) :
  live m key = Some r <-> captchas m !! key = Some (Some r).
Proof.
  unfold live. destruct (captchas m !! key) as [[r' |] |]; split; congruence.
Qed.

Lemma live_set_captcha (m : manager num) (key : string) (slot : option (record.t num)) :
  live (set_captcha m key slot) key = slot.
Proof.
  unfold live, set_captcha. simpl. rewrite lookup_insert_eq. destruct slot; reflexivity.
Qed.

Lemma getImage_not_live (m : manager num) (key : string) :
  live m key = None -> getImage m key = None.
Proof. unfold getImage. intros ->. reflexivity. Qed.

Lemma check_not_live (m : manager num) (key : string) (answer places : value num) :
  live m key = None -> check m key answer places = false.
Proof. unfold check. intros ->. reflexivity. Qed.

Lemma cleanup_not_live (w : world num) (key : string) :
  live (this w) key = None -> cleanup key w = w.
Proof. unfold cleanup. intros ->. reflexivity. Qed.

(** A slot that was set to [undefined] is a forgotten key. *)
Lemma forgotten_after_unset (m : manager num) (key : string)
    (tm : gmap nat (string * Z)) (n : nat) (eff : list effect) :
  forgotten (World (set_captcha m key None) tm n eff) key.
Proof.
  assert (Hlive : live (this (World (set_captcha m key None) tm n eff)) key = None)
    by apply live_set_captcha.
  split; [| split; [| split]].
  - simpl. apply lookup_insert_eq.
  - apply getImage_not_live, Hlive.
  - intros answer places. apply check_not_live, Hlive.
  - apply cleanup_not_live, Hlive.
Qed.

(** C5. With a live record under [key], [check] scales the stored answer
    and the supplied one by [10^places], rounds each to the nearest
    integer and answers whether the two are equal; it answers [true]
    exactly then.  Without a live record it answers [false].  It is a
    total function: no error is raised. *)
Theorem check_scales_rounds_compares (m : manager num) (key : string)
    (answer places : value num) :
  let shift := pow (of_N 10) (to_number places) in
  (forall r : record.t num,
      live m key = Some r ->
      check m key answer places
      = num_eqb (round (mul (to_number answer) shift))
                (round (mul (to_number (record.answer r)) shift)))
  /\ (live m key = None -> check m key answer places = false)
  /\ (check m key answer places = true <->
      exists r : record.t num,
        captchas m !! key = Some (Some r)
        /\ num_eqb (round (mul (to_number answer) shift))
                   (round (mul (to_number (record.answer r)) shift)) = true).
Proof.
  intros shift. split; [| split].
  - intros r Hr. unfold check. rewrite Hr. reflexivity.
  - apply check_not_live.
  - unfold check. destruct (live m key) as [r |] eqn:Hlive.
    + apply live_Some in Hlive. split.
      * intros Heq. exists r. split; [exact Hlive | exact Heq].
      * intros (r' & Hr' & Heq). rewrite Hlive in Hr'. injection Hr' as <-. exact Heq.
    + split; [discriminate |].
      intros (r' & Hr' & _). apply live_Some in Hr'. congruence.
Qed.


(** The expiry timer and an explicit call take the same path: a timer
    that goes off runs [cleanup] for its key, and once [cleanup] has run,
    the timer it cancelled cannot go off any more. *)
Lemma fire_after_cleanup (key : string) (w : world num) (r : record.t num) (h : nat) :
  live (this w) key = Some r -> record.handler r = Some h ->
  fire h (cleanup key w) = cleanup key w.
Proof.
  intros Hlive Hh. unfold fire, cleanup at 1. rewrite Hlive, Hh. cbn [timers].
  rewrite lookup_delete_eq. reflexivity.
Qed.


End ManagerFacts.

Section PipelineFacts.
Context {num : Type} `{JSNumber num}.
Variable md5 : string -> string.
Import captcha.

(** The [while] loop never throws. *)
Lemma push_values_returns (values : list (value num)) (arity : nat) (tape : nat -> Q) :
  forall (fuel : nat) (rtn : list (token num)) (valCount : Z) (pos : nat),
    exists r pos', push_values fuel values arity rtn valCount tape pos = (Ok r, pos').
Proof.
  induction fuel as [| f IH]; intros rtn valCount pos; cbn [push_values].
  - eexists _, _. reflexivity.
  - destruct (valCount <? Z.of_nat arity); [| eexists _, _; reflexivity].
    unfold bind at 1, randInt at 1. apply IH.
Qed.

(** The generator throws nothing but a TypeError. *)
Lemma generate_ops_throws_TypeError (operators : list (Operator.t num))
    (values : list (value num)) (tape : nat -> Q) :
  forall (n : nat) (rtn : list (token num)) (valCount : Z) (pos pos' : nat) (e : exn),
    generate_ops n operators values rtn valCount tape pos = (Throw e, pos') -> e = TypeError.
Proof.
  induction n as [| n IH]; intros rtn valCount pos pos' e; cbn [generate_ops].
  - discriminate.
  - unfold bind at 1, randInt at 1.
    destruct (js_index operators _) as [op |]; [| unfold throw; congruence].
    destruct (push_values_returns values (Operator.arity op) tape
                (Z.to_nat (Z.of_nat (Operator.arity op) - valCount)) rtn valCount (S pos))
      as (r & pos1 & Hrun).
    unfold bind at 1. rewrite Hrun. apply IH.
Qed.

(** The bound on nested calls that [solve] and [latex] are given is
    enough: [generate] never stops for lack of it. *)
Lemma generate_begin_has_fuel (w : world num) (tape : nat -> Q) (pos : nat) :
  fst (generate_begin md5 w tape pos) <> Throw OutOfFuel.
Proof.
  unfold generate_begin, bind.
  destruct (generateExpression _ _ _ _ tape pos) as [[exp | e] pos1] eqn:Hgen.
  - destruct (latex_total ([] ++ exp)) as (math & ->).
    destruct (solve_total ([] ++ exp)) as (ans & ->).
    discriminate.
  - unfold generateExpression, bind at 1, randInt at 1 in Hgen.
    apply generate_ops_throws_TypeError in Hgen. subst e. discriminate.
Qed.

(** What the synchronous part of [generate] leaves behind. *)
Lemma generate_begin_stores (w w1 : world num) (tape : nat -> Q) (pos pos' : nat)
    (key file : string) :
  generate_begin md5 w tape pos = (Ok (w1, key, file), pos') ->
  (exists r, live (this w1) key = Some r /\ record.handler r = None
             /\ record.file r = file +:+ ".png")
  /\ timers w1 = timers w /\ next_timer w1 = next_timer w
  /\ options (this w1) = options (this w).
Proof.
  unfold generate_begin, bind.
  destruct (generateExpression _ _ _ _ tape pos) as [[exp | e] pos1]; [| discriminate].
  destruct (latex ([] ++ exp)) as [math |]; [| discriminate].
  destruct (solve ([] ++ exp)) as [ans |]; [| discriminate].
  unfold ret. intros Heq. injection Heq as <- <- <- <-.
  cbn [this timers next_timer]. rewrite live_set_captcha.
  split; [eexists; repeat split; reflexivity |]. repeat split; reflexivity.
Qed.

(** A failing stage: the slot is set to [undefined], the timers are left
    alone, and [failure(err)] is called. *)
Lemma fail_forgets (w : world num) (key : string) (e : error) :
  snd (fail w key e) = Failure e
  /\ forgotten (fst (fail w key e)) key
  /\ timers (fst (fail w key e)) = timers w.
Proof.
  unfold fail. cbn [fst snd]. split; [reflexivity |]. split; [| reflexivity].
  apply forgotten_after_unset.
Qed.

(** C6. Each callback of the chain, handed an error, sets the slot of the
    key to [undefined] and calls [failure] with that error, whatever
    happened before.  In a [generate] call that got as far as storing its
    record: when the first failing stage is the write, the typesetter or
    the rasterizer, the call ends with [failure(err)] for that stage's
    error, the key is forgotten ([getImage], [check] and [cleanup] treat
    it as unknown) and no timer was armed; only when all three stages
    succeed is a timer of [cleanupTime * 1000] milliseconds armed for the
    key, kept in the record as [handler], and [success(key)] called. *)
Theorem generate_reports_each_stage (w w1 : world num) (st : stages)
    (tape : nat -> Q) (pos pos' : nat) (key file : string) :
  generate_begin md5 w tape pos = (Ok (w1, key, file), pos') ->
  (forall (w' : world num) (k f : string) (e : error) (later : stages) (next : option error),
      write_done w' k f (Some e) later = fail w' k e
      /\ tex_done w' k f (Some e) next = fail w' k e
      /\ dvipng_done w' k (Some e) = fail w' k e)
  /\ exists (w2 : world num) (rep : report),
       generate md5 w st tape pos = (Ok (w2, rep), pos')
       /\ match write_err st, tex_err st, dvipng_err st with
          | Some e, _, _ | None, Some e, _ | None, None, Some e =>
              rep = Failure e /\ forgotten w2 key /\ timers w2 = timers w
          | None, None, None =>
              rep = Success key
              /\ timers w2
                 = <[next_timer w := (key, Options.cleanupTime (options (this w)) * 1000)]>
                     (timers w)
              /\ exists r, live (this w2) key = Some r
                           /\ record.handler r = Some (next_timer w)
          end.
Proof.
  intros Hbegin. split; [intros; repeat split; reflexivity |].
  destruct (generate_begin_stores _ _ _ _ _ _ _ Hbegin)
    as ((r & Hlive & _ & _) & Htimers & Hnext & Hopts).
  unfold generate, bind. rewrite Hbegin. unfold ret.
  eexists _, _. split; [apply injective_projections; [| reflexivity]; cbn [fst];
                        f_equal; apply surjective_pairing |].
  unfold write_done.
  destruct (write_err st) as [e |]; [| unfold tex_done; destruct (tex_err st) as [e |];
                                       [| unfold dvipng_done; destruct (dvipng_err st) as [e |]]].
  - destruct (fail_forgets w1 key e) as (Hrep & Hgone & Htm).
    rewrite Hrep, Htm. auto.
  - match goal with |- context [fail ?w' key e] =>
      destruct (fail_forgets w' key e) as (Hrep & Hgone & Htm) end.
    rewrite Hrep, Htm. auto.
  - match goal with |- context [fail ?w' key e] =>
      destruct (fail_forgets w' key e) as (Hrep & Hgone & Htm) end.
    rewrite Hrep, Htm. auto.
  - cbn [this timers next_timer effects]. rewrite Hlive. cbn [fst snd this timers].
    rewrite live_set_captcha, Htimers, Hnext, Hopts.
    split; [reflexivity |]. split; [reflexivity |]. eexists. split; reflexivity.
Qed.

End PipelineFacts.

(** [generate] on [fresh_world] with [half_tape], as far as the record. *)
Lemma generate_begin_fresh :
  captcha.generate_begin digest (fresh_world (num := qnum)) half_tape 0%nat
  = (Ok (pending_world, drawn_key, drawn_file), 10%nat).
Proof. vm_compute. reflexivity. Qed.

Lemma generate_fresh_succeeds :
  captcha.generate digest (fresh_world (num := qnum)) (Stages None None None) half_tape 0%nat
  = (Ok (ready_world, Success drawn_key), 10%nat).
Proof. vm_compute. reflexivity. Qed.

(** C5 on the record of [ready_world], whose answer is 3125. *)
Lemma check_scales_rounds_compares_witness :
  live (this (ready_world (num := qnum))) drawn_key = Some (drawn_record (Some 0%nat))
  /\ captcha.check (this (ready_world (num := qnum))) drawn_key (Num (of_N 3125)) (Num (of_N 2))
     = true
  /\ live (this (ready_world (num := qnum))) "unknown" = None
  /\ captcha.check (this (ready_world (num := qnum))) "unknown" (Num (of_N 3125)) (Num (of_N 2))
     = false.
Proof.
  assert (Hlive : live (this (ready_world (num := qnum))) drawn_key
                  = Some (drawn_record (Some 0%nat))) by apply live_set_captcha.
  assert (Hnone : live (this (ready_world (num := qnum))) "unknown" = None)
    by (vm_compute; reflexivity).
  split; [exact Hlive |]. split; [| split; [exact Hnone |]].
  - destruct (check_scales_rounds_compares (this (ready_world (num := qnum))) drawn_key
                (Num (of_N 3125)) (Num (of_N 2))) as (Hlive_case & _ & _).
    rewrite (Hlive_case _ Hlive). vm_compute. reflexivity.
  - destruct (check_scales_rounds_compares (this (ready_world (num := qnum))) "unknown"
                (Num (of_N 3125)) (Num (of_N 2))) as (_ & Hnone_case & _).
    apply Hnone_case, Hnone.
Defined.

(** Rounding to two places tells 7.0049 from 7.0051 (700 against 701)
    and takes 7.0049 for 7.0 (both 700). *)
Example check_rounds_to_places :
  let stored : value qnum := Num (qnum_div (qnum_of_Z 70049) (qnum_of_Z 10000)) in
  let m := set_captcha (this fresh_world) "k"
             (Some (record.mk [] EmptyString stored "k.png" None)) in
  captcha.check m "k" (Num (qnum_div (qnum_of_Z 70051) (qnum_of_Z 10000))) (Num (of_N 2)) = false
  /\ captcha.check m "k" (Num (of_N 7)) (Num (of_N 2)) = true.
Proof. split; vm_compute; reflexivity. Qed.


(** What [cleanup] asks the shell to run: the five file names joined by
    commas into one argument. *)
Example cleanup_command :
  effects (captcha.cleanup "k" (World (set_captcha (this (fresh_world (num := qnum))) "k"
             (Some (record.mk [] EmptyString Undefined "k.png" None))) ∅ 0%nat []))
  = [Exec "rm /tmp/math-captcha/k.tex,/tmp/math-captcha/k.aux,/tmp/math-captcha/k.dvi,/tmp/math-captcha/k.png,/tmp/math-captcha/k.log"].
Proof. vm_compute. reflexivity. Qed.



(** C6 on [fresh_world]: all stages succeed, and the rasterizer fails. *)
Lemma generate_reports_each_stage_witness :
  captcha.generate_begin digest (fresh_world (num := qnum)) half_tape 0%nat
  = (Ok (pending_world, drawn_key, drawn_file), 10%nat)
  /\ (exists w2,
        captcha.generate digest (fresh_world (num := qnum)) (Stages None None None) half_tape 0%nat
        = (Ok (w2, Success drawn_key), 10%nat)
        /\ timers w2 = <[0%nat := (drawn_key, 600 * 1000)]> ∅)
  /\ (exists w2,
        captcha.generate digest (fresh_world (num := qnum))
          (Stages None None (Some "dvipng: exit 1")) half_tape 0%nat
        = (Ok (w2, Failure "dvipng: exit 1"), 10%nat)
        /\ forgotten w2 drawn_key).
Proof.
  split; [exact generate_begin_fresh |]. split.
  - destruct (generate_reports_each_stage digest _ _ (Stages None None None) _ _ _ _ _
                generate_begin_fresh) as (_ & w2 & rep & Hgen & Hrep & Htimers & _).
    exists w2. rewrite Hgen, Hrep. split; [reflexivity | exact Htimers].
  - destruct (generate_reports_each_stage digest _ _ (Stages None None (Some "dvipng: exit 1"))
                _ _ _ _ _ generate_begin_fresh) as (_ & w2 & rep & Hgen & Hrep & Hgone & _).
    exists w2. rewrite Hgen, Hrep. split; [reflexivity | exact Hgone].
Defined.

(** ** The generator *)

Section GeneratedStacks.
Context {num : Type} `{JSNumber num}.
Import captcha.

Lemma consume_comb (c : comb num) :
  Forall (fun o => Operator.arity o = 2%nat) (comb_ops c) ->
  forall (p : nat) (k : list (token num)),
    consume (S p) (tokens_of (comb_tree c) ++ k) = consume p k.
Proof.
  induction c as [v | o v rest IH]; intros Hbin p k.
  - simpl. rewrite Nat.add_0_r. reflexivity.
  - apply Forall_cons in Hbin as [Ho Hbin].
    cbn [comb_tree tokens_of flat_map app consume slots_of]. rewrite Ho.
    replace (p + 2)%nat with (S (S p)) by lia.
    cbn [consume slots_of]. rewrite Nat.add_0_r, app_nil_r.
    apply (IH Hbin).
Qed.

(** With a registry of binary operators the generated array is
    well-formed, and [solve] consumes it whole. *)
Lemma generateExpression_binary_well_formed (operators : list (Operator.t num))
    (minOps maxOps : Z) (values : list (value num)) (tape : nat -> Q) (pos : nat) :
  valid_tape tape -> operators <> [] ->
  Forall (fun o => Operator.arity o = 2%nat) operators ->
  1 <= minOps <= maxOps ->
  exists e pos' t,
    generateExpression operators minOps maxOps values tape pos = (Ok e, pos')
    /\ well_formed e = true
    /\ stack_of e = tokens_of t /\ proper t
    /\ solve_aux (S (length e)) (stack_of e) = Some (eval t, []).
Proof.
  intros Htape Hne Hbin Hbounds.
  destruct (generateExpression_comb operators minOps maxOps values tape pos
              Htape Hne Hbin Hbounds) as (c & pos' & Hgen & _ & Hops & _).
  assert (Hcbin : Forall (fun o => Operator.arity o = 2%nat) (comb_ops c)).
  { rewrite Forall_forall in Hops, Hbin |- *. intros o Ho. apply Hbin, Hops, Ho. }
  exists (comb_array c), pos', (comb_tree c).
  split; [exact Hgen |]. split; [| split; [apply comb_array_stack | split]].
  - unfold well_formed. rewrite comb_array_stack.
    rewrite <- (app_nil_r (tokens_of _)), (consume_comb c Hcbin). reflexivity.
  - apply comb_tree_proper, Hcbin.
  - rewrite comb_array_stack, <- (app_nil_r (tokens_of _)).
    apply solve_aux_tree; [apply comb_tree_proper, Hcbin |].
    rewrite <- length_tokens_of, <- comb_array_stack. unfold stack_of.
    rewrite length_rev. lia.
Qed.

(** C9 (amended). [generateExpression] validates nothing: whatever the
    bounds and the pool are (an empty pool, [minOps > maxOps] and bounds
    below 1 included), with at least one operator registered it returns an
    array and raises no error.  Bounds that allow no operator give the
    empty array, and an empty pool gives [undefined] literals.  Its only
    failure is the TypeError of reading the arity of an operator drawn
    from an empty registry. *)
Theorem generateExpression_validates_nothing (tape : nat -> Q) :
  valid_tape tape ->
  (forall (operators : list (Operator.t num)) (minOps maxOps : Z)
          (values : list (value num)) (pos : nat),
      operators <> [] ->
      exists e pos', generateExpression operators minOps maxOps values tape pos = (Ok e, pos'))
  /\ (forall (operators : list (Operator.t num)) (minOps maxOps : Z)
             (values : list (value num)) (pos : nat),
        minOps <= maxOps <= 0 ->
        generateExpression operators minOps maxOps values tape pos = (Ok [], S pos))
  /\ (forall (arity : nat) (rtn : list (token num)) (valCount : Z) (pos : nat),
        exists lits,
          push_values (Z.to_nat (Z.of_nat arity - valCount)) [] arity rtn valCount tape pos
          = (Ok (rtn ++ map TVal lits, valCount + Z.of_nat (length lits)),
             (pos + length lits)%nat)
          /\ Forall (fun v => v = Undefined) lits
          /\ Z.of_nat (length lits) = Z.max 0 (Z.of_nat arity - valCount))
  /\ (forall (minOps maxOps : Z) (values : list (value num)) (pos : nat),
        1 <= minOps <= maxOps ->
        generateExpression [] minOps maxOps values tape pos = (Throw TypeError, S (S pos))).
Proof.
  intros Htape. split; [| split; [| split]].
  - intros operators minOps maxOps values pos Hne.
    apply generateExpression_returns; assumption.
  - intros operators minOps maxOps values pos Hbounds.
    destruct (randInt_range tape pos minOps maxOps Htape ltac:(lia)) as (ops & Hdraw & Hrange).
    unfold generateExpression, bind. rewrite Hdraw.
    replace (Z.to_nat ops) with O by lia. reflexivity.
  - intros arity rtn valCount pos.
    destruct (push_values_spec [] arity tape Htape (Z.to_nat (Z.of_nat arity - valCount))
                rtn valCount pos ltac:(lia)) as (lits & Hrun & Hlen & Hall).
    exists lits. rewrite Hlen. split; [exact Hrun |]. split; [| lia].
    rewrite Forall_forall in Hall |- *. intros v Hv.
    destruct (Hall v Hv) as [Hin | [_ Hundef]]; [| exact Hundef].
    apply elem_of_nil in Hin. contradiction.
  - intros minOps maxOps values pos Hbounds.
    destruct (randInt_range tape pos minOps maxOps Htape ltac:(lia)) as (ops & Hdraw & Hrange).
    unfold generateExpression, bind. rewrite Hdraw.
    destruct (Z.to_nat ops) as [| n] eqn:Hn; [lia |].
    cbn [generate_ops]. unfold bind, randInt. rewrite js_index_nil. reflexivity.
Qed.

End GeneratedStacks.

(** C9 with the default registry, an empty pool and [minOps > maxOps]. *)
Lemma generateExpression_validates_nothing_witness :
  valid_tape zero_tape
  /\ (captcha.default_operators (num := qnum) <> []
      /\ exists e pos',
           captcha.generateExpression (num := qnum) captcha.default_operators 5 3 [] zero_tape 0%nat
           = (Ok e, pos')).
Proof.
  assert (Htape : valid_tape zero_tape) by (intros i; split; [discriminate | reflexivity]).
  split; [exact Htape |]. split; [discriminate |].
  destruct (generateExpression_validates_nothing (num := qnum) zero_tape Htape) as (Hreturns & _).
  apply Hreturns. discriminate.
Defined.

(** C9 as worded fails: with an empty pool and [minOps = 5 > maxOps = 3]
    an array of five operators over [undefined] literals is returned, and
    with both bounds 0 the empty array; no error is raised. *)
Lemma generateExpression_accepts_malformed_parameters :
  let u : token qnum := TVal Undefined in
  let plus : token qnum := TOp captcha.op_add in
  captcha.generateExpression captcha.default_operators 5 3 [] zero_tape 0%nat
  = (Ok [u; u; plus; u; plus; u; plus; u; plus; u; plus], 12%nat)
  /\ captcha.generateExpression captcha.default_operators 0 0 [Num (of_N 1)] zero_tape 0%nat
     = (Ok [], 1%nat)
  /\ captcha.generateExpression captcha.default_operators 3 5 [] zero_tape 0%nat
     = (Ok [u; u; plus; u; plus; u; plus], 8%nat).
Proof. intros u plus. repeat split; vm_compute; reflexivity. Qed.

(** C1 fails on the code.  With one operator of arity 3 registered, two
    operators asked for and the pool [1], [generateExpression] returns
    [1, 1, 1, op, 1, op]: after pushing an operator it counts one operand
    less, whatever the arity, so the second operator gets one literal
    where it needs two.  Consumed from the end, the array leaves one
    operand slot unfilled; [solve] pops the exhausted array for the third
    operand of the outer operator, gets [undefined], and the sum is NaN. *)
Theorem generateExpression_ternary_underflow :
  let op : token qnum := TOp op_sum3 in
  let e : list (token qnum) := [lit 1; lit 1; lit 1; op; lit 1; op] in
  valid_tape zero_tape
  /\ captcha.generateExpression [op_sum3] 2 2 [Num (of_N 1)] zero_tape 0%nat = (Ok e, 7%nat)
  /\ consume 1 (stack_of e) = Some 1%nat
  /\ well_formed e = false
  /\ captcha.solve_args (captcha.solve_aux 6) 3 [] [lit 1; op; lit 1; lit 1; lit 1]
     = Some ([Num (of_N 1); Num (of_N 3); Undefined], [])
  /\ captcha.solve e = Some (Num nan).
Proof.
  intros op e. split; [intros i; split; [discriminate | reflexivity] |].
  repeat split; vm_compute; reflexivity.
Qed.

(** The same slip with an operator of arity 1 ([new Operator(1, false,
    false, '-$1', 1, ...)]): the array [1, op, 1, op] holds two
    expressions, and [solve] leaves the first two tokens unread. *)
Example generateExpression_unary_leftover :
  let neg : Operator.t qnum :=
    Operator.new 1 false false "-$1" 1
      (fun args => Num (sub (of_N 0) (to_number (js_arg args 0)))) in
  let e : list (token qnum) := [lit 1; TOp neg; lit 1; TOp neg] in
  captcha.generateExpression [neg] 2 2 [Num (of_N 1)] zero_tape 0%nat = (Ok e, 5%nat)
  /\ well_formed e = false
  /\ captcha.solve_aux 5 (stack_of e) = Some (Num (qnum_of_Z (-1)), [TOp neg; lit 1]).
Proof. intros neg e. repeat split; vm_compute; reflexivity. Qed.

(** ** Markup against answer *)

Lemma Qred_inject_Z (z : Z) : Qred (inject_Z z) = inject_Z z.
Proof.
  apply Qred_identity. simpl. apply Z.gcd_1_r.
Qed.

Lemma qnum_show_of_Z (n : N) : qnum_show (qnum_of_Z (Z.of_N n)) = show_N n.
Proof.
  unfold qnum_show, qnum_of_Z. cbn [Q2Qc Qcanon.this]. rewrite Qred_inject_Z. cbn [inject_Z Qnum Qden].
  destruct (Z.ltb_spec (Z.of_N n) 0) as [? | _]; [lia |].
  rewrite Z.abs_eq, N2Z.id by lia. reflexivity.
Qed.

(** Exact rationals obey the laws of exact arithmetic. *)
#[export] Instance QNum_exact : ExactArith qnum.
Proof.
  split.
  - intros [a |] [b |] [c |]; simpl; try reflexivity. f_equal. ring.
  - intros [a |] [b |] [c |]; simpl; try reflexivity. f_equal. ring.
  - intros [a |] [b |] [c |]; simpl; try reflexivity. f_equal. ring.
  - intros n _. apply qnum_show_of_Z.
Qed.

Section MarkupAgainstAnswer.
Context {num : Type} `{JSNumber num} `{!ExactArith num}.
Import captcha.


End MarkupAgainstAnswer.




(** * Further properties *)

Section EngineExtras.
Context {num : Type} `{JSNumber num}.
Import captcha.

Lemma Qfloor_scaled (r : Q) (k : Z) :
  Qfloor (r * inject_Z k) = (Qnum r * k) / Zpos (Qden r).
Proof.
  destruct r as [p q]. unfold Qfloor, Qmult, inject_Z. cbn [Qnum Qden].
  rewrite Pos.mul_1_r. reflexivity.
Qed.


(** The draw [draw_for n m z] is a proper one and gives [z]. *)
Lemma draw_for_spec (n m z : Z) :
  n <= z <= m ->
  (0 <= draw_for n m z)%Q /\ (draw_for n m z < 1)%Q
  /\ n + Qfloor (draw_for n m z * inject_Z (m - n + 1)) = z.
Proof.
  intros Hz. unfold draw_for. split; [| split].
  - unfold Qle. cbn [Qnum Qden]. lia.
  - unfold Qlt. cbn [Qnum Qden]. rewrite Z2Pos.id by lia. lia.
  - rewrite Qfloor_scaled. cbn [Qnum Qden]. rewrite Z2Pos.id by lia.
    rewrite Z.div_mul by lia. lia.
Qed.


End EngineExtras.


Section ConsumerExtras.
Context {num : Type} `{JSNumber num}.
Import captcha.

(** X2. [solve] and [latex] read an array alike: on every stack,
    well-formed or not, the two leave the same tokens unread, and so they
    do on every array.  Both return on every array. *)
Theorem solve_and_latex_read_the_same_tokens :
  (forall (fuel : nat) (st : list (token num)),
      snd <$> solve_aux fuel st = snd <$> latex_aux fuel st)
  /\ (forall e : list (token num),
        exists v s rest,
          solve_aux (S (length e)) (stack_of e) = Some (v, rest)
          /\ latex_aux (S (length e)) (stack_of e) = Some (s, rest)
          /\ solve e = Some v /\ latex e = Some s).
Proof.
  assert (Hsame : forall (fuel : nat) (st : list (token num)),
             snd <$> solve_aux fuel st = snd <$> latex_aux fuel st).
  { induction fuel as [| f IH]; intros st; [reflexivity |].
    destruct st as [| [v | o] rest]; [reflexivity | reflexivity |].
    cbn [solve_aux latex_aux].
    assert (Hargs : forall (k i : nat) (args1 : list (value num)) (args2 : list string)
                           (st : list (token num)),
               snd <$> solve_args (solve_aux f) k args1 st
               = snd <$> latex_args (latex_aux f) o k i args2 st).
    { induction k as [| k IHk]; intros i args1 args2 st; [reflexivity |].
      cbn [solve_args latex_args]. specialize (IH st).
      destruct (solve_aux f st) as [[v st1] |], (latex_aux f st) as [[s st2] |];
        try discriminate IH; [| reflexivity].
      injection IH as ->. apply IHk. }
    specialize (Hargs (Operator.arity o) O [] [] rest).
    destruct (solve_args _ _ _ _) as [[args1 st1] |], (latex_args _ _ _ _ _ _) as [[args2 st2] |];
      try discriminate Hargs; [| reflexivity].
    injection Hargs as ->. reflexivity. }
  split; [exact Hsame |].
  intros e.
  destruct (solve_aux_total (S (length e)) (stack_of e)) as (v & rest & Hv & _);
    [unfold stack_of; rewrite length_rev; lia |].
  destruct (latex_aux_total (S (length e)) (stack_of e)) as (s & rest' & Hs & _);
    [unfold stack_of; rewrite length_rev; lia |].
  pose proof (Hsame (S (length e)) (stack_of e)) as Heq.
  rewrite Hv, Hs in Heq. injection Heq as <-.
  exists v, s, rest. unfold solve, latex. rewrite Hv, Hs. repeat split; reflexivity.
Qed.

(** X3. Tokens that lie below a complete expression are never read and
    raise no error: on [below ++ e], where [e] is the array of a proper
    tree, [solve] returns the value of the tree and [latex] its markup,
    whatever [below] holds. *)
Theorem tokens_below_an_expression_are_ignored (t : tree num) (below : list (token num)) :
  proper t ->
  solve (below ++ array_of t) = Some (eval t)
  /\ latex (below ++ array_of t) = Some (render t)
  /\ solve_aux (S (length (below ++ array_of t))) (stack_of (below ++ array_of t))
     = Some (eval t, stack_of below).
Proof.
  intros Hp.
  assert (Hstack : stack_of (below ++ array_of t) = tokens_of t ++ stack_of below).
  { unfold stack_of, array_of. rewrite rev_app_distr, rev_involutive. reflexivity. }
  assert (Hfuel : (size t <= S (length (below ++ array_of t)))%nat).
  { rewrite length_app. unfold array_of. rewrite length_rev, length_tokens_of. lia. }
  unfold solve, latex. rewrite Hstack.
  rewrite (solve_aux_tree t Hp _ _ Hfuel), (latex_aux_tree t Hp _ _ Hfuel).
  repeat split; reflexivity.
Qed.

End ConsumerExtras.

(** X3 on [1, \times] below [2 - 3]: the array [1, \times, 3, 2, -]. *)
Lemma tokens_below_an_expression_are_ignored_witness :
  let t : tree qnum := Node captcha.op_sub [Leaf (Num (of_N 2)); Leaf (Num (of_N 3))] in
  proper t
  /\ captcha.solve ([lit 1; TOp captcha.op_mul] ++ array_of t) = Some (eval t).
Proof.
  intros t.
  assert (Hp : proper t) by (simpl; tauto).
  split; [exact Hp |].
  apply (tokens_below_an_expression_are_ignored t [lit 1; TOp captcha.op_mul] Hp).
Defined.

Section GeneratorExtras.
Context {num : Type} `{JSNumber num}.
Import captcha.

Lemma operators_of_app (e1 e2 : list (token num)) :
  operators_of (e1 ++ e2) = operators_of e1 ++ operators_of e2.
Proof.
  induction e1 as [| [v | o] e1 IH]; simpl; [reflexivity | exact IH | f_equal; exact IH].
Qed.

Lemma operators_of_literals (lits : list (value num)) : operators_of (map TVal lits) = [].
Proof. induction lits as [| v lits IH]; [reflexivity | exact IH]. Qed.

Lemma drawn_literals (operators : list (Operator.t num)) (values lits : list (value num)) :
  Forall (from_pool values) lits -> Forall (drawn operators values) (map TVal lits).
Proof. intros Hall. apply Forall_map. exact Hall. Qed.

(** What [n] rounds of the loop add to the array. *)
Lemma generate_ops_appends (operators : list (Operator.t num)) (values : list (value num))
    (tape : nat -> Q) :
  valid_tape tape -> operators <> [] ->
  forall (n : nat) (rtn : list (token num)) (valCount : Z) (pos : nat),
    exists e' pos',
      generate_ops n operators values rtn valCount tape pos = (Ok (rtn ++ e'), pos')
      /\ length (operators_of e') = n
      /\ Forall (drawn operators values) e'
      /\ (n = O -> e' = [])
      /\ (n <> O -> exists o, last e' = Some (TOp o)).
Proof.
  intros Htape Hne. induction n as [| n IH]; intros rtn valCount pos.
  - exists [], pos. rewrite app_nil_r. repeat split; auto. intros Hn. contradiction.
  - cbn [generate_ops].
    destruct (randInt_range tape pos 0 (Z.of_nat (length operators) - 1) Htape)
      as (idx & Hidx & Hrange); [destruct operators; [contradiction | simpl; lia] |].
    unfold bind at 1. rewrite Hidx.
    destruct (js_index_in_range operators idx Hrange) as (op & -> & Hin).
    destruct (push_values_spec values (Operator.arity op) tape Htape
                (Z.to_nat (Z.of_nat (Operator.arity op) - valCount)) rtn valCount (S pos)
                ltac:(lia)) as (lits & Hrun & _ & Hall).
    unfold bind at 1. rewrite Hrun. cbn [fst snd].
    match goal with |- context [generate_ops n operators values ?r ?vc tape ?p] =>
      destruct (IH r vc p) as (e' & pos' & Hgen & Hlen & Hdrawn & Hnil & Hlast) end.
    exists (map TVal lits ++ [TOp op] ++ e'), pos'.
    split; [rewrite Hgen, <- !app_assoc; reflexivity |]. split; [| split; [| split]].
    + rewrite !operators_of_app, operators_of_literals. simpl. rewrite Hlen. reflexivity.
    + apply Forall_app. split; [apply drawn_literals, Hall |].
      apply Forall_cons. split; [exact Hin | exact Hdrawn].
    + discriminate.
    + intros _. destruct n as [| n'].
      * rewrite (Hnil eq_refl). exists op. rewrite app_nil_r, last_snoc. reflexivity.
      * destruct (Hlast ltac:(discriminate)) as (o & Ho). exists o.
        rewrite !last_app, Ho. reflexivity.
Qed.

(** X4. With at least one operator registered and [1 <= minOps <=
    maxOps], whatever the arities and the pool: [generateExpression]
    returns an array whose last token is an operator of the registry
    (the first thing [solve] and [latex] pop), that holds between
    [minOps] and [maxOps] operators, and whose tokens are all drawn from
    the registry and the pool. *)
Theorem generateExpression_ends_with_an_operator (operators : list (Operator.t num))
    (minOps maxOps : Z) (values : list (value num)) (tape : nat -> Q) (pos : nat) :
  valid_tape tape -> operators <> [] -> 1 <= minOps <= maxOps ->
  exists e pos' o,
    generateExpression operators minOps maxOps values tape pos = (Ok e, pos')
    /\ last e = Some (TOp o) /\ o ∈ operators
    /\ minOps <= Z.of_nat (length (operators_of e)) <= maxOps
    /\ Forall (drawn operators values) e.
Proof.
  intros Htape Hne Hbounds. unfold generateExpression.
  destruct (randInt_range tape pos minOps maxOps Htape ltac:(lia)) as (ops & Hdraw & Hrange).
  unfold bind at 1. rewrite Hdraw.
  destruct (generate_ops_appends operators values tape Htape Hne (Z.to_nat ops) [] 0 (S pos))
    as (e & pos' & Hgen & Hlen & Hdrawn & _ & Hlast).
  destruct (Hlast ltac:(lia)) as (o & Ho).
  exists e, pos', o. cbn [app] in Hgen.
  split; [exact Hgen |]. split; [exact Ho |]. split; [| split; [lia | exact Hdrawn]].
  apply last_Some in Ho as (e0 & ->).
  rewrite Forall_app, Forall_singleton in Hdrawn. apply Hdrawn.
Qed.

Lemma length_comb_array (c : comb num) :
  length (comb_array c) = (2 * length (comb_ops c) + 1)%nat.
Proof.
  induction c as [v | o v rest IH]; [reflexivity |].
  simpl. rewrite length_app, IH. simpl. lia.
Qed.

Lemma operators_of_comb_array (c : comb num) :
  operators_of (comb_array c) = rev (comb_ops c).
Proof.
  induction c as [v | o v rest IH]; [reflexivity |].
  simpl. rewrite operators_of_app, IH. reflexivity.
Qed.

(** X5. With a registry of binary operators only (as the default one)
    and [1 <= minOps <= maxOps]: the array returned holds [n] operators
    and [n + 1] literals for some [n] of [minOps..maxOps], it is
    well-formed, and [solve] and [latex] consume all of it. *)
Theorem generateExpression_binary_shape (operators : list (Operator.t num))
    (minOps maxOps : Z) (values : list (value num)) (tape : nat -> Q) (pos : nat) :
  valid_tape tape -> operators <> [] ->
  Forall (fun o => Operator.arity o = 2%nat) operators ->
  1 <= minOps <= maxOps ->
  exists e pos' n,
    generateExpression operators minOps maxOps values tape pos = (Ok e, pos')
    /\ minOps <= Z.of_nat n <= maxOps
    /\ length (operators_of e) = n /\ length e = (2 * n + 1)%nat
    /\ well_formed e = true
    /\ (exists v, solve_aux (S (length e)) (stack_of e) = Some (v, []))
    /\ (exists s, latex_aux (S (length e)) (stack_of e) = Some (s, [])).
Proof.
  intros Htape Hne Hbin Hbounds.
  destruct (generateExpression_comb operators minOps maxOps values tape pos
              Htape Hne Hbin Hbounds) as (c & pos' & Hgen & Hlen & Hops & _).
  assert (Hcbin : Forall (fun o => Operator.arity o = 2%nat) (comb_ops c)).
  { rewrite Forall_forall in Hops, Hbin |- *. intros o Ho. apply Hbin, Hops, Ho. }
  assert (Hp : proper (comb_tree c)) by apply comb_tree_proper, Hcbin.
  assert (Hfuel : (size (comb_tree c) <= S (length (comb_array c)))%nat).
  { rewrite <- length_tokens_of, <- comb_array_stack. unfold stack_of.
    rewrite length_rev. lia. }
  exists (comb_array c), pos', (length (comb_ops c)).
  split; [exact Hgen |]. split; [exact Hlen |].
  split; [rewrite operators_of_comb_array; apply length_rev |].
  split; [apply length_comb_array |]. split; [| split].
  - unfold well_formed. rewrite comb_array_stack.
    rewrite <- (app_nil_r (tokens_of _)), (consume_comb c Hcbin). reflexivity.
  - exists (eval (comb_tree c)).
    rewrite comb_array_stack, <- (app_nil_r (tokens_of _)).
    apply solve_aux_tree; assumption.
  - exists (render (comb_tree c)).
    rewrite comb_array_stack, <- (app_nil_r (tokens_of _)).
    apply latex_aux_tree; assumption.
Qed.

Lemma randInt_point (tape : nat -> Q) (pos : nat) (n : Z) :
  valid_tape tape -> randInt n n tape pos = (Ok n, S pos).
Proof.
  intros Htape.
  destruct (randInt_range tape pos n n Htape ltac:(lia)) as (z & Hz & Hrange).
  rewrite Hz. repeat f_equal. lia.
Qed.

Lemma from_singleton_pool (v : value num) (lits : list (value num)) :
  Forall (from_pool [v]) lits -> lits = repeat v (length lits).
Proof.
  induction 1 as [| x lits Hx _ IH]; [reflexivity |].
  simpl. rewrite <- IH. f_equal.
  destruct Hx as [Hin | [Hnil _]]; [| discriminate].
  apply list_elem_of_singleton in Hin. exact Hin.
Qed.

(** One round of the loop when there is one operator and one value. *)
Lemma generate_ops_single_step (op : Operator.t num) (v : value num) (tape : nat -> Q)
    (n : nat) (rtn : list (token num)) (valCount : Z) (pos : nat) :
  valid_tape tape -> Operator.arity op = 2%nat ->
  generate_ops (S n) [op] [v] rtn valCount tape pos
  = generate_ops n [op] [v]
      ((rtn ++ map TVal (repeat v (Z.to_nat (2 - valCount)))) ++ [TOp op])
      (valCount + Z.of_nat (Z.to_nat (2 - valCount)) - 1) tape
      (S pos + Z.to_nat (2 - valCount))%nat.
Proof.
  intros Htape Har. cbn [generate_ops].
  destruct (randInt_range tape pos 0 (Z.of_nat (length [op]) - 1) Htape ltac:(simpl; lia))
    as (idx & Hidx & Hrange).
  unfold bind at 1. rewrite Hidx.
  assert (idx = 0) as -> by (simpl in Hrange; lia).
  change (js_index [op] 0) with (Some op). cbv beta iota. rewrite Har.
  change (Z.of_nat 2) with 2.
  destruct (push_values_spec [v] 2 tape Htape (Z.to_nat (2 - valCount)) rtn valCount (S pos)
              ltac:(lia)) as (lits & Hrun & Hlen & Hall).
  unfold bind at 1. rewrite Hrun. cbn [fst snd].
  rewrite (from_singleton_pool v lits Hall), Hlen. reflexivity.
Qed.

Lemma generate_ops_chain (op : Operator.t num) (v : value num) (tape : nat -> Q) :
  valid_tape tape -> Operator.arity op = 2%nat ->
  forall (n k : nat) (pos : nat),
    generate_ops n [op] [v] (chain op v k) 1 tape pos
    = (Ok (chain op v (n + k)), (pos + 2 * n)%nat).
Proof.
  intros Htape Har. induction n as [| n IH]; intros k pos.
  - simpl. rewrite Nat.add_0_r. reflexivity.
  - rewrite (generate_ops_single_step op v tape n _ _ _ Htape Har).
    change (Z.to_nat (2 - 1)) with 1%nat. cbn [repeat map].
    replace (1 + Z.of_nat 1 - 1) with 1 by lia.
    replace ((chain op v k ++ [TVal v]) ++ [TOp op]) with (chain op v (S k))
      by (simpl; rewrite <- app_assoc; reflexivity).
    rewrite IH. f_equal; [f_equal; f_equal; lia | lia].
Qed.

(** The comb of a chain. *)
Lemma chain_is_a_comb (op : Operator.t num) (v : value num) (n : nat) :
  exists c : comb num,
    chain op v n = comb_array c /\ comb_ops c = repeat op n
    /\ eval (comb_tree c) = chain_value op v n.
Proof.
  induction n as [| n (c & Harr & Hops & Hval)].
  - exists (Last v). repeat split.
  - exists (Link op v c). cbn [chain comb_array comb_ops comb_tree eval map repeat chain_value].
    rewrite Harr, Hops, Hval. repeat split.
Qed.

(** X6. With one binary operator registered, a pool of one value and
    [minOps = maxOps = n >= 1], nothing is left to chance: whatever the
    draws, [generateExpression] returns [v, v, op, v, op, ...] with [n]
    operators after [2n + 2] draws, and [solve] of it is
    [op(v, op(v, ... op(v, v)))]. *)
Theorem generateExpression_single_choice (op : Operator.t num) (v : value num) (n : nat)
    (tape : nat -> Q) (pos : nat) :
  valid_tape tape -> Operator.arity op = 2%nat -> (1 <= n)%nat ->
  generateExpression [op] (Z.of_nat n) (Z.of_nat n) [v] tape pos
  = (Ok (chain op v n), (pos + 2 * n + 2)%nat)
  /\ solve (chain op v n) = Some (chain_value op v n).
Proof.
  intros Htape Har Hn. split.
  - unfold generateExpression, bind at 1. rewrite (randInt_point tape pos _ Htape).
    rewrite Nat2Z.id. destruct n as [| n]; [lia |].
    rewrite (generate_ops_single_step op v tape n _ _ _ Htape Har).
    change (Z.to_nat (2 - 0)) with 2%nat. cbn [repeat map].
    replace (0 + Z.of_nat 2 - 1) with 1 by lia.
    change (([] ++ [TVal v; TVal v]) ++ [TOp op]) with (chain op v 1).
    rewrite (generate_ops_chain op v tape Htape Har n 1).
    f_equal; [f_equal; f_equal; lia | lia].
  - destruct (chain_is_a_comb op v n) as (c & -> & Hops & <-).
    apply solve_tree; [apply comb_array_stack |].
    apply comb_tree_proper. rewrite Hops. apply Forall_forall.
    intros o Ho. apply list_elem_of_In, repeat_spec in Ho. subst o. exact Har.
Qed.

End GeneratorExtras.

(** X4 on the default registry, the default pool and [half_tape]. *)
Lemma generateExpression_ends_with_an_operator_witness :
  valid_tape half_tape /\ captcha.default_operators (num := qnum) <> [] /\ 1 <= 3 <= 5
  /\ exists e pos' o,
       captcha.generateExpression (num := qnum) captcha.default_operators 3 5 default_values
         half_tape 0%nat = (Ok e, pos')
       /\ last e = Some (TOp o) /\ o ∈ captcha.default_operators (num := qnum)
       /\ 3 <= Z.of_nat (length (operators_of e)) <= 5
       /\ Forall (drawn captcha.default_operators default_values) e.
Proof.
  assert (Htape : valid_tape half_tape) by (intros i; split; [discriminate | reflexivity]).
  split; [exact Htape |]. split; [discriminate |]. split; [lia |].
  apply (generateExpression_ends_with_an_operator (num := qnum) captcha.default_operators 3 5
           default_values half_tape 0%nat Htape ltac:(discriminate) ltac:(lia)).
Defined.

(** X5 on the default registry, the default pool and [half_tape]. *)
Lemma generateExpression_binary_shape_witness :
  valid_tape half_tape /\ captcha.default_operators (num := qnum) <> []
  /\ Forall (fun o => Operator.arity o = 2%nat) (captcha.default_operators (num := qnum))
  /\ 1 <= 3 <= 5
  /\ exists e pos' n,
       captcha.generateExpression (num := qnum) captcha.default_operators 3 5 default_values
         half_tape 0%nat = (Ok e, pos')
       /\ 3 <= Z.of_nat n <= 5
       /\ length (operators_of e) = n /\ length e = (2 * n + 1)%nat
       /\ well_formed e = true
       /\ (exists v, captcha.solve_aux (S (length e)) (stack_of e) = Some (v, []))
       /\ (exists s, captcha.latex_aux (S (length e)) (stack_of e) = Some (s, [])).
Proof.
  assert (Htape : valid_tape half_tape) by (intros i; split; [discriminate | reflexivity]).
  split; [exact Htape |]. split; [discriminate |]. split; [exact default_operators_binary |].
  split; [lia |].
  apply (generateExpression_binary_shape (num := qnum) captcha.default_operators 3 5
           default_values half_tape 0%nat Htape ltac:(discriminate) default_operators_binary
           ltac:(lia)).
Defined.

(** X6 with subtraction, the value 7 and three operators. *)
Lemma generateExpression_single_choice_witness :
  valid_tape half_tape /\ Operator.arity (captcha.op_sub (num := qnum)) = 2%nat /\ (1 <= 3)%nat
  /\ captcha.generateExpression [captcha.op_sub] 3 3 [Num (of_N 7)] half_tape 0%nat
     = (Ok (chain captcha.op_sub (Num (of_N 7)) 3), 8%nat)
  /\ captcha.solve (chain (num := qnum) captcha.op_sub (Num (of_N 7)) 3)
     = Some (chain_value captcha.op_sub (Num (of_N 7)) 3).
Proof.
  assert (Htape : valid_tape half_tape) by (intros i; split; [discriminate | reflexivity]).
  split; [exact Htape |]. split; [reflexivity |]. split; [lia |].
  apply (generateExpression_single_choice (num := qnum) captcha.op_sub (Num (of_N 7)) 3
           half_tape 0%nat Htape eq_refl ltac:(lia)).
Defined.

Section InterleavingFacts.
Context {num : Type} `{JSNumber num}.
Variable md5 : string -> string.
Variable eager : bool.
Variable good : (nat -> Q) -> Prop.
Import captcha.

Lemma live_set_captcha_ne (m : manager num) (key k : string) (slot : option (record.t num)) :
  key <> k -> live (set_captcha m key slot) k = live m k.
Proof.
  intros Hne. unfold live, set_captcha. simpl. rewrite lookup_insert_ne by exact Hne. reflexivity.
Qed.

(** What the synchronous part of [generate] stores. *)
Lemma generate_begin_builds (w w' : world num) (tape : nat -> Q) (pos pos' : nat)
    (key file : string) :
  generate_begin md5 w tape pos = (Ok (w', key, file), pos') ->
  exists r : record.t num,
    w' = World (set_captcha (this w) key (Some r)) (timers w) (next_timer w)
           (effects w ++ [WriteFile (file +:+ ".tex") (record.latex r)])
    /\ built_by_generate md5 (eq tape) (this w) key r /\ record.handler r = None
    /\ file = Options.path (options (this w)) +:+ "/" +:+ key.
Proof.
  unfold generate_begin, bind.
  destruct (generateExpression _ _ _ _ tape pos) as [[exp | e] pos1] eqn:Hgen; [| discriminate].
  cbn [app].
  destruct (latex exp) as [math |] eqn:Hlatex; [| discriminate].
  destruct (solve exp) as [ans |] eqn:Hsolve; [| discriminate].
  unfold ret. intros Heq. injection Heq as <- <- <- <-.
  exists (record.mk exp (wrapLatex math) ans
            ((Options.path (options (this w)) +:+ "/" +:+ md5 (wrapLatex math)) +:+ ".png") None).
  split; [reflexivity |]. split; [| split; reflexivity].
  unfold built_by_generate. cbn [record.exp record.latex record.answer record.file].
  split; [exists tape, pos, pos1; split; [reflexivity | exact Hgen] |].
  split; [exists math; split; [exact Hlatex | reflexivity] |].
  split; [exact Hsolve |]. split; reflexivity.
Qed.

(** ** Stored records stay as [generate] built them *)

Lemma records_built_unset (w : world num) (key : string) (tm : gmap nat (string * Z))
    (n : nat) (eff : list effect) :
  records_built md5 good w -> records_built md5 good (World (set_captcha (this w) key None) tm n eff).
Proof.
  intros Hw k r. cbn [this]. destruct (decide (key = k)) as [<- | Hne].
  - rewrite live_set_captcha. discriminate.
  - rewrite live_set_captcha_ne by exact Hne. apply Hw.
Qed.

Lemma records_built_cleanup (key : string) (w : world num) :
  records_built md5 good w -> records_built md5 good (cleanup key w).
Proof.
  intros Hw. unfold cleanup. destruct (live (this w) key) as [r |]; [| exact Hw].
  apply records_built_unset, Hw.
Qed.

Lemma records_built_fire (h : nat) (w : world num) :
  records_built md5 good w -> records_built md5 good (fire h w).
Proof.
  intros Hw. unfold fire. destruct (timers w !! h) as [[key d] |]; [| exact Hw].
  apply records_built_cleanup. exact Hw.
Qed.

Lemma records_built_fail (w : world num) (key : string) (e : error) :
  records_built md5 good w -> records_built md5 good (fst (fail w key e)).
Proof. intros Hw. apply records_built_unset, Hw. Qed.

Lemma records_built_dvipng_done (w : world num) (key : string) (err : option error) :
  records_built md5 good w -> records_built md5 good (fst (dvipng_done w key err)).
Proof.
  intros Hw. unfold dvipng_done. destruct err as [e |]; [apply records_built_fail, Hw |].
  destruct (live (this w) key) as [r |] eqn:Hlive; [| exact Hw].
  intros k r'. cbn [fst this]. destruct (decide (key = k)) as [<- | Hne].
  - rewrite live_set_captcha. intros Heq. injection Heq as <-. apply (Hw key r Hlive).
  - rewrite live_set_captcha_ne by exact Hne. apply Hw.
Qed.

Lemma records_built_dvipng_answered (w : world num) (key : string) (err : option error) :
  records_built md5 good w -> records_built md5 good (fst (dvipng_answered eager w key err)).
Proof.
  intros Hw. unfold dvipng_answered.
  destruct err as [e |]; [apply records_built_dvipng_done, Hw |].
  destruct (live (this w) key) as [r |] eqn:Hlive; [apply records_built_dvipng_done, Hw |].
  destruct eager; [exact Hw | apply records_built_dvipng_done, Hw].
Qed.

Lemma records_built_invoke (a : awaited) (err : option error) (w : world num) :
  records_built md5 good w -> records_built md5 good (fst (fst (invoke eager a err w))).
Proof.
  intros Hw. destruct a as [key file | key file | key]; cbn [invoke].
  - destruct err as [e |]; [apply records_built_fail, Hw | exact Hw].
  - destruct err as [e |]; [apply records_built_fail, Hw | exact Hw].
  - apply records_built_dvipng_answered, Hw.
Qed.

Lemma records_built_generate_begin (w w' : world num) (tape : nat -> Q) (pos pos' : nat)
    (key file : string) :
  good tape ->
  generate_begin md5 w tape pos = (Ok (w', key, file), pos') ->
  records_built md5 good w -> records_built md5 good w'.
Proof.
  intros Hgood Hbegin Hw.
  destruct (generate_begin_builds _ _ _ _ _ _ _ Hbegin) as (r & -> & Hr & _).
  intros k r'. cbn [this]. destruct (decide (key = k)) as [<- | Hne].
  - rewrite live_set_captcha. intros Heq. injection Heq as <-.
    destruct Hr as ((tape' & pos0 & pos1 & <- & Hgen) & Hrest).
    split; [exists tape, pos0, pos1; split; [exact Hgood | exact Hgen] | exact Hrest].
  - rewrite live_set_captcha_ne by exact Hne. apply Hw.
Qed.

Lemma records_built_step (ev : event) (s : system num) :
  draws good ev ->
  records_built md5 good (state s) -> records_built md5 good (state (step md5 eager ev s)).
Proof.
  intros Hgood Hs. destruct ev as [tape pos | key | h | i err]; cbn [step].
  - destruct (generate_begin md5 (state s) tape pos) as [[[[w' key] file] | e] pos'] eqn:Hbegin;
      [| exact Hs].
    cbn [state]. exact (records_built_generate_begin _ _ _ _ _ _ _ Hgood Hbegin Hs).
  - apply records_built_cleanup, Hs.
  - apply records_built_fire, Hs.
  - destruct (awaiting s !! i) as [a |]; [| exact Hs].
    pose proof (records_built_invoke a err (state s) Hs) as Hinv.
    destruct (invoke eager a err (state s)) as [[w' next] rep]. exact Hinv.
Qed.

Lemma records_built_run (evs : list event) :
  Forall (draws good) evs ->
  forall s : system num,
    records_built md5 good (state s) -> records_built md5 good (state (run md5 eager evs s)).
Proof.
  induction evs as [| ev evs IH]; intros Hgood s Hs; [exact Hs |].
  apply Forall_cons in Hgood as [Hev Hevs].
  cbn [run fold_left]. apply (IH Hevs), records_built_step; [exact Hev | exact Hs].
Qed.

(** ** Completed records keep their timers *)

Lemma timers_armed_unset (w : world num) (key : string) (eff : list effect) :
  timers_armed w ->
  timers_armed (World (set_captcha (this w) key None) (timers w) (next_timer w) eff).
Proof.
  intros [Harmed Hfresh]. split; [| exact Hfresh].
  intros k r h. cbn [this timers]. destruct (decide (key = k)) as [<- | Hne].
  - rewrite live_set_captcha. discriminate.
  - rewrite live_set_captcha_ne by exact Hne. apply Harmed.
Qed.

Lemma timers_armed_generate_begin (w w' : world num) (tape : nat -> Q) (pos pos' : nat)
    (key file : string) :
  generate_begin md5 w tape pos = (Ok (w', key, file), pos') ->
  timers_armed w -> timers_armed w'.
Proof.
  intros Hbegin [Harmed Hfresh].
  destruct (generate_begin_builds _ _ _ _ _ _ _ Hbegin) as (r & -> & _ & Hnone & _).
  split; [| exact Hfresh].
  intros k r' h. cbn [this timers]. destruct (decide (key = k)) as [<- | Hne].
  - rewrite live_set_captcha. intros Heq. injection Heq as <-. rewrite Hnone. discriminate.
  - rewrite live_set_captcha_ne by exact Hne. apply Harmed.
Qed.

(** Removing the record under [key] and any timers that are armed for
    [key]. *)
Lemma timers_armed_remove (w : world num) (key : string) (tm : gmap nat (string * Z))
    (eff : list effect) :
  timers_armed w ->
  (forall (h : nat) (kd : string * Z), tm !! h = Some kd -> timers w !! h = Some kd) ->
  (forall (h : nat) (kd : string * Z),
      timers w !! h = Some kd -> fst kd <> key -> tm !! h = Some kd) ->
  timers_armed (World (set_captcha (this w) key None) tm (next_timer w) eff).
Proof.
  intros [Harmed Hfresh] Hsub Hkeep. split.
  - intros k r h. cbn [this timers]. destruct (decide (key = k)) as [<- | Hne].
    + rewrite live_set_captcha. discriminate.
    + rewrite live_set_captcha_ne by exact Hne. intros Hlive Hh.
      apply Hkeep; [apply (Harmed k r h Hlive Hh) | cbn [fst]; congruence].
  - intros h kd Hh. cbn [timers next_timer] in *. apply (Hfresh h kd), Hsub, Hh.
Qed.

Lemma timers_armed_cleanup (key : string) (w : world num) :
  timers_armed w -> timers_armed (cleanup key w).
Proof.
  intros Hw. unfold cleanup. destruct (live (this w) key) as [r |] eqn:Hlive; [| exact Hw].
  destruct (record.handler r) as [h |] eqn:Hh; [| apply timers_armed_unset, Hw].
  apply timers_armed_remove; [exact Hw | |].
  - intros h' kd Hlook. apply lookup_delete_Some in Hlook. apply Hlook.
  - intros h' kd Hlook Hkey. apply lookup_delete_Some. split; [| exact Hlook].
    intros <-. destruct Hw as [Harmed _]. rewrite (Harmed key r h Hlive Hh) in Hlook.
    injection Hlook as <-. apply Hkey. reflexivity.
Qed.

Lemma timers_armed_fire (h : nat) (w : world num) :
  timers_armed w -> timers_armed (fire h w).
Proof.
  intros Hw. unfold fire. destruct (timers w !! h) as [[key d] |] eqn:Hh; [| exact Hw].
  unfold cleanup. cbn [this timers next_timer effects].
  destruct (live (this w) key) as [r |] eqn:Hlive.
  - apply timers_armed_remove; [exact Hw | |].
    + intros h' kd Hlook. destruct (record.handler r) as [h2 |].
      * apply lookup_delete_Some in Hlook as [_ Hlook].
        apply lookup_delete_Some in Hlook. apply Hlook.
      * apply lookup_delete_Some in Hlook. apply Hlook.
    + intros h' kd Hlook Hkey.
      assert (Hne : h <> h').
      { intros <-. rewrite Hh in Hlook. injection Hlook as <-. apply Hkey. reflexivity. }
      destruct (record.handler r) as [h2 |] eqn:Hh2.
      * apply lookup_delete_Some. split.
        -- intros <-. destruct Hw as [Harmed _]. rewrite (Harmed key r h2 Hlive Hh2) in Hlook.
           injection Hlook as <-. apply Hkey. reflexivity.
        -- apply lookup_delete_Some. split; [exact Hne | exact Hlook].
      * apply lookup_delete_Some. split; [exact Hne | exact Hlook].
  - destruct Hw as [Harmed Hfresh]. split.
    + intros k r h' Hk Hh'. cbn [this timers] in *.
      apply lookup_delete_Some. split; [| apply (Harmed k r h' Hk Hh')].
      intros <-. rewrite (Harmed k r h Hk Hh') in Hh. injection Hh as <- _. congruence.
    + intros h' kd Hlook. cbn [timers next_timer] in *.
      apply lookup_delete_Some in Hlook. apply (Hfresh h' kd), Hlook.
Qed.

Lemma timers_armed_fail (w : world num) (key : string) (e : error) :
  timers_armed w -> timers_armed (fst (fail w key e)).
Proof. intros Hw. apply timers_armed_unset, Hw. Qed.

(** Arming the next timer for [key]. *)
Lemma timers_armed_arm (w : world num) (key : string) (slot : option (record.t num)) :
  timers_armed w ->
  (forall r, slot = Some r -> record.handler r = Some (next_timer w)) ->
  timers_armed
    (World (set_captcha (this w) key slot)
       (<[next_timer w := (key, Options.cleanupTime (options (this w)) * 1000)]> (timers w))
       (S (next_timer w)) (effects w)).
Proof.
  intros [Harmed Hfresh] Hslot. split.
  - intros k r h. cbn [this timers]. destruct (decide (key = k)) as [<- | Hne].
    + rewrite live_set_captcha. intros Heq Hh. rewrite (Hslot r Heq) in Hh.
      injection Hh as <-. apply lookup_insert_eq.
    + rewrite live_set_captcha_ne by exact Hne. intros Hlive Hh.
      pose proof (Harmed k r h Hlive Hh) as Hlook.
      pose proof (Hfresh h _ Hlook) as Hlt.
      rewrite lookup_insert_ne by lia. exact Hlook.
  - intros h kd. cbn [timers next_timer]. destruct (decide (next_timer w = h)) as [<- | Hne].
    + intros _. lia.
    + rewrite lookup_insert_ne by exact Hne. intros Hlook.
      pose proof (Hfresh h kd Hlook). lia.
Qed.

Lemma timers_armed_dvipng_done (w : world num) (key : string) (err : option error) :
  timers_armed w -> timers_armed (fst (dvipng_done w key err)).
Proof.
  intros Hw. unfold dvipng_done. destruct err as [e |]; [apply timers_armed_fail, Hw |].
  destruct (live (this w) key) as [r |] eqn:Hlive; [| exact Hw].
  cbn [fst]. apply timers_armed_arm; [exact Hw |].
  intros r' Heq. injection Heq as <-. reflexivity.
Qed.

Lemma timers_armed_stray (w : world num) (key : string) :
  timers_armed w ->
  timers_armed
    (World (this w)
       (<[next_timer w := (key, Options.cleanupTime (options (this w)) * 1000)]> (timers w))
       (S (next_timer w)) (effects w)).
Proof.
  intros [Harmed Hfresh]. split.
  - intros k r h Hlive Hh. cbn [this timers] in *.
    pose proof (Harmed k r h Hlive Hh) as Hlook.
    pose proof (Hfresh h _ Hlook) as Hlt.
    rewrite lookup_insert_ne by lia. exact Hlook.
  - intros h kd. cbn [timers next_timer]. destruct (decide (next_timer w = h)) as [<- | Hne].
    + intros _. lia.
    + rewrite lookup_insert_ne by exact Hne. intros Hlook.
      pose proof (Hfresh h kd Hlook). lia.
Qed.

Lemma timers_armed_dvipng_answered (w : world num) (key : string) (err : option error) :
  timers_armed w -> timers_armed (fst (dvipng_answered eager w key err)).
Proof.
  intros Hw. unfold dvipng_answered.
  destruct err as [e |]; [apply timers_armed_dvipng_done, Hw |].
  destruct (live (this w) key) as [r |] eqn:Hlive; [apply timers_armed_dvipng_done, Hw |].
  destruct eager; [apply timers_armed_stray, Hw | apply timers_armed_dvipng_done, Hw].
Qed.

Lemma timers_armed_invoke (a : awaited) (err : option error) (w : world num) :
  timers_armed w -> timers_armed (fst (fst (invoke eager a err w))).
Proof.
  intros Hw. destruct a as [key file | key file | key]; cbn [invoke].
  - destruct err as [e |]; [apply timers_armed_fail, Hw | exact Hw].
  - destruct err as [e |]; [apply timers_armed_fail, Hw | exact Hw].
  - apply timers_armed_dvipng_answered, Hw.
Qed.

Lemma timers_armed_step (ev : event) (s : system num) :
  timers_armed (state s) -> timers_armed (state (step md5 eager ev s)).
Proof.
  intros Hs. destruct ev as [tape pos | key | h | i err]; cbn [step].
  - destruct (generate_begin md5 (state s) tape pos) as [[[[w' key] file] | e] pos'] eqn:Hbegin;
      [| exact Hs].
    cbn [state]. exact (timers_armed_generate_begin _ _ _ _ _ _ _ Hbegin Hs).
  - apply timers_armed_cleanup, Hs.
  - apply timers_armed_fire, Hs.
  - destruct (awaiting s !! i) as [a |]; [| exact Hs].
    pose proof (timers_armed_invoke a err (state s) Hs) as Hinv.
    destruct (invoke eager a err (state s)) as [[w' next] rep]. exact Hinv.
Qed.

Lemma timers_armed_run (evs : list event) :
  forall s : system num,
    timers_armed (state s) -> timers_armed (state (run md5 eager evs s)).
Proof.
  induction evs as [| ev evs IH]; intros s Hs; [exact Hs |].
  cbn [run fold_left]. apply IH, timers_armed_step, Hs.
Qed.

(** ** The configuration is never touched *)

Lemma cleanup_keeps_configuration (key : string) (w : world num) :
  configuration (this (cleanup key w)) = configuration (this w).
Proof. unfold cleanup. destruct (live (this w) key); reflexivity. Qed.

Lemma fire_keeps_configuration (h : nat) (w : world num) :
  configuration (this (fire h w)) = configuration (this w).
Proof.
  unfold fire. destruct (timers w !! h) as [[key d] |]; [| reflexivity].
  apply (cleanup_keeps_configuration key
           (World (this w) (delete h (timers w)) (next_timer w) (effects w))).
Qed.

Lemma invoke_keeps_configuration (a : awaited) (err : option error) (w : world num) :
  configuration (this (fst (fst (invoke eager a err w)))) = configuration (this w).
Proof.
  destruct a as [key file | key file | key]; cbn [invoke].
  - destruct err; reflexivity.
  - destruct err; reflexivity.
  - unfold dvipng_answered, dvipng_done.
    destruct err; [reflexivity |].
    destruct (live (this w) key); [reflexivity |].
    destruct eager; reflexivity.
Qed.

Lemma step_keeps_configuration (ev : event) (s : system num) :
  configuration (this (state (step md5 eager ev s))) = configuration (this (state s)).
Proof.
  destruct ev as [tape pos | key | h | i err]; cbn [step].
  - destruct (generate_begin md5 (state s) tape pos) as [[[[w' key] file] | e] pos'] eqn:Hbegin;
      [| reflexivity].
    destruct (generate_begin_builds _ _ _ _ _ _ _ Hbegin) as (r & -> & _). reflexivity.
  - apply cleanup_keeps_configuration.
  - apply fire_keeps_configuration.
  - destruct (awaiting s !! i) as [a |]; [| reflexivity].
    pose proof (invoke_keeps_configuration a err (state s)) as Hinv.
    destruct (invoke eager a err (state s)) as [[w' next] rep]. exact Hinv.
Qed.

Lemma run_keeps_configuration (evs : list event) :
  forall s : system num,
    configuration (this (state (run md5 eager evs s))) = configuration (this (state s)).
Proof.
  induction evs as [| ev evs IH]; intros s; [reflexivity |].
  change (run md5 eager (ev :: evs) s) with (run md5 eager evs (step md5 eager ev s)).
  rewrite (IH (step md5 eager ev s)). apply step_keeps_configuration.
Qed.

Lemma run_keeps_options (evs : list event) (s : system num) :
  options (this (state (run md5 eager evs s))) = options (this (state s))
  /\ operators (this (state (run md5 eager evs s))) = operators (this (state s)).
Proof.
  pose proof (run_keeps_configuration evs s) as Hcfg. unfold configuration in Hcfg.
  injection Hcfg as Hopts _ _ Hops. split; assumption.
Qed.

(** X7. Whatever calls of [generate] and [cleanup] are made, whatever
    timers go off and in whatever order and with whatever outcome the
    callbacks in flight are invoked: every record the manager holds is as
    [generate] built it.  Its expression is one [generateExpression]
    returns for the registry and the options (from [good] draws, if the
    draws of all calls are [good]), its key is the digest of the document
    of that expression's markup, [getImage] names the image after the
    key, and [check] compares with the value [solve] gives for that
    expression. *)
Theorem stored_records_are_as_generated (s : system num) (evs : list event) :
  Forall (draws good) evs ->
  records_built md5 good (state s) ->
  let m := this (state s) in
  let m' := this (state (run md5 eager evs s)) in
  forall (key : string) (r : record.t num),
    live m' key = Some r ->
    exists (exp : list (token num)) (math : string) (v : value num),
      (exists (tape : nat -> Q) (pos pos' : nat),
          good tape /\
          generateExpression (operators m) (Options.minOps (options m))
            (Options.maxOps (options m)) (Options.values (options m)) tape pos
          = (Ok exp, pos'))
      /\ latex exp = Some math /\ solve exp = Some v
      /\ key = md5 (wrapLatex math)
      /\ getImage m' key = Some ((Options.path (options m) +:+ "/" +:+ key) +:+ ".png")
      /\ forall answer places : value num,
           check m' key answer places
           = num_eqb (round (mul (to_number answer) (pow (of_N 10) (to_number places))))
                     (round (mul (to_number v) (pow (of_N 10) (to_number places)))).
Proof.
  intros Hgood Hs m m' key r Hlive.
  destruct (records_built_run evs Hgood s Hs key r Hlive)
    as (Hgen & (math & Hmath & Hdoc) & Hsolve & Hkey & Hfile).
  destruct (run_keeps_options evs s) as [Hopts Hops].
  fold m' in Hgen, Hfile. fold m m' in Hopts, Hops.
  rewrite Hopts in Hgen, Hfile. rewrite Hops in Hgen.
  exists (record.exp r), math, (record.answer r).
  split; [exact Hgen |]. split; [exact Hmath |]. split; [exact Hsolve |].
  split; [rewrite <- Hdoc; exact Hkey |].
  unfold getImage, check. rewrite Hlive, Hfile. split; reflexivity.
Qed.

(** What a timer going off leaves of its key. *)
Lemma fire_forgets (w : world num) (h : nat) (key : string) (d : Z) :
  timers w !! h = Some (key, d) ->
  live (this (fire h w)) key = None
  /\ timers (fire h w) !! h = None
  /\ (forall (r : record.t num) (h' : nat),
        live (this w) key = Some r -> record.handler r = Some h' ->
        timers (fire h w) !! h' = None).
Proof.
  intros Hh. unfold fire. rewrite Hh. unfold cleanup. cbn [this timers next_timer effects].
  destruct (live (this w) key) as [r |] eqn:Hlive.
  - cbn [this timers]. split; [apply live_set_captcha |]. split.
    + destruct (record.handler r) as [h2 |].
      * apply lookup_delete_None. right. apply lookup_delete_eq.
      * apply lookup_delete_eq.
    + intros r' h' Heq Hh'. injection Heq as <-. rewrite Hh'. apply lookup_delete_eq.
  - cbn [this timers]. split; [exact Hlive |]. split; [apply lookup_delete_eq | discriminate].
Qed.

(** X8. Whatever the calls, timers and callbacks, in any order: every
    record whose pipeline has completed (its [handler] is set) has its
    timer armed, for its own key and [cleanupTime * 1000] milliseconds;
    when that timer goes off the key is forgotten and the timer is spent.
    No captcha that was reported ready stays in the manager for ever. *)
Theorem completed_records_expire (s : system num) (evs : list event) :
  timers_armed (state s) ->
  let s' := run md5 eager evs s in
  forall (key : string) (r : record.t num) (h : nat),
    live (this (state s')) key = Some r -> record.handler r = Some h ->
    timers (state s') !! h
    = Some (key, Options.cleanupTime (options (this (state s))) * 1000)
    /\ (h < next_timer (state s'))%nat
    /\ let s'' := step md5 eager (Expire h) s' in
       live (this (state s'')) key = None
       /\ getImage (this (state s'')) key = None
       /\ (forall answer places : value num,
             check (this (state s'')) key answer places = false)
       /\ timers (state s'') !! h = None.
Proof.
  intros Hs s' key r h Hlive Hh.
  destruct (timers_armed_run evs s Hs) as [Harmed Hfresh]. fold s' in Harmed, Hfresh.
  pose proof (Harmed key r h Hlive Hh) as Hlook.
  destruct (run_keeps_options evs s) as [Hopts _]. fold s' in Hopts.
  split; [rewrite <- Hopts; exact Hlook |]. split; [exact (Hfresh h _ Hlook) |].
  cbn [step state].
  destruct (fire_forgets (state s') h key _ Hlook) as (Hgone & Hspent & _).
  split; [exact Hgone |]. split; [apply getImage_not_live, Hgone |].
  split; [intros answer places; apply check_not_live, Hgone | exact Hspent].
Qed.

(** ** One call of [generate] and its callbacks, uninterrupted *)

(** Invoking the callback handed over last. *)
Lemma step_answer_last (s : system num) (l : list awaited) (a : awaited) (err : option error) :
  awaiting s = l ++ [a] ->
  step md5 eager (Answer (length l) err) s
  = System (fst (fst (invoke eager a err (state s))))
      (l ++ option_list (snd (fst (invoke eager a err (state s)))))
      (reported s ++ option_list (snd (invoke eager a err (state s)))).
Proof.
  intros Hl. cbn [step]. rewrite Hl.
  rewrite lookup_app_r by lia. rewrite Nat.sub_diag. cbn [lookup list_lookup].
  destruct (invoke eager a err (state s)) as [[w' next] rep]. cbn [fst snd].
  rewrite take_app_length, drop_ge by (rewrite length_app; simpl; lia).
  rewrite app_nil_r. reflexivity.
Qed.

Lemma step_answer_none (s : system num) (err : option error) :
  step md5 eager (Answer (length (awaiting s)) err) s = s.
Proof.
  cbn [step]. rewrite (lookup_ge_None_2 (awaiting s) (length (awaiting s))) by lia. reflexivity.
Qed.

(** With a live record, the rasterizer's callback is [dvipng_done]. *)
Lemma dvipng_answered_live (w : world num) (key : string) (err : option error)
    (r : record.t num) :
  live (this w) key = Some r -> dvipng_answered eager w key err = dvipng_done w key err.
Proof. intros Hlive. unfold dvipng_answered. rewrite Hlive. destruct err; reflexivity. Qed.

(** A [generate] call followed at once by its three callbacks. *)
Lemma run_generate_answers (s : system num) (st : stages) (tape : nat -> Q) (pos pos' : nat)
    (w1 : world num) (key file : string) :
  generate_begin md5 (state s) tape pos = (Ok (w1, key, file), pos') ->
  let n := length (awaiting s) in
  run md5 eager [CallGenerate tape pos; Answer n (write_err st); Answer n (tex_err st);
                 Answer n (dvipng_err st)] s
  = System (fst (write_done w1 key file (write_err st) st)) (awaiting s)
      (reported s ++ [snd (write_done w1 key file (write_err st) st)]).
Proof.
  intros Hbegin n. cbn [run fold_left].
  assert (Hcall : step md5 eager (CallGenerate tape pos) s
                  = System w1 (awaiting s ++ [WriteCallback key file]) (reported s))
    by (cbn [step]; rewrite Hbegin; reflexivity).
  rewrite Hcall. clear Hcall.
  destruct (generate_begin_builds _ _ _ _ _ _ _ Hbegin) as (r & Hw1 & _).
  assert (Hlive : live (this w1) key = Some r) by (rewrite Hw1; apply live_set_captcha).
  unfold n.
  rewrite (step_answer_last (System w1 (awaiting s ++ [WriteCallback key file]) (reported s))
             (awaiting s) (WriteCallback key file) (write_err st) eq_refl).
  cbn [state reported invoke]. unfold write_done.
  destruct (write_err st) as [e |].
  { cbn [fst snd option_list]. rewrite app_nil_r.
    match goal with |- step _ _ _ (step _ _ _ ?s0) = _ =>
      change (length (awaiting s)) with (length (awaiting s0));
      rewrite (step_answer_none s0), (step_answer_none s0) end.
    reflexivity. }
  cbn [fst snd option_list]. rewrite app_nil_r.
  match goal with |- step _ _ _ (step _ _ _ ?s0) = _ =>
    rewrite (step_answer_last s0 (awaiting s) (TexCallback key file) (tex_err st) eq_refl) end.
  cbn [state reported invoke]. unfold tex_done.
  destruct (tex_err st) as [e |].
  { cbn [fst snd option_list this timers next_timer effects]. rewrite !app_nil_r.
    match goal with |- step _ _ _ ?s0 = _ =>
      change (length (awaiting s)) with (length (awaiting s0));
      rewrite (step_answer_none s0) end.
    reflexivity. }
  cbn [fst snd option_list this timers next_timer effects]. rewrite app_nil_r.
  match goal with |- step _ _ _ ?s0 = _ =>
    rewrite (step_answer_last s0 (awaiting s) (DvipngCallback key) (dvipng_err st) eq_refl) end.
  cbn [state reported invoke].
  rewrite (dvipng_answered_live _ key (dvipng_err st) r) by exact Hlive.
  cbn [fst snd option_list]. rewrite !app_nil_r. reflexivity.
Qed.

(** X9. A run of [generate] as the claims take it, with nothing else
    happening between the call and its callbacks, is one path of the
    manager under arbitrary interleaving: the [generate] call followed at
    once by the callback of each stage, whatever other callbacks are in
    flight at the time and on either kind of engine.  The world and the
    report are those of [generate], and the other callbacks are still in
    flight. *)
Theorem generate_is_an_uninterrupted_run (s : system num) (st : stages) (tape : nat -> Q)
    (pos pos' : nat) (w1 : world num) (key file : string) :
  generate_begin md5 (state s) tape pos = (Ok (w1, key, file), pos') ->
  let n := length (awaiting s) in
  let s' := run md5 eager [CallGenerate tape pos; Answer n (write_err st);
                           Answer n (tex_err st); Answer n (dvipng_err st)] s in
  exists (w2 : world num) (rep : report),
    generate md5 (state s) st tape pos = (Ok (w2, rep), pos')
    /\ state s' = w2 /\ reported s' = reported s ++ [rep] /\ awaiting s' = awaiting s.
Proof.
  intros Hbegin n s'. unfold s', n. rewrite (run_generate_answers s st _ _ _ _ _ _ Hbegin).
  unfold generate, bind. rewrite Hbegin. unfold ret.
  eexists _, _. split; [apply injective_projections; [| reflexivity]; cbn [fst];
                        f_equal; apply surjective_pairing |].
  repeat split; reflexivity.
Qed.

(** X10. A timer acts on its key, not on the record it was armed for.
    When [generate] draws a key that still has a timer armed from an
    earlier captcha and its pipeline completes, the new record gets a
    timer of its own; but when the earlier timer goes off, the new
    record is removed and its own timer cancelled: the new captcha
    lives shorter than [cleanupTime]. *)
Theorem stale_timer_expires_a_regenerated_captcha (s : system num) (h : nat) (key : string)
    (d : Z) (tape : nat -> Q) (pos pos' : nat) (w1 : world num) (file : string) :
  timers_armed (state s) ->
  timers (state s) !! h = Some (key, d) ->
  generate_begin md5 (state s) tape pos = (Ok (w1, key, file), pos') ->
  let n := length (awaiting s) in
  let h' := next_timer (state s) in
  let s1 := run md5 eager [CallGenerate tape pos; Answer n None; Answer n None; Answer n None] s in
  let s2 := step md5 eager (Expire h) s1 in
  reported s1 = reported s ++ [Success key]
  /\ (exists r : record.t num,
        live (this (state s1)) key = Some r /\ record.handler r = Some h')
  /\ h <> h'
  /\ timers (state s1) !! h' = Some (key, Options.cleanupTime (options (this (state s))) * 1000)
  /\ timers (state s1) !! h = Some (key, d)
  /\ live (this (state s2)) key = None
  /\ getImage (this (state s2)) key = None
  /\ timers (state s2) !! h' = None.
Proof.
  intros [_ Hfresh] Hh Hbegin n h' s1 s2.
  assert (Hne : h <> h') by (pose proof (Hfresh h _ Hh); unfold h'; lia).
  assert (Hs1 : s1 = System (fst (write_done w1 key file None (Stages None None None)))
                       (awaiting s)
                       (reported s ++ [snd (write_done w1 key file None (Stages None None None))]))
    by exact (run_generate_answers s (Stages None None None) _ _ _ _ _ _ Hbegin).
  destruct (generate_begin_builds _ _ _ _ _ _ _ Hbegin) as (r & Hw1 & _).
  unfold write_done, tex_done, dvipng_done in Hs1. cbn [tex_err dvipng_err] in Hs1.
  rewrite Hw1 in Hs1. cbn [this timers next_timer effects] in Hs1.
  rewrite live_set_captcha in Hs1. cbn [fst snd] in Hs1.
  assert (Hlive1 : exists r1 : record.t num,
             live (this (state s1)) key = Some r1 /\ record.handler r1 = Some h').
  { rewrite Hs1. cbn [state this]. rewrite live_set_captcha.
    eexists. split; reflexivity. }
  assert (Hh' : timers (state s1) !! h'
                = Some (key, Options.cleanupTime (options (this (state s))) * 1000)).
  { rewrite Hs1. cbn [state timers]. apply lookup_insert_eq. }
  assert (Hh1 : timers (state s1) !! h = Some (key, d)).
  { rewrite Hs1. cbn [state timers]. rewrite lookup_insert_ne by (intros Heq; apply Hne; symmetry; exact Heq). exact Hh. }
  split; [rewrite Hs1; reflexivity |]. split; [exact Hlive1 |]. split; [exact Hne |].
  split; [exact Hh' |]. split; [exact Hh1 |].
  destruct Hlive1 as (r1 & Hr1 & Hhandler).
  destruct (fire_forgets (state s1) h key d Hh1) as (Hgone & _ & Hcancelled).
  unfold s2. cbn [step state].
  split; [exact Hgone |]. split; [apply getImage_not_live, Hgone |].
  apply (Hcancelled r1 h' Hr1 Hhandler).
Qed.


(** ** One key at a time *)

Lemma cleanup_other_keys (key k : string) (w : world num) :
  k <> key -> live (this (cleanup key w)) k = live (this w) k.
Proof.
  intros Hne. unfold cleanup. destruct (live (this w) key); [| reflexivity].
  cbn [this]. apply live_set_captcha_ne. congruence.
Qed.

Lemma invoke_other_keys (a : awaited) (err : option error) (w : world num) (k : string) :
  k <> key_of a -> live (this (fst (fst (invoke eager a err w)))) k = live (this w) k.
Proof.
  intros Hne. destruct a as [key file | key file | key]; cbn [invoke key_of] in *.
  - destruct err; [| reflexivity]. cbn [fst fail this]. apply live_set_captcha_ne. congruence.
  - destruct err; [| reflexivity]. cbn [fst fail this]. apply live_set_captcha_ne. congruence.
  - unfold dvipng_answered, dvipng_done.
    destruct err; [cbn [fst fail this]; apply live_set_captcha_ne; congruence |].
    destruct (live (this w) key); [cbn [fst this]; apply live_set_captcha_ne; congruence |].
    destruct eager; reflexivity.
Qed.

(** X12. Every event concerns one key: a call, a timer or a callback
    changes the record of no other key, and for every other key
    [getImage] and [check] answer as before. *)
Theorem an_event_changes_one_key_at_most (ev : event) (s : system num) (k : string) :
  concerned md5 ev s <> Some k ->
  let m := this (state s) in
  let m' := this (state (step md5 eager ev s)) in
  live m' k = live m k
  /\ getImage m' k = getImage m k
  /\ forall answer places : value num, check m' k answer places = check m k answer places.
Proof.
  intros Hne m m'.
  assert (Hlive : live m' k = live m k).
  { unfold m', m. destruct ev as [tape pos | key | h | i err]; cbn [step concerned] in *.
    - destruct (generate_begin md5 (state s) tape pos) as [[[[w' key] file] | e] pos'] eqn:Hbegin;
        [| reflexivity].
      cbn [state]. destruct (generate_begin_builds _ _ _ _ _ _ _ Hbegin) as (r & -> & _).
      cbn [this]. apply live_set_captcha_ne. congruence.
    - cbn [state]. apply cleanup_other_keys. congruence.
    - cbn [state]. unfold fire. destruct (timers (state s) !! h) as [[key d] |]; [| reflexivity].
      cbn [fmap option_fmap option_map fst] in Hne.
      rewrite cleanup_other_keys by congruence. reflexivity.
    - destruct (awaiting s !! i) as [a |]; [| reflexivity].
      cbn [fmap option_fmap option_map] in Hne.
      pose proof (invoke_other_keys a err (state s) k ltac:(congruence)) as Hinv.
      destruct (invoke eager a err (state s)) as [[w' next] rep]. exact Hinv. }
  unfold getImage, check. rewrite Hlive. repeat split; reflexivity.
Qed.

End InterleavingFacts.

(** ** The interleaved manager on concrete inputs *)

Lemma fresh_world_records_built (good : (nat -> Q) -> Prop) :
  records_built digest good (fresh_world (num := qnum)).
Proof. intros key r Hlive. discriminate Hlive. Qed.

Lemma half_tape_valid : valid_tape half_tape.
Proof. intros i. split; [discriminate | reflexivity]. Qed.

Lemma one_captcha_draws : Forall (draws valid_tape) one_captcha.
Proof.
  apply Forall_cons_2; [exact half_tape_valid |].
  repeat (apply Forall_cons_2; [exact I |]). apply Forall_nil_2.
Qed.

Lemma fresh_world_timers_armed : timers_armed (fresh_world (num := qnum)).
Proof.
  split.
  - intros key r h Hlive. discriminate Hlive.
  - intros h kd Hlook. discriminate Hlook.
Qed.

Lemma one_captcha_on_fresh_world (eager : bool) :
  run digest eager one_captcha (System (fresh_world (num := qnum)) [] [])
  = System ready_world [] [Success drawn_key].
Proof. destruct eager; vm_compute; reflexivity. Qed.

Lemma ready_world_live :
  live (this (ready_world (num := qnum))) drawn_key = Some (drawn_record (Some 0%nat)).
Proof. apply live_set_captcha. Qed.

Lemma ready_world_timers_armed : timers_armed (ready_world (num := qnum)).
Proof.
  pose proof (timers_armed_run digest true one_captcha (System fresh_world [] [])
                fresh_world_timers_armed) as Harmed.
  rewrite one_captcha_on_fresh_world in Harmed. exact Harmed.
Qed.

Lemma generate_begin_ready :
  captcha.generate_begin digest (ready_world (num := qnum)) half_tape 0%nat
  = (Ok (restarted_world, drawn_key, drawn_file), 10%nat).
Proof. vm_compute. reflexivity. Qed.

(** X7 on [fresh_world] after one captcha has been generated. *)
Lemma stored_records_are_as_generated_witness :
  Forall (draws valid_tape) one_captcha
  /\ records_built digest valid_tape (fresh_world (num := qnum))
  /\ live (this (state (run digest true one_captcha (System (fresh_world (num := qnum)) [] []))))
       drawn_key = Some (drawn_record (Some 0%nat))
  /\ exists (exp : list (token qnum)) (math : string) (v : value qnum),
       captcha.latex exp = Some math /\ captcha.solve exp = Some v
       /\ drawn_key = digest (captcha.wrapLatex math)
       /\ captcha.getImage
            (this (state (run digest true one_captcha (System (fresh_world (num := qnum)) [] []))))
            drawn_key
          = Some (("/tmp/math-captcha" +:+ "/" +:+ drawn_key) +:+ ".png").
Proof.
  assert (Hlive : live (this (state (run digest true one_captcha
                                       (System (fresh_world (num := qnum)) [] []))))
                    drawn_key = Some (drawn_record (Some 0%nat))).
  { rewrite one_captcha_on_fresh_world. exact ready_world_live. }
  split; [exact one_captcha_draws |].
  split; [exact (fresh_world_records_built valid_tape) |]. split; [exact Hlive |].
  destruct (stored_records_are_as_generated digest true valid_tape (System fresh_world [] [])
              one_captcha one_captcha_draws (fresh_world_records_built valid_tape)
              drawn_key _ Hlive)
    as (exp & math & v & _ & Hmath & Hsolve & Hkey & Himage & _).
  exists exp, math, v. repeat split; assumption.
Defined.

(** X8 on [fresh_world] after one captcha has been generated: timer 0
    is armed for ten minutes, and removes the record when it goes off. *)
Lemma completed_records_expire_witness :
  timers_armed (fresh_world (num := qnum))
  /\ live (this (state (run digest false one_captcha (System (fresh_world (num := qnum)) [] []))))
       drawn_key = Some (drawn_record (Some 0%nat))
  /\ record.handler (drawn_record (num := qnum) (Some 0%nat)) = Some 0%nat
  /\ timers (state (run digest false one_captcha (System (fresh_world (num := qnum)) [] [])))
       !! 0%nat = Some (drawn_key, 600 * 1000)
  /\ captcha.getImage
       (this (state (step digest false (Expire 0)
                       (run digest false one_captcha (System (fresh_world (num := qnum)) [] [])))))
       drawn_key = None.
Proof.
  assert (Hlive : live (this (state (run digest false one_captcha
                                       (System (fresh_world (num := qnum)) [] []))))
                    drawn_key = Some (drawn_record (Some 0%nat))).
  { rewrite one_captcha_on_fresh_world. exact ready_world_live. }
  split; [exact fresh_world_timers_armed |]. split; [exact Hlive |]. split; [reflexivity |].
  destruct (completed_records_expire digest false (System fresh_world [] []) one_captcha
              fresh_world_timers_armed drawn_key _ 0%nat Hlive eq_refl)
    as (Harmed & _ & _ & Himage & _).
  split; [exact Harmed | exact Himage].
Defined.

(** X9 on [fresh_world], all stages succeeding. *)
Lemma generate_is_an_uninterrupted_run_witness :
  captcha.generate_begin digest (fresh_world (num := qnum)) half_tape 0%nat
  = (Ok (pending_world, drawn_key, drawn_file), 10%nat)
  /\ exists (w2 : world qnum) (rep : report),
       captcha.generate digest fresh_world (Stages None None None) half_tape 0%nat
       = (Ok (w2, rep), 10%nat)
       /\ state (run digest true one_captcha (System fresh_world [] [])) = w2
       /\ reported (run digest true one_captcha (System (fresh_world (num := qnum)) [] []))
          = [] ++ [rep].
Proof.
  split; [exact generate_begin_fresh |].
  destruct (generate_is_an_uninterrupted_run digest true (System fresh_world [] [])
              (Stages None None None) half_tape 0%nat 10%nat pending_world drawn_key drawn_file
              generate_begin_fresh) as (w2 & rep & Hgen & Hstate & Hrep & _).
  exists w2, rep. split; [exact Hgen |]. split; [exact Hstate | exact Hrep].
Defined.

(** X10 on [ready_world]: the same expression is drawn again, its
    pipeline completes and arms timer 1; timer 0, armed for the first
    captcha, then removes the second. *)
Lemma stale_timer_expires_a_regenerated_captcha_witness :
  timers_armed (ready_world (num := qnum))
  /\ timers (ready_world (num := qnum)) !! 0%nat = Some (drawn_key, 600000)
  /\ captcha.generate_begin digest (ready_world (num := qnum)) half_tape 0%nat
     = (Ok (restarted_world, drawn_key, drawn_file), 10%nat)
  /\ timers (state (run digest true one_captcha (System (ready_world (num := qnum)) [] [])))
       !! 1%nat = Some (drawn_key, 600 * 1000)
  /\ captcha.getImage
       (this (state (step digest true (Expire 0)
                       (run digest true one_captcha (System (ready_world (num := qnum)) [] [])))))
       drawn_key = None
  /\ timers (state (step digest true (Expire 0)
                      (run digest true one_captcha (System (ready_world (num := qnum)) [] []))))
       !! 1%nat = None.
Proof.
  assert (Hh : timers (ready_world (num := qnum)) !! 0%nat = Some (drawn_key, 600000))
    by apply lookup_singleton_eq.
  split; [exact ready_world_timers_armed |]. split; [exact Hh |].
  split; [exact generate_begin_ready |].
  destruct (stale_timer_expires_a_regenerated_captcha digest true (System ready_world [] [])
              0%nat drawn_key 600000 half_tape 0%nat 10%nat restarted_world drawn_file
              ready_world_timers_armed Hh generate_begin_ready)
    as (_ & _ & _ & Harmed & _ & _ & Himage & Hcancelled).
  split; [exact Harmed |]. split; [exact Himage | exact Hcancelled].
Defined.


(** X12 on [ready_world]: [cleanup] of another key leaves the captcha
    in place. *)
Lemma an_event_changes_one_key_at_most_witness :
  concerned digest (CallCleanup "other") (System (ready_world (num := qnum)) [] [])
  <> Some drawn_key
  /\ captcha.getImage
       (this (state (step digest true (CallCleanup "other")
                       (System (ready_world (num := qnum)) [] []))))
       drawn_key
     = captcha.getImage (this (ready_world (num := qnum))) drawn_key.
Proof.
  assert (Hne : concerned digest (CallCleanup "other") (System (ready_world (num := qnum)) [] [])
                <> Some drawn_key) by (vm_compute; discriminate).
  split; [exact Hne |].
  destruct (an_event_changes_one_key_at_most digest true (CallCleanup "other")
              (System (ready_world (num := qnum)) [] []) drawn_key Hne) as (_ & Himage & _).
  exact Himage.
Defined.

Section DocumentFacts.
Context {num : Type} `{JSNumber num}.
Import captcha.

Lemma append_inv_head (p a b : string) : p +:+ a = p +:+ b -> a = b.
Proof.
  induction p as [| c p IH]; [intros Heq; exact Heq |].
  rewrite !append_cons. intros Heq. injection Heq as Heq. apply IH, Heq.
Qed.

Lemma length_append (a b : string) :
  String.length (a +:+ b) = (String.length a + String.length b)%nat.
Proof.
  induction a as [| c a IH]; [reflexivity |].
  rewrite append_cons. cbn [String.length]. rewrite IH. reflexivity.
Qed.

Lemma append_inv_tail (s a b : string) : a +:+ s = b +:+ s -> a = b.
Proof.
  revert b. induction a as [| c a IH]; intros b Heq.
  - destruct b as [| d b]; [reflexivity |].
    apply (f_equal String.length) in Heq. rewrite !length_append in Heq.
    cbn [String.length] in Heq. lia.
  - destruct b as [| d b].
    + apply (f_equal String.length) in Heq. rewrite !length_append in Heq.
      cbn [String.length] in Heq. lia.
    + rewrite !append_cons in Heq. injection Heq as -> Heq. f_equal. apply IH, Heq.
Qed.

(** X13. [wrapLatex] puts the markup, unchanged, at a fixed place of a
    fixed document: different markup gives different documents, and the
    document is 142 characters longer than the markup.  With a digest
    that has no collisions, different markup gives different keys. *)
Theorem wrapLatex_is_injective (a b : string) :
  (wrapLatex a = wrapLatex b -> a = b)
  /\ String.length (wrapLatex a) = (String.length a + 142)%nat
  /\ forall md5 : string -> string,
       (forall x y : string, md5 x = md5 y -> x = y) ->
       md5 (wrapLatex a) = md5 (wrapLatex b) -> a = b.
Proof.
  assert (Hinj : wrapLatex a = wrapLatex b -> a = b).
  { unfold wrapLatex. intros Heq.
    repeat (apply append_inv_head in Heq). apply append_inv_tail in Heq. exact Heq. }
  split; [exact Hinj |]. split.
  - unfold wrapLatex. rewrite !length_append. cbn [String.length newline]. lia.
  - intros md5 Hmd5 Heq. apply Hinj, Hmd5, Heq.
Qed.

Lemma space_free_append (a b : string) :
  space_free (a +:+ b) = space_free a && space_free b.
Proof.
  induction a as [| x a IH]; [reflexivity |].
  rewrite append_cons. cbn [space_free]. rewrite IH, andb_assoc. reflexivity.
Qed.

(** X14. The command [cleanup] hands to the shell is ['rm '] followed by
    the five file names joined by commas, not by spaces: when the path
    and the key hold no space, what follows ['rm '] holds no space
    either, so it is a single operand, and it is none of the five file
    names. *)
Theorem cleanup_joins_the_names_with_commas (key : string) (w : world num) (r : record.t num) :
  live (this w) key = Some r ->
  space_free (Options.path (options (this w))) = true -> space_free key = true ->
  exists operand : string,
    effects (cleanup key w) = effects w ++ [Exec ("rm " +:+ operand)]
    /\ operand = join_comma (cleanup_names (Options.path (options (this w))) key)
    /\ space_free operand = true
    /\ forall name : string,
         name ∈ cleanup_names (Options.path (options (this w))) key -> operand <> name.
Proof.
  intros Hlive Hpath Hkey.
  exists (join_comma (cleanup_names (Options.path (options (this w))) key)).
  split; [unfold cleanup; rewrite Hlive; reflexivity |]. split; [reflexivity |].
  unfold cleanup_names. cbn [map join_comma]. split.
  - rewrite !space_free_append, Hpath, Hkey. reflexivity.
  - intros name Hin Heq. apply (f_equal String.length) in Heq.
    rewrite !elem_of_cons, elem_of_nil in Hin.
    destruct Hin as [-> | [-> | [-> | [-> | [-> | []]]]]];
      rewrite !length_append in Heq; cbn [String.length] in Heq; lia.
Qed.

End DocumentFacts.

(** X13 on one markup written in two ways, and the identity as a
    digest without collisions. *)
Lemma wrapLatex_is_injective_witness :
  captcha.wrapLatex "1 + 2" = captcha.wrapLatex ("1 +" +:+ " 2")
  /\ (forall x y : string, id x = id y -> x = y)
  /\ id (captcha.wrapLatex "1 + 2") = id (captcha.wrapLatex ("1 +" +:+ " 2"))
  /\ "1 + 2" = "1 +" +:+ " 2".
Proof.
  assert (Hid : forall x y : string, id x = id y -> x = y) by (intros x y Heq; exact Heq).
  split; [reflexivity |]. split; [exact Hid |]. split; [reflexivity |].
  destruct (wrapLatex_is_injective "1 + 2" ("1 +" +:+ " 2")) as (Hinj & _ & Hkeys).
  exact (Hkeys id Hid eq_refl).
Defined.

(** X14 on the record of [ready_world]. *)
Lemma cleanup_joins_the_names_with_commas_witness :
  live (this (ready_world (num := qnum))) drawn_key = Some (drawn_record (Some 0%nat))
  /\ space_free "/tmp/math-captcha" = true /\ space_free drawn_key = true
  /\ exists operand : string,
       effects (captcha.cleanup drawn_key (ready_world (num := qnum)))
       = effects (ready_world (num := qnum)) ++ [Exec ("rm " +:+ operand)]
       /\ space_free operand = true.
Proof.
  split; [exact ready_world_live |]. split; [reflexivity |]. split; [reflexivity |].
  destruct (cleanup_joins_the_names_with_commas drawn_key (ready_world (num := qnum)) _
              ready_world_live eq_refl eq_refl) as (operand & Heff & _ & Hfree & _).
  exists operand. split; [exact Heff | exact Hfree].
Defined.

(** ** Patterns *)

Section PatternFacts.
Context {R : Type}.

Lemma greedy_spent (p : ascii -> bool) (s : string) (k : string -> option R) :
  greedy p 0 (Some 0%nat) s k = k s.
Proof. destruct s; reflexivity. Qed.

Lemma one_fails (p : ascii -> bool) (r : regex) (c : ascii) (s : string) (caps : list string)
    (k : string -> list string -> option R) :
  p c = false -> regex_run (Cat (one p) r) (String c s) caps k = None.
Proof. intros Hp. cbn. rewrite Hp. reflexivity. Qed.

Lemma one_fails_at_end (p : ascii -> bool) (r : regex) (caps : list string)
    (k : string -> list string -> option R) :
  regex_run (Cat (one p) r) EmptyString caps k = None.
Proof. reflexivity. Qed.

Lemma one_succeeds (p : ascii -> bool) (r : regex) (c : ascii) (s : string) (caps : list string)
    (k : string -> list string -> option R) :
  p c = true -> regex_run (Cat (one p) r) (String c s) caps k = regex_run r s caps k.
Proof.
  intros Hp. cbn [regex_run one greedy Nat.pred fmap option_fmap option_map]. rewrite Hp.
  rewrite greedy_spent. destruct (regex_run r s caps k); reflexivity.
Qed.

Lemma one_succeeds_last (p : ascii -> bool) (c : ascii) (s : string) (caps : list string)
    (k : string -> list string -> option R) :
  p c = true -> regex_run (one p) (String c s) caps k = k s caps.
Proof.
  intros Hp. cbn [regex_run one greedy Nat.pred fmap option_fmap option_map]. rewrite Hp.
  rewrite greedy_spent. destruct (k s caps); reflexivity.
Qed.

End PatternFacts.

(** A pattern that starts with a character no character of the string
    is does not match. *)
Lemma js_match_never (p : ascii -> bool) (r : regex) (s : string) :
  all_chars (fun c => negb (p c)) s = true -> js_match (Cat (one p) r) s = None.
Proof.
  induction s as [| c s IH]; [reflexivity |].
  cbn [all_chars]. intros Hall. apply andb_prop in Hall as [Hc Hs].
  cbn [js_match]. rewrite one_fails by (apply negb_true_iff, Hc). apply IH, Hs.
Qed.

Lemma all_chars_append (p : ascii -> bool) (a b : string) :
  all_chars p (a +:+ b) = all_chars p a && all_chars p b.
Proof.
  induction a as [| x a IH]; [reflexivity |].
  rewrite append_cons. cbn [all_chars]. rewrite IH, andb_assoc. reflexivity.
Qed.

Lemma js_match_skip (p : ascii -> bool) (r : regex) (c : ascii) (s : string) :
  p c = false -> js_match (Cat (one p) r) (String c s) = js_match (Cat (one p) r) s.
Proof. intros Hp. cbn [js_match]. rewrite one_fails by exact Hp. reflexivity. Qed.

(** A match further on is found when there is none before. *)
Lemma js_match_later (r : regex) (before s : string) :
  js_match r s <> None -> js_match r (before +:+ s) <> None.
Proof.
  intros Hs. induction before as [| c before IH]; [exact Hs |].
  rewrite append_cons. cbn [js_match].
  destruct (regex_run r _ _ _); [discriminate | exact IH].
Qed.

Lemma same_letter (x c : ascii) :
  (97 <=? N_of_ascii x)%N && (N_of_ascii x <=? 122)%N = true ->
  Ascii.eqb (to_lower c) (to_lower x) = true ->
  either_case x (ascii_of_N (N_of_ascii x - 32)) c = true.
Proof.
  intros Hx Hc. apply Ascii.eqb_eq in Hc. unfold either_case.
  assert (Hlow : to_lower x = x).
  { unfold to_lower. destruct ((65 <=? N_of_ascii x)%N && (N_of_ascii x <=? 90)%N) eqn:Hup;
      [| reflexivity].
    apply andb_prop in Hx as [Hx1 _]. apply andb_prop in Hup as [_ Hup2].
    apply N.leb_le in Hx1, Hup2. lia. }
  rewrite Hlow in Hc. unfold to_lower in Hc.
  destruct ((65 <=? N_of_ascii c)%N && (N_of_ascii c <=? 90)%N) eqn:Hup.
  - apply orb_true_iff. right. apply Ascii.eqb_eq. subst x.
    rewrite N_ascii_embedding.
    + replace (N_of_ascii c + 32 - 32)%N with (N_of_ascii c) by lia.
      symmetry. apply ascii_N_embedding.
    + apply andb_prop in Hup as [_ Hup2]. apply N.leb_le in Hup2. lia.
  - apply orb_true_iff. left. apply Ascii.eqb_eq. exact Hc.
Qed.

(** ** Colours *)

Section ColourFacts.
Context {cnum : Type} `{ColourNumber cnum}.

(** X15. A colour that mentions [transparent], in any mix of upper and
    lower case and anywhere in the text, is returned exactly as given:
    nothing else of it is looked at. *)
Theorem parseColor_keeps_transparent (before word after : string) :
  same_letters word "transparent" = true ->
  parseColor (before +:+ word +:+ after) = before +:+ word +:+ after.
Proof.
  intros Hword.
  assert (Hfound : js_match transparent_pattern (before +:+ word +:+ after) <> None).
  { apply js_match_later.
    do 11 (destruct word as [| ? word]; cbn [same_letters] in Hword; [discriminate Hword |];
           apply andb_prop in Hword as [?Hc Hword]).
    destruct word; [| discriminate Hword].
    rewrite !append_cons, append_nil. unfold transparent_pattern. cbn [js_match].
    do 10 (rewrite one_succeeds
             by (match goal with
                 | |- either_case ?x _ ?c = true =>
                     exact (same_letter x c eq_refl ltac:(assumption))
                 end)).
    rewrite one_succeeds_last
      by (match goal with
          | |- either_case ?x _ ?c = true => exact (same_letter x c eq_refl ltac:(assumption))
          end).
    discriminate. }
  unfold parseColor. destruct (js_match transparent_pattern _); [reflexivity | contradiction].
Qed.

Lemma substring_of_prefix (s : string) :
  forall a l n : nat, (a + l <= n)%nat -> substring a l (substring 0 n s) = substring a l s.
Proof.
  induction s as [| c s IH]; intros a l n Hle.
  - destruct n; destruct a, l; reflexivity.
  - destruct n as [| n].
    + assert (a = 0%nat) by lia. assert (l = 0%nat) by lia. subst. reflexivity.
    + cbn [substring]. destruct a as [| a].
      * destruct l as [| l]; [reflexivity |]. cbn [substring]. f_equal.
        apply (IH 0%nat l n). lia.
      * cbn [substring]. apply IH. lia.
Qed.

(** X16. A leading [#] is optional: a colour that does not match
    [/transparent/i] and does not start with [#] is read the same with a
    [#] put before it, whichever of the two notations it is in. *)
Theorem parseColor_ignores_a_leading_hash (color : string) :
  js_match transparent_pattern color = None ->
  (forall rest : string, color <> String "#" rest) ->
  parseColor (String "#" color) = parseColor color.
Proof.
  intros Hopaque Hfirst. unfold parseColor.
  unfold transparent_pattern at 1. rewrite js_match_skip by reflexivity.
  fold transparent_pattern. rewrite Hopaque.
  unfold rgb_pattern at 1. rewrite js_match_skip by reflexivity. fold rgb_pattern.
  destruct (js_match rgb_pattern color) as [m |]; [reflexivity |].
  change (Ascii.eqb "#" "#") with true. cbv iota.
  assert (Hcut : js_substring 1 7 (String "#" color) = substring 0 6 color) by reflexivity.
  rewrite Hcut. unfold js_substring.
  rewrite !substring_of_prefix by lia.
  destruct color as [| c color]; [reflexivity |].
  destruct (Ascii.eqb c "#") eqn:Hc; [| reflexivity].
  apply Ascii.eqb_eq in Hc. subst c. exfalso. apply (Hfirst color). reflexivity.
Qed.

End ColourFacts.

(** ** Hexadecimal colours *)

(** What a hexadecimal digit is not. *)
Lemma hex_digit_facts (c : ascii) (v : N) :
  hex_digit c = Some v ->
  (v < 16)%N /\ either_case "t" "T" c = false /\ is_char "r" c = false
  /\ Ascii.eqb c "#" = false.
Proof.
  destruct c as [[] [] [] [] [] [] [] []]; vm_compute; intros Hv; try discriminate Hv;
    injection Hv as <-; repeat split; reflexivity.
Qed.

Section HexFacts.
Context {cnum : Type} `{ColourNumber cnum} `{!HexChannels cnum}.

Lemma toFixed3_channel (r g b x : N) :
  (r < 256)%N -> (g < 256)%N -> (b < 256)%N -> (x < 256)%N ->
  (x = r \/ x = g \/ x = b) ->
  toFixed3 (if exceeds_one (from_N r) || exceeds_one (from_N b) || exceeds_one (from_N g)
            then over_255 (from_N x) else from_N x)
  = printed ((1 <? r)%N || (1 <? b)%N || (1 <? g)%N) x.
Proof.
  intros Hr Hg Hb Hx Hmem. rewrite !exceeds_one_from_N by assumption.
  destruct ((1 <? r)%N || (1 <? b)%N || (1 <? g)%N) eqn:Hscaled; unfold printed.
  - apply toFixed3_over_255, Hx.
  - apply toFixed3_from_N.
    apply orb_false_elim in Hscaled as [Hrb Hgg]. apply orb_false_elim in Hrb as [Hrr Hbb].
    apply N.ltb_ge in Hrr, Hbb, Hgg. destruct Hmem as [-> | [-> | ->]]; assumption.
Qed.

(** A colour of six hexadecimal digits, with or without [#]. *)
Lemma parseColor_six_digits (c1 c2 c3 c4 c5 c6 : ascii) (v1 v2 v3 v4 v5 v6 : N) (hash : bool) :
  hex_digit c1 = Some v1 -> hex_digit c2 = Some v2 -> hex_digit c3 = Some v3 ->
  hex_digit c4 = Some v4 -> hex_digit c5 = Some v5 -> hex_digit c6 = Some v6 ->
  let digits := String c1 (String c2 (String c3 (String c4 (String c5 (String c6 EmptyString))))) in
  let r := (16 * v1 + v2)%N in
  let g := (16 * v3 + v4)%N in
  let b := (16 * v5 + v6)%N in
  let scaled := (1 <? r)%N || (1 <? b)%N || (1 <? g)%N in
  parseColor (if hash then String "#" digits else digits)
  = "rgb " +:+ printed scaled r +:+ " " +:+ printed scaled g +:+ " " +:+ printed scaled b.
Proof.
  intros H1 H2 H3 H4 H5 H6 digits r g b scaled.
  destruct (hex_digit_facts _ _ H1) as (Hv1 & Ht1 & Hr1 & Hh1).
  destruct (hex_digit_facts _ _ H2) as (Hv2 & Ht2 & Hr2 & _).
  destruct (hex_digit_facts _ _ H3) as (Hv3 & Ht3 & Hr3 & _).
  destruct (hex_digit_facts _ _ H4) as (Hv4 & Ht4 & Hr4 & _).
  destruct (hex_digit_facts _ _ H5) as (Hv5 & Ht5 & Hr5 & _).
  destruct (hex_digit_facts _ _ H6) as (Hv6 & Ht6 & Hr6 & _).
  assert (Hopaque : forall prefix : string,
             all_chars (fun c => negb (either_case "t" "T" c)) prefix = true ->
             js_match transparent_pattern (prefix +:+ digits) = None).
  { intros prefix Hprefix. apply js_match_never. rewrite all_chars_append, Hprefix.
    unfold digits. cbn [all_chars]. rewrite Ht1, Ht2, Ht3, Ht4, Ht5, Ht6. reflexivity. }
  assert (Hnorgb : forall prefix : string,
             all_chars (fun c => negb (is_char "r" c)) prefix = true ->
             js_match rgb_pattern (prefix +:+ digits) = None).
  { intros prefix Hprefix. apply js_match_never. rewrite all_chars_append, Hprefix.
    unfold digits. cbn [all_chars]. rewrite Hr1, Hr2, Hr3, Hr4, Hr5, Hr6. reflexivity. }
  assert (Hr : (r < 256)%N) by (unfold r; lia).
  assert (Hg : (g < 256)%N) by (unfold g; lia).
  assert (Hb : (b < 256)%N) by (unfold b; lia).
  pose proof (toFixed3_channel r g b r Hr Hg Hb Hr ltac:(auto)) as Hred.
  pose proof (toFixed3_channel r g b g Hr Hg Hb Hg ltac:(auto)) as Hgreen.
  pose proof (toFixed3_channel r g b b Hr Hg Hb Hb ltac:(auto)) as Hblue.
  fold scaled in Hred, Hgreen, Hblue.
  unfold parseColor. destruct hash.
  - pose proof (Hopaque "#" eq_refl) as Ho. pose proof (Hnorgb "#" eq_refl) as Hn.
    change ("#" +:+ digits) with (String "#" digits) in Ho, Hn. rewrite Ho, Hn.
    unfold digits. cbv beta iota zeta.
    change (Ascii.eqb "#" "#") with true. cbv iota.
    unfold js_substring, parseInt_0x. cbn [substring Init.Nat.sub hex_prefix].
    rewrite H1, H2, H3, H4, H5, H6. cbn [default hex_prefix].
    change (16 * 0 + v1)%N with v1. change (16 * 0 + v3)%N with v3.
    change (16 * 0 + v5)%N with v5. unfold id. fold r g b.
    destruct (exceeds_one (from_N r) || exceeds_one (from_N b) || exceeds_one (from_N g));
      cbv beta iota zeta in *; rewrite Hred, Hgreen, Hblue; reflexivity.
  - pose proof (Hopaque EmptyString eq_refl) as Ho.
    pose proof (Hnorgb EmptyString eq_refl) as Hn.
    change (EmptyString +:+ digits) with digits in Ho, Hn. rewrite Ho, Hn.
    unfold digits. cbv beta iota zeta. rewrite !Hh1.
    unfold js_substring, parseInt_0x. cbn [substring Init.Nat.sub hex_prefix].
    rewrite H1, H2, H3, H4, H5, H6. cbn [default hex_prefix].
    change (16 * 0 + v1)%N with v1. change (16 * 0 + v3)%N with v3.
    change (16 * 0 + v5)%N with v5. unfold id. fold r g b.
    destruct (exceeds_one (from_N r) || exceeds_one (from_N b) || exceeds_one (from_N g));
      cbv beta iota zeta in *; rewrite Hred, Hgreen, Hblue; reflexivity.
Qed.

(** X17. A colour of six hexadecimal digits, in either case and with or
    without a leading [#], is read as three bytes.  If a byte exceeds 1
    the three are divided by 255, otherwise they are printed as they
    are; each channel is printed with three decimals and lies between
    0.000 and 1.000. *)
Theorem parseColor_of_six_hex_digits (c1 c2 c3 c4 c5 c6 : ascii) (v1 v2 v3 v4 v5 v6 : N) :
  hex_digit c1 = Some v1 -> hex_digit c2 = Some v2 -> hex_digit c3 = Some v3 ->
  hex_digit c4 = Some v4 -> hex_digit c5 = Some v5 -> hex_digit c6 = Some v6 ->
  let digits := String c1 (String c2 (String c3 (String c4 (String c5 (String c6 EmptyString))))) in
  let r := (16 * v1 + v2)%N in
  let g := (16 * v3 + v4)%N in
  let b := (16 * v5 + v6)%N in
  let scaled := (1 <? r)%N || (1 <? b)%N || (1 <? g)%N in
  parseColor (String "#" digits)
  = "rgb " +:+ printed scaled r +:+ " " +:+ printed scaled g +:+ " " +:+ printed scaled b
  /\ parseColor digits = parseColor (String "#" digits)
  /\ forall x : N, x ∈ [r; g; b] ->
       exists n : N, (n <= 1000)%N /\ printed scaled x = thousandths n.
Proof.
  intros H1 H2 H3 H4 H5 H6 digits r g b scaled.
  pose proof (parseColor_six_digits _ _ _ _ _ _ _ _ _ _ _ _ true H1 H2 H3 H4 H5 H6) as Hhash.
  pose proof (parseColor_six_digits _ _ _ _ _ _ _ _ _ _ _ _ false H1 H2 H3 H4 H5 H6) as Hplain.
  cbv beta iota zeta in Hhash, Hplain. fold digits r g b in Hhash, Hplain.
  fold scaled in Hhash, Hplain.
  split; [exact Hhash |]. split; [rewrite Hhash; exact Hplain |].
  destruct (hex_digit_facts _ _ H1) as (Hv1 & _). destruct (hex_digit_facts _ _ H2) as (Hv2 & _).
  destruct (hex_digit_facts _ _ H3) as (Hv3 & _). destruct (hex_digit_facts _ _ H4) as (Hv4 & _).
  destruct (hex_digit_facts _ _ H5) as (Hv5 & _). destruct (hex_digit_facts _ _ H6) as (Hv6 & _).
  intros x Hx.
  assert (Hbyte : (x < 256)%N).
  { rewrite !elem_of_cons, elem_of_nil in Hx. unfold r, g, b in Hx. lia. }
  unfold printed. destruct scaled eqn:Hscaled.
  - exists ((2000 * x + 255) / 510)%N. split; [| reflexivity].
    assert (((2000 * x + 255) / 510 < 1001)%N)
      by (apply N.Div0.div_lt_upper_bound; lia).
    lia.
  - exists (1000 * x)%N. split; [| reflexivity].
    unfold scaled in Hscaled.
    apply orb_false_elim in Hscaled as [Hrb Hgg]. apply orb_false_elim in Hrb as [Hrr Hbb].
    apply N.ltb_ge in Hrr, Hbb, Hgg.
    rewrite !elem_of_cons, elem_of_nil in Hx. lia.
Qed.

Lemma hex_digit_hex_char (d : N) : (d < 16)%N -> hex_digit (hex_char d) = Some d.
Proof.
  intros Hd.
  assert (Hcases : In d (map N.of_nat (seq 0 16))).
  { apply in_map_iff. exists (N.to_nat d). split; [apply N2Nat.id | apply in_seq; lia]. }
  cbv [seq map] in Hcases. cbv [In] in Hcases.
  repeat (destruct Hcases as [<- | Hcases]; [reflexivity |]). contradiction.
Qed.

(** The colour of three bytes written as [#rrggbb]. *)
Lemma parseColor_bytes (r g b : N) :
  (r < 256)%N -> (g < 256)%N -> (b < 256)%N ->
  let scaled := (1 <? r)%N || (1 <? b)%N || (1 <? g)%N in
  parseColor (String "#" (two_hex r +:+ two_hex g +:+ two_hex b))
  = "rgb " +:+ printed scaled r +:+ " " +:+ printed scaled g +:+ " " +:+ printed scaled b.
Proof.
  intros Hr Hg Hb scaled.
  assert (Hdigit : forall n : N, (n < 256)%N ->
            hex_digit (hex_char (n / 16)) = Some (n / 16)%N
            /\ hex_digit (hex_char (n mod 16)) = Some (n mod 16)%N
            /\ (16 * (n / 16) + n mod 16)%N = n).
  { intros n Hn. split; [| split].
    - apply hex_digit_hex_char. apply N.Div0.div_lt_upper_bound. lia.
    - apply hex_digit_hex_char. apply N.mod_lt. lia.
    - symmetry. apply N.div_mod. lia. }
  destruct (Hdigit r Hr) as (Hr1 & Hr2 & Hrv). destruct (Hdigit g Hg) as (Hg1 & Hg2 & Hgv).
  destruct (Hdigit b Hb) as (Hb1 & Hb2 & Hbv).
  pose proof (parseColor_six_digits _ _ _ _ _ _ _ _ _ _ _ _ true Hr1 Hr2 Hg1 Hg2 Hb1 Hb2)
    as Hcolour.
  cbv beta iota zeta in Hcolour. rewrite Hrv, Hgv, Hbv in Hcolour. exact Hcolour.
Qed.

(** X18. The test for scaling looks at the values, not at the notation:
    a hexadecimal colour whose three bytes are all 0 or 1 is not divided
    by 255, so that it is printed as the colour whose bytes are 0 or
    255.  The darkest colours next to black come out fully saturated:
    [#010101] is printed as white, like [#ffffff]. *)
Theorem parseColor_saturates_the_darkest_colours (r g b : N) :
  (r <= 1)%N -> (g <= 1)%N -> (b <= 1)%N ->
  parseColor (String "#" (two_hex r +:+ two_hex g +:+ two_hex b))
  = parseColor (String "#" (two_hex (255 * r) +:+ two_hex (255 * g) +:+ two_hex (255 * b)))
  /\ parseColor (String "#" (two_hex r +:+ two_hex g +:+ two_hex b))
     = "rgb " +:+ show_N r +:+ ".000 " +:+ show_N g +:+ ".000 " +:+ show_N b +:+ ".000".
Proof.
  intros Hr Hg Hb.
  rewrite (parseColor_bytes r g b) by lia.
  rewrite (parseColor_bytes (255 * r) (255 * g) (255 * b)) by lia.
  assert (Hbit : forall x : N, (x <= 1)%N -> x = 0%N \/ x = 1%N) by (intros x Hx; lia).
  destruct (Hbit r Hr) as [-> | ->], (Hbit g Hg) as [-> | ->], (Hbit b Hb) as [-> | ->];
    split; vm_compute; reflexivity.
Qed.

End HexFacts.

(** ** The [rgb] notation *)

Section GreedyFacts.
Context {R : Type}.

(** A greedy quantifier takes all it can when the rest of the pattern
    agrees. *)
Lemma greedy_take (p : ascii -> bool) (k : string -> option R) (rest : string) (r : R) :
  k rest = Some r ->
  forall (d : string) (min : nat) (max : option nat),
    all_chars p d = true -> (min <= String.length d)%nat ->
    match max with
    | Some m => (String.length d <= m)%nat
    | None => True
    end ->
    max = Some (String.length d)
    \/ match rest with
       | String c _ => p c = false
       | EmptyString => True
       end ->
    greedy p min max (d +:+ rest) k = Some r.
Proof.
  intros Hk. induction d as [| x d IH]; intros min max Hall Hmin Hmax Hstop.
  - rewrite append_nil. cbn [String.length] in *. assert (min = 0%nat) as -> by lia.
    destruct Hstop as [-> | Hrest]; [rewrite greedy_spent; exact Hk |].
    destruct rest as [| c rest]; destruct max as [[| m] |]; cbn [greedy]; rewrite ?Hrest;
      exact Hk.
  - rewrite append_cons. cbn [all_chars String.length] in *.
    apply andb_prop in Hall as [Hx Hd].
    destruct max as [[| m] |]; [lia | |]; cbn [greedy Nat.pred fmap option_fmap option_map];
      rewrite Hx.
    + rewrite (IH (Nat.pred min) (Some m) Hd); [reflexivity | lia | lia |].
      destruct Hstop as [Heq | Hrest]; [left; injection Heq as ->; reflexivity | right; exact Hrest].
    + rewrite (IH (Nat.pred min) None Hd); [reflexivity | lia | exact I |].
      destruct Hstop as [Heq | Hrest]; [discriminate Heq | right; exact Hrest].
Qed.

Lemma run_chars (p : ascii -> bool) (min : nat) (max : option nat) (r : regex)
    (d rest : string) (caps : list string) (k : string -> list string -> option R) (x : R) :
  all_chars p d = true -> (min <= String.length d)%nat ->
  match max with
  | Some m => (String.length d <= m)%nat
  | None => True
  end ->
  max = Some (String.length d)
  \/ match rest with
     | String c _ => p c = false
     | EmptyString => True
     end ->
  regex_run r rest caps k = Some x ->
  regex_run (Cat (Chars p min max) r) (d +:+ rest) caps k = Some x.
Proof.
  intros Hall Hmin Hmax Hstop Hrest. cbn [regex_run].
  apply (greedy_take p (fun rest0 => regex_run r rest0 caps k) rest x Hrest d min max);
    assumption.
Qed.

End GreedyFacts.

Lemma substring_whole (s : string) : substring 0 (String.length s) s = s.
Proof. induction s as [| c s IH]; [reflexivity |]. cbn [String.length substring]. f_equal. exact IH. Qed.

Lemma consumed_all (s : string) : consumed s EmptyString = s.
Proof. unfold consumed. cbn [String.length]. rewrite Nat.sub_0_r. apply substring_whole. Qed.

Lemma consumed_append (t rest s : string) : s = t +:+ rest -> consumed s rest = t.
Proof.
  intros ->. unfold consumed. rewrite length_append.
  replace (String.length t + String.length rest - String.length rest)%nat
    with (String.length t) by lia.
  induction t as [| c t IH]; [destruct rest; reflexivity |].
  rewrite append_cons. cbn [String.length substring]. f_equal. exact IH.
Qed.

(** A channel followed by what is neither a digit nor a point. *)
Lemma run_channel {R} (r : regex) (whole : string) (frac : option string) (rest : string)
    (caps : list string) (k : string -> list string -> option R) (x : R) :
  channel_written whole frac = true ->
  match rest with
  | String c _ => is_digit c = false /\ is_char "." c = false
  | EmptyString => True
  end ->
  regex_run r rest (caps ++ [channel_text whole frac]) k = Some x ->
  regex_run (Cat channel_pattern r) (channel_text whole frac +:+ rest) caps k = Some x.
Proof.
  intros Hwritten Hrest Hrun. unfold channel_written in Hwritten.
  apply andb_prop in Hwritten as [Hwritten Hfrac]. apply andb_prop in Hwritten as [Hwritten Hmax].
  apply andb_prop in Hwritten as [Hdigits Hmin].
  apply Nat.leb_le in Hmin, Hmax.
  unfold channel_pattern. cbn [regex_run].
  assert (Hno_digit : match rest with
                      | String c _ => is_digit c = false
                      | EmptyString => True
                      end) by (destruct rest; [exact I | apply Hrest]).
  assert (Hno_point : match rest with
                      | String c _ => is_char "." c = false
                      | EmptyString => True
                      end) by (destruct rest; [exact I | apply Hrest]).
  assert (Hread : forall s : string,
             s = channel_text whole frac +:+ rest ->
             regex_run r rest (caps ++ [consumed s rest]) k = Some x).
  { intros s Hs. rewrite (consumed_append _ _ _ Hs). exact Hrun. }
  unfold channel_text in Hread |- *. rewrite append_assoc.
  destruct frac as [f |].
  - refine (greedy_take is_digit _ ("." +:+ f +:+ rest) x _ whole 1%nat (Some 3%nat)
              Hdigits Hmin Hmax _); [| right; reflexivity].
    change ("." +:+ f +:+ rest) with ("." +:+ (f +:+ rest)).
    refine (greedy_take (is_char ".") _ (f +:+ rest) x _ "." 0%nat (Some 1%nat)
              eq_refl _ _ _); [| cbn; lia | cbn; lia | left; reflexivity].
    refine (greedy_take is_digit _ rest x _ f 0%nat None Hfrac _ I _);
      [apply Hread; rewrite ?append_assoc; reflexivity | lia | right; exact Hno_digit].
  - rewrite append_nil.
    refine (greedy_take is_digit _ rest x _ whole 1%nat (Some 3%nat)
              Hdigits Hmin Hmax _); [| right; exact Hno_digit].
    change rest with (EmptyString +:+ rest) at 1.
    refine (greedy_take (is_char ".") _ rest x _ EmptyString 0%nat (Some 1%nat)
              eq_refl _ _ _); [| cbn; lia | cbn; lia | right; exact Hno_point].
    change rest with (EmptyString +:+ rest) at 1.
    refine (greedy_take is_digit _ rest x _ EmptyString 0%nat None eq_refl _ I _);
      [apply Hread; rewrite ?append_assoc; reflexivity | cbn; lia | right; exact Hno_digit].
Qed.

(** No digit and no point is a letter of [transparent]. *)
Lemma digit_facts (c : ascii) :
  is_digit c = true \/ is_char "." c = true -> either_case "t" "T" c = false.
Proof.
  destruct c as [[] [] [] [] [] [] [] []]; vm_compute; intros [Hc | Hc];
    try discriminate Hc; reflexivity.
Qed.

Lemma all_chars_weaken (p q : ascii -> bool) (s : string) :
  (forall c : ascii, p c = true -> q c = true) -> all_chars p s = true -> all_chars q s = true.
Proof.
  intros Hpq. induction s as [| c s IH]; [reflexivity |].
  cbn [all_chars]. intros Hall. apply andb_prop in Hall as [Hc Hs].
  rewrite (Hpq c Hc), (IH Hs). reflexivity.
Qed.

Lemma channel_text_opaque (whole : string) (frac : option string) :
  channel_written whole frac = true ->
  all_chars (fun c => negb (either_case "t" "T" c)) (channel_text whole frac) = true.
Proof.
  intros Hwritten. unfold channel_written in Hwritten.
  apply andb_prop in Hwritten as [Hwritten Hfrac]. apply andb_prop in Hwritten as [Hwritten _].
  apply andb_prop in Hwritten as [Hdigits _].
  assert (Hdigit : forall c : ascii, is_digit c = true -> negb (either_case "t" "T" c) = true).
  { intros c Hc. rewrite (digit_facts c); [reflexivity | left; exact Hc]. }
  unfold channel_text. rewrite all_chars_append.
  rewrite (all_chars_weaken _ _ whole Hdigit Hdigits). destruct frac as [f |]; [| reflexivity].
  rewrite append_cons, append_nil. cbn [all_chars].
  rewrite (all_chars_weaken _ _ f Hdigit Hfrac). reflexivity.
Qed.

Section RgbFacts.
Context {cnum : Type} `{ColourNumber cnum}.

(** X19. The [rgb] notation as documented, [rgb(a, b, c)] with each
    channel written with one to three digits and possibly a point and
    more digits: the pattern matches the whole text and captures the
    three channels, [parseFloat] is applied to each, and the three are
    divided by 255 if one of them exceeds 1, integer or not. *)
Theorem parseColor_reads_the_rgb_notation (w1 w2 w3 : string) (f1 f2 f3 : option string) :
  channel_written w1 f1 = true -> channel_written w2 f2 = true ->
  channel_written w3 f3 = true ->
  let a := channel_text w1 f1 in
  let b := channel_text w2 f2 in
  let c := channel_text w3 f3 in
  let color := "rgb(" +:+ a +:+ ", " +:+ b +:+ ", " +:+ c +:+ ")" in
  js_match rgb_pattern color = Some [color; a; b; c]
  /\ parseColor color
     = (let '(red, green, blue) :=
          if exceeds_one (parseFloat a) || exceeds_one (parseFloat c)
             || exceeds_one (parseFloat b)
          then (over_255 (parseFloat a), over_255 (parseFloat b), over_255 (parseFloat c))
          else (parseFloat a, parseFloat b, parseFloat c) in
        "rgb " +:+ toFixed3 red +:+ " " +:+ toFixed3 green +:+ " " +:+ toFixed3 blue).
Proof.
  intros H1 H2 H3 a b c color.
  assert (Hmatch : js_match rgb_pattern color = Some [color; a; b; c]).
  { set (tail := a +:+ ", " +:+ b +:+ ", " +:+ c +:+ ")").
    set (s := String "r" (String "g" (String "b" (String "(" tail)))).
    change color with s. unfold s at 1. cbn [js_match]. fold s.
    assert (Hrun : regex_run rgb_pattern s []
                     (fun rest caps => Some (consumed s rest :: caps))
                   = Some [s; a; b; c]).
    { unfold rgb_pattern, s. do 3 (rewrite one_succeeds by reflexivity).
      change (String "(" tail) with ("(" +:+ tail).
      apply run_chars; [reflexivity | cbn; lia | cbn; lia | left; reflexivity |].
      unfold tail.
      apply run_channel; [exact H1 | split; reflexivity |].
      change (", " +:+ b +:+ ", " +:+ c +:+ ")") with (", " +:+ (b +:+ ", " +:+ c +:+ ")")).
      apply run_chars; [reflexivity | cbn; lia | exact I | |].
      { right. unfold b, channel_text. unfold channel_written in H2.
        destruct w2 as [| d w2]; [cbn in H2; rewrite ?andb_false_r in H2; discriminate H2 |].
        rewrite append_cons. cbn [all_chars] in H2.
        destruct (is_digit d) eqn:Hd; [| discriminate H2].
        destruct d as [[] [] [] [] [] [] [] []]; try discriminate Hd; reflexivity. }
      apply run_channel; [exact H2 | split; reflexivity |].
      change (", " +:+ c +:+ ")") with (", " +:+ (c +:+ ")")).
      apply run_chars; [reflexivity | cbn; lia | exact I | |].
      { right. unfold c, channel_text. unfold channel_written in H3.
        destruct w3 as [| d w3]; [cbn in H3; rewrite ?andb_false_r in H3; discriminate H3 |].
        rewrite append_cons. cbn [all_chars] in H3.
        destruct (is_digit d) eqn:Hd; [| discriminate H3].
        destruct d as [[] [] [] [] [] [] [] []]; try discriminate Hd; reflexivity. }
      apply run_channel; [exact H3 | split; reflexivity |].
      cbn [regex_run app]. change ")" with (")" +:+ EmptyString) at 1.
      rewrite (greedy_take (is_char ")") _ EmptyString [s; a; b; c]);
        [reflexivity | | reflexivity | cbn; lia | cbn; lia | left; reflexivity].
      rewrite consumed_all. reflexivity. }
    rewrite Hrun. reflexivity. }
  split; [exact Hmatch |].
  assert (Hopaque : js_match transparent_pattern color = None).
  { apply js_match_never. unfold color, a, b, c.
    rewrite !all_chars_append, !channel_text_opaque by assumption. reflexivity. }
  unfold parseColor. rewrite Hopaque, Hmatch. reflexivity.
Qed.

End RgbFacts.

(** ** Doubles *)

(** A check made for every number below a bound. *)
Lemma checked_below (n : nat) (f : N -> bool) :
  forallb f (map N.of_nat (seq 0 n)) = true ->
  forall a : N, (a < N.of_nat n)%N -> f a = true.
Proof.
  intros Hall a Ha. rewrite forallb_forall in Hall. apply Hall.
  apply in_map_iff. exists (N.to_nat a). split; [apply N2Nat.id | apply in_seq; lia].
Qed.

(** IEEE doubles do what [parseColor] relies on for bytes: the quotient
    of a byte by 255, rounded to a double, prints with the three
    decimals of the exact quotient. *)
#[export] Instance Binary64_HexChannels : HexChannels spec_float.
Proof.
  split.
  - intros a Ha.
    apply (checked_below 256
             (fun a => Bool.eqb (exceeds_one (from_N (cnum := spec_float) a)) (1 <? a)%N)) in Ha;
      [apply Bool.eqb_prop, Ha | vm_compute; reflexivity].
  - intros a Ha.
    apply (String.eqb_eq).
    apply (checked_below 2
             (fun a => String.eqb (toFixed3 (from_N (cnum := spec_float) a))
                         (thousandths (1000 * a)))); [vm_compute; reflexivity | lia].
  - intros a Ha.
    apply (String.eqb_eq).
    apply (checked_below 256
             (fun a => String.eqb (toFixed3 (over_255 (from_N (cnum := spec_float) a)))
                         (thousandths ((2000 * a + 255) / 510))));
      [vm_compute; reflexivity | exact Ha].
Qed.


Example parseColor_examples :
  parseColor (cnum := spec_float) "#ffffff" = "rgb 1.000 1.000 1.000"
  /\ parseColor (cnum := spec_float) "Transparent" = "Transparent"
  /\ parseColor (cnum := spec_float) "#000000" = "rgb 0.000 0.000 0.000"
  /\ parseColor (cnum := spec_float) "336699" = "rgb 0.200 0.400 0.600"
  /\ parseColor (cnum := spec_float) "rgb(255, 128, 0)" = "rgb 1.000 0.502 0.000"
  /\ parseColor (cnum := spec_float) "rgb(0.5, 0.25, 1.0)" = "rgb 0.500 0.250 1.000"
  /\ parseColor (cnum := spec_float) "rgb 12 34 56" = "rgb 0.047 0.133 0.220"
  /\ parseColor (cnum := spec_float) "red" = "rgb NaN 0.051 NaN"
  /\ parseColor (cnum := spec_float) "#010101" = "rgb 1.000 1.000 1.000".
Proof. repeat split; vm_compute; reflexivity. Qed.


(** X15 on [Transparent], the default background. *)
Lemma parseColor_keeps_transparent_witness :
  same_letters "Transparent" "transparent" = true
  /\ parseColor (cnum := spec_float) (EmptyString +:+ "Transparent" +:+ EmptyString)
     = EmptyString +:+ "Transparent" +:+ EmptyString.
Proof.
  split; [reflexivity |].
  apply (parseColor_keeps_transparent (cnum := spec_float) EmptyString "Transparent" EmptyString).
  reflexivity.
Defined.

(** X16 on [ffffff]. *)
Lemma parseColor_ignores_a_leading_hash_witness :
  js_match transparent_pattern "ffffff" = None
  /\ (forall rest : string, "ffffff" <> String "#" rest)
  /\ parseColor (cnum := spec_float) "#ffffff" = parseColor (cnum := spec_float) "ffffff".
Proof.
  assert (Hfirst : forall rest : string, "ffffff" <> String "#" rest)
    by (intros rest Heq; discriminate Heq).
  split; [reflexivity |]. split; [exact Hfirst |].
  apply (parseColor_ignores_a_leading_hash (cnum := spec_float) "ffffff" eq_refl Hfirst).
Defined.

(** X17 on [#3366CC], with doubles. *)
Lemma parseColor_of_six_hex_digits_witness :
  hex_digit "3" = Some 3%N /\ hex_digit "6" = Some 6%N /\ hex_digit "C" = Some 12%N
  /\ parseColor (cnum := spec_float) "#3366CC" = "rgb 0.200 0.400 0.800".
Proof.
  split; [reflexivity |]. split; [reflexivity |]. split; [reflexivity |].
  destruct (parseColor_of_six_hex_digits (cnum := spec_float) "3" "3" "6" "6" "C" "C"
              3 3 6 6 12 12 eq_refl eq_refl eq_refl eq_refl eq_refl eq_refl) as (Hcolour & _).
  exact Hcolour.
Defined.

(** X18 on [#010101], with doubles. *)
Lemma parseColor_saturates_the_darkest_colours_witness :
  (1 <= 1)%N
  /\ parseColor (cnum := spec_float) "#010101" = parseColor (cnum := spec_float) "#ffffff".
Proof.
  split; [lia |].
  destruct (parseColor_saturates_the_darkest_colours (cnum := spec_float) 1 1 1
              ltac:(lia) ltac:(lia) ltac:(lia)) as (Hsame & _).
  exact Hsame.
Defined.

(** X19 on [rgb(255, 128, 0)] and on [rgb(0.5, 0.25, 1.0)], with
    doubles. *)
Lemma parseColor_reads_the_rgb_notation_witness :
  channel_written "255" None = true /\ channel_written "128" None = true
  /\ channel_written "0" None = true
  /\ parseColor (cnum := spec_float) "rgb(255, 128, 0)" = "rgb 1.000 0.502 0.000"
  /\ parseColor (cnum := spec_float) "rgb(0.5, 0.25, 1.0)" = "rgb 0.500 0.250 1.000".
Proof.
  split; [reflexivity |]. split; [reflexivity |]. split; [reflexivity |].
  destruct (parseColor_reads_the_rgb_notation (cnum := spec_float) "255" "128" "0"
              None None None eq_refl eq_refl eq_refl) as (_ & Hints).
  destruct (parseColor_reads_the_rgb_notation (cnum := spec_float) "0" "0" "1"
              (Some "5") (Some "25") (Some "0") eq_refl eq_refl eq_refl) as (_ & Hfloats).
  split; (etransitivity; [first [exact Hints | exact Hfloats] | vm_compute; reflexivity]).
Defined.

(** ** The constructor *)

(** [fresh_world] holds the manager that the constructor builds without
    options, and [demo.js] builds its manager with black as foreground. *)
Example CAPTCHA_examples :
  CAPTCHA (num := qnum) (cnum := spec_float) Given.none = this fresh_world
  /\ dvipngcmd (CAPTCHA (num := qnum) (cnum := spec_float)
                  (Given.mk None None (Some "#000000") None None None None None None None None))
     = "/usr/bin/dvipng -fg " +:+ quote +:+ "rgb 0.000 0.000 0.000" +:+ quote +:+ " -bg "
       +:+ quote +:+ "Transparent" +:+ quote +:+ " -T tight -D 100".
Proof. split; vm_compute; reflexivity. Qed.

Section ConstructionFacts.
Context {num : Type} `{JSNumber num} {cnum : Type} `{ColourNumber cnum}.
Variable md5 : string -> string.
Variable eager : bool.
Import captcha.

(** X20. Every manager the constructor returns, whatever options it is
    given, has the four binary operators as its registry and holds no
    record, and no call, timer or callback changes its options, its
    commands or its registry.  If its options have [1 <= minOps <= maxOps] and
    [Math.random] draws from [0, 1), then whatever calls, timers and
    callbacks follow, in any order: every record it holds is that of a
    proper expression tree.  Its array is well-formed, its answer is the
    value of the tree, its document wraps the markup of the tree, and
    its key is the digest of that document. *)
Theorem constructed_manager_stores_proper_expressions (given : Given.t num) (evs : list event) :
  let m := CAPTCHA (cnum := cnum) given in
  let s := run md5 eager evs (System (World m ∅ 0%nat []) [] []) in
  operators m = default_operators /\ captchas m = ∅
  /\ configuration (this (state s)) = configuration m
  /\ (1 <= Options.minOps (options m) <= Options.maxOps (options m) ->
      Forall (draws valid_tape) evs ->
      forall (key : string) (r : record.t num),
        live (this (state s)) key = Some r ->
        exists t : tree num,
          proper t /\ stack_of (record.exp r) = tokens_of t
          /\ well_formed (record.exp r) = true
          /\ record.answer r = eval t
          /\ record.latex r = wrapLatex (render t)
          /\ key = md5 (wrapLatex (render t))).
Proof.
  intros m s. split; [reflexivity |]. split; [reflexivity |].
  split; [apply (run_keeps_configuration md5 eager evs (System (World m ∅ 0%nat []) [] [])) |].
  intros Hbounds Hdraws key r Hlive.
  assert (Hstart : records_built md5 valid_tape (World m ∅ 0%nat [])).
  { intros k r0 Hk. discriminate Hk. }
  destruct (records_built_run md5 eager valid_tape evs Hdraws
              (System (World m ∅ 0%nat []) [] []) Hstart key r Hlive)
    as ((tape & pos & pos' & Htape & Hgen) & (math & Hmath & Hdoc) & Hsolve & Hkey & _).
  destruct (run_keeps_options md5 eager evs (System (World m ∅ 0%nat []) [] []))
    as [Hopts Hops].
  fold s in Hopts, Hops, Hgen. cbn [state this] in Hopts, Hops. rewrite Hopts, Hops in Hgen.
  destruct (generateExpression_binary_well_formed (operators m) _ _
              (Options.values (options m)) tape pos Htape ltac:(discriminate)
              default_operators_binary Hbounds)
    as (e & pos1 & t & Hgen' & Hwf & Hstack & Hproper & _).
  rewrite Hgen in Hgen'. injection Hgen' as <- _.
  exists t. split; [exact Hproper |]. split; [exact Hstack |]. split; [exact Hwf |].
  rewrite (solve_tree _ t Hstack Hproper) in Hsolve. injection Hsolve as <-.
  rewrite (latex_tree _ t Hstack Hproper) in Hmath. injection Hmath as <-.
  split; [reflexivity |]. split; [exact Hdoc |]. rewrite <- Hdoc. exact Hkey.
Qed.

End ConstructionFacts.

(** X20 on the manager built without options, after one captcha. *)
Lemma constructed_manager_stores_proper_expressions_witness :
  1 <= 3 <= 5 /\ Forall (draws valid_tape) one_captcha
  /\ live (this (state (run digest true one_captcha
                          (System (World (CAPTCHA (num := qnum) (cnum := spec_float) Given.none)
                                     ∅ 0%nat []) [] []))))
       drawn_key = Some (drawn_record (Some 0%nat))
  /\ exists t : tree qnum,
       proper t /\ record.answer (drawn_record (num := qnum) (Some 0%nat)) = eval t.
Proof.
  assert (Hlive : live (this (state (run digest true one_captcha
                    (System (World (CAPTCHA (num := qnum) (cnum := spec_float) Given.none)
                               ∅ 0%nat []) [] []))))
                    drawn_key = Some (drawn_record (Some 0%nat))).
  { vm_compute. reflexivity. }
  split; [lia |]. split; [exact one_captcha_draws |]. split; [exact Hlive |].
  destruct (constructed_manager_stores_proper_expressions (cnum := spec_float) digest true
              Given.none one_captcha) as (_ & _ & _ & Hstored).
  destruct (Hstored ltac:(cbn; lia) one_captcha_draws drawn_key _ Hlive)
    as (t & Hproper & _ & _ & Hanswer & _).
  exists t. split; [exact Hproper | exact Hanswer].
Defined.

Section Reachability.
Context {num : Type} `{JSNumber num}.
Import captcha.

Lemma plays_app (tape : nat -> Q) (pos : nat) (a b : list Q) :
  plays tape pos (a ++ b) -> plays tape pos a /\ plays tape (pos + length a) b.
Proof.
  intros Hplays. split.
  - intros j d Hj. apply Hplays. apply lookup_app_l_Some, Hj.
  - intros j d Hj. rewrite <- Nat.add_assoc. apply Hplays.
    rewrite lookup_app_r by lia. rewrite Nat.add_comm, Nat.add_sub. exact Hj.
Qed.

Lemma plays_tape_of (draws : list Q) (pos : nat) : plays (tape_of draws pos) pos draws.
Proof.
  intros j d Hj. unfold tape_of. rewrite Nat.add_comm, Nat.add_sub.
  apply nth_lookup_Some with (d := 0%Q) in Hj. exact Hj.
Qed.

Lemma valid_tape_of (draws : list Q) (pos : nat) :
  Forall unit_draw draws -> valid_tape (tape_of draws pos).
Proof.
  intros Hall i. unfold tape_of.
  destruct (nth_lookup_or_length draws (i - pos) 0%Q) as [Hlook | Hlen].
  - rewrite Forall_forall in Hall. apply Hall. eapply list_elem_of_lookup_2, Hlook.
  - rewrite nth_overflow by lia. split; [discriminate | reflexivity].
Qed.

Lemma randInt_draw (tape : nat -> Q) (pos : nat) (n m z : Z) :
  n <= z <= m -> tape pos = draw_for n m z -> randInt n m tape pos = (Ok z, S pos).
Proof.
  intros Hz Htape. unfold randInt. rewrite Htape.
  destruct (draw_for_spec n m z Hz) as (_ & _ & ->). reflexivity.
Qed.

Lemma draw_for_unit (n m z : Z) : n <= z <= m -> unit_draw (draw_for n m z).
Proof. intros Hz. destruct (draw_for_spec n m z Hz) as (H0 & H1 & _). split; assumption. Qed.

(** The draw that picks a given element of a list. *)
Lemma pick_element {A} (l : list A) (x : A) :
  x ∈ l ->
  exists (d : Q) (idx : Z),
    unit_draw d /\ js_index l idx = Some x
    /\ forall (tape : nat -> Q) (pos : nat),
         tape pos = d -> randInt 0 (Z.of_nat (length l) - 1) tape pos = (Ok idx, S pos).
Proof.
  intros Hin. apply list_elem_of_lookup in Hin as [i Hi].
  pose proof (lookup_lt_Some _ _ _ Hi) as Hlt.
  exists (draw_for 0 (Z.of_nat (length l) - 1) (Z.of_nat i)), (Z.of_nat i).
  split; [apply draw_for_unit; lia |]. split.
  - unfold js_index. destruct (Z.ltb_spec (Z.of_nat i) 0) as [? | _]; [lia |].
    rewrite Nat2Z.id. exact Hi.
  - intros tape pos Htape. apply randInt_draw; [lia | exact Htape].
Qed.

(** The draw that picks a given literal of the pool. *)
Lemma pick_value (values : list (value num)) (v : value num) :
  from_pool values v ->
  exists (d : Q) (idx : Z),
    unit_draw d /\ default Undefined (js_index values idx) = v
    /\ forall (tape : nat -> Q) (pos : nat),
         tape pos = d -> randInt 0 (Z.of_nat (length values) - 1) tape pos = (Ok idx, S pos).
Proof.
  intros [Hin | [-> ->]].
  - destruct (pick_element values v Hin) as (d & idx & Hd & Hidx & Hdraw).
    exists d, idx. rewrite Hidx. split; [exact Hd |]. split; [reflexivity | exact Hdraw].
  - exists 0%Q, 0. split; [split; [discriminate | reflexivity] |]. split; [reflexivity |].
    intros tape pos Htape. unfold randInt. rewrite Htape. reflexivity.
Qed.

(** A round of the loop that finds one operand in place. *)
Lemma generate_ops_round (operators : list (Operator.t num)) (values : list (value num))
    (o : Operator.t num) (v : value num) (io iv : Z) (tape : nat -> Q) (pos k : nat)
    (rtn : list (token num)) :
  Operator.arity o = 2%nat ->
  randInt 0 (Z.of_nat (length operators) - 1) tape pos = (Ok io, S pos) ->
  js_index operators io = Some o ->
  randInt 0 (Z.of_nat (length values) - 1) tape (S pos) = (Ok iv, S (S pos)) ->
  default Undefined (js_index values iv) = v ->
  generate_ops (S k) operators values rtn 1 tape pos
  = generate_ops k operators values (rtn ++ [TVal v; TOp o]) 1 tape (S (S pos)).
Proof.
  intros Har Hio Ho Hiv Hv. cbn [generate_ops]. unfold bind at 1. rewrite Hio, Ho, Har.
  change (Z.to_nat (Z.of_nat 2 - 1)) with 1%nat. cbn [push_values].
  change (1 <? Z.of_nat 2) with true. cbv iota.
  unfold bind. rewrite Hiv. unfold ret. cbn [fst snd]. rewrite Hv.
  rewrite <- app_assoc. reflexivity.
Qed.

(** The first round, which finds no operand in place. *)
Lemma generate_ops_first_round (operators : list (Operator.t num)) (values : list (value num))
    (o : Operator.t num) (v0 v : value num) (io i0 iv : Z) (tape : nat -> Q) (pos k : nat) :
  Operator.arity o = 2%nat ->
  randInt 0 (Z.of_nat (length operators) - 1) tape pos = (Ok io, S pos) ->
  js_index operators io = Some o ->
  randInt 0 (Z.of_nat (length values) - 1) tape (S pos) = (Ok i0, S (S pos)) ->
  default Undefined (js_index values i0) = v0 ->
  randInt 0 (Z.of_nat (length values) - 1) tape (S (S pos)) = (Ok iv, S (S (S pos))) ->
  default Undefined (js_index values iv) = v ->
  generate_ops (S k) operators values [] 0 tape pos
  = generate_ops k operators values [TVal v0; TVal v; TOp o] 1 tape (S (S (S pos))).
Proof.
  intros Har Hio Ho Hi0 Hv0 Hiv Hv. cbn [generate_ops]. unfold bind at 1. rewrite Hio, Ho, Har.
  change (Z.to_nat (Z.of_nat 2 - 0)) with 2%nat. cbn [push_values].
  change (0 <? Z.of_nat 2) with true. cbv iota.
  unfold bind. rewrite Hi0. change (0 + 1 <? Z.of_nat 2) with true. cbv beta iota.
  rewrite Hiv. unfold ret. cbn [fst snd app]. rewrite Hv0, Hv.
  reflexivity.
Qed.

(** Every comb over the registry and the pool is built by the loop from
    suitable draws. *)
Lemma generate_ops_reaches (operators : list (Operator.t num)) (values : list (value num)) :
  Forall (fun o => Operator.arity o = 2%nat) operators ->
  forall c : comb num,
    comb_ops c <> [] ->
    Forall (fun o => o ∈ operators) (comb_ops c) ->
    Forall (from_pool values) (comb_values c) ->
    exists draws : list Q,
      Forall unit_draw draws
      /\ length draws = (2 * length (comb_ops c) + 1)%nat
      /\ forall (tape : nat -> Q) (pos k : nat),
           plays tape pos draws ->
           generate_ops (length (comb_ops c) + k) operators values [] 0 tape pos
           = generate_ops k operators values (comb_array c) 1 tape (pos + length draws)%nat.
Proof.
  intros Hbin. induction c as [v0 | o v rest IH]; intros Hne Hops Hvals; [contradiction |].
  cbn [comb_ops comb_values] in Hops, Hvals.
  apply Forall_cons in Hops as [Ho Hops]. apply Forall_cons in Hvals as [Hv Hvals].
  assert (Har : Operator.arity o = 2%nat) by (rewrite Forall_forall in Hbin; apply Hbin, Ho).
  destruct (pick_element operators o Ho) as (d_o & io & Hd_o & Hio & Hdraw_o).
  destruct (pick_value values v Hv) as (d_v & iv & Hd_v & Hiv & Hdraw_v).
  destruct rest as [v0 | o' v' rest'].
  - cbn [comb_values] in Hvals. apply Forall_cons in Hvals as [Hv0 _].
    destruct (pick_value values v0 Hv0) as (d_0 & i0 & Hd_0 & Hi0 & Hdraw_0).
    exists [d_o; d_0; d_v].
    split; [repeat (apply Forall_cons_2; [assumption |]); apply Forall_nil_2 |].
    split; [reflexivity |].
    intros tape pos k Hplays. cbn [comb_ops length comb_array app Nat.add].
    rewrite (generate_ops_first_round operators values o v0 v io i0 iv tape pos k Har).
    + f_equal. lia.
    + apply Hdraw_o. rewrite <- (Nat.add_0_r pos). apply Hplays. reflexivity.
    + exact Hio.
    + apply Hdraw_0. replace (S pos) with (pos + 1)%nat by lia. apply Hplays. reflexivity.
    + exact Hi0.
    + apply Hdraw_v. replace (S (S pos)) with (pos + 2)%nat by lia. apply Hplays. reflexivity.
    + exact Hiv.
  - destruct (IH ltac:(discriminate) Hops Hvals) as (draws & Hunit & Hlen & Hrun).
    exists (draws ++ [d_o; d_v]).
    split; [apply Forall_app; split; [exact Hunit |];
            repeat (apply Forall_cons_2; [assumption |]); apply Forall_nil_2 |].
    split; [rewrite length_app, Hlen; cbn [comb_ops length]; lia |].
    intros tape pos k Hplays. apply plays_app in Hplays as [Hfirst Hlast].
    replace (length (comb_ops (Link o v (Link o' v' rest'))) + k)%nat
      with (length (comb_ops (Link o' v' rest')) + S k)%nat by (cbn [comb_ops length]; lia).
    rewrite (Hrun tape pos (S k) Hfirst).
    rewrite (generate_ops_round operators values o v io iv tape _ k _ Har).
    + rewrite length_app. cbn [length comb_array]. f_equal. lia.
    + apply Hdraw_o. rewrite <- (Nat.add_0_r (pos + length draws)). apply Hlast. reflexivity.
    + exact Hio.
    + apply Hdraw_v. replace (S (pos + length draws)) with (pos + length draws + 1)%nat by lia.
      apply Hlast. reflexivity.
    + exact Hiv.
Qed.

(** From a comb to draws that make [generateExpression] return it. *)
Lemma generateExpression_reaches (operators : list (Operator.t num)) (minOps maxOps : Z)
    (values : list (value num)) (c : comb num) (pos : nat) :
  Forall (fun o => Operator.arity o = 2%nat) operators ->
  comb_ops c <> [] ->
  minOps <= Z.of_nat (length (comb_ops c)) <= maxOps ->
  Forall (fun o => o ∈ operators) (comb_ops c) ->
  Forall (from_pool values) (comb_values c) ->
  exists tape : nat -> Q,
    valid_tape tape
    /\ generateExpression operators minOps maxOps values tape pos
       = (Ok (comb_array c), (pos + 2 * length (comb_ops c) + 2)%nat).
Proof.
  intros Hbin Hne Hbounds Hops Hvals.
  destruct (generate_ops_reaches operators values Hbin c Hne Hops Hvals)
    as (draws & Hunit & Hlen & Hrun).
  set (count := draw_for minOps maxOps (Z.of_nat (length (comb_ops c)))).
  exists (tape_of (count :: draws) pos). split.
  - apply valid_tape_of, Forall_cons_2; [apply draw_for_unit, Hbounds | exact Hunit].
  - pose proof (plays_tape_of (count :: draws) pos) as Hplays.
    apply (plays_app _ _ [count] draws) in Hplays as [Hcount Hdraws].
    unfold generateExpression, bind at 1.
    rewrite (randInt_draw _ pos minOps maxOps (Z.of_nat (length (comb_ops c))) Hbounds)
      by (rewrite <- (Nat.add_0_r pos) at 2; apply Hcount; reflexivity).
    rewrite Nat2Z.id, <- (Nat.add_0_r (length (comb_ops c))).
    replace (S pos) with (pos + length [count])%nat by (simpl; lia).
    rewrite (Hrun _ _ 0%nat Hdraws). cbn [generate_ops]. unfold ret.
    f_equal. rewrite Hlen. simpl. lia.
Qed.

(** X21. What [generateExpression] can return.  With a registry of
    binary operators, [1 <= minOps <= maxOps] and [Math.random] drawing
    from [0, 1), the arrays it returns are exactly the combs
    [v0, v1, op1, v2, op2, ...] with between [minOps] and [maxOps]
    operators taken from the registry and literals taken from the pool:
    each one it returns is such a comb, and each such comb is returned
    for some draws. *)
Theorem generateExpression_returns_exactly_the_combs (operators : list (Operator.t num))
    (minOps maxOps : Z) (values : list (value num)) (e : list (token num)) :
  operators <> [] -> Forall (fun o => Operator.arity o = 2%nat) operators ->
  1 <= minOps <= maxOps ->
  (exists (tape : nat -> Q) (pos pos' : nat),
      valid_tape tape
      /\ generateExpression operators minOps maxOps values tape pos = (Ok e, pos'))
  <-> (exists c : comb num,
         e = comb_array c
         /\ minOps <= Z.of_nat (length (comb_ops c)) <= maxOps
         /\ Forall (fun o => o ∈ operators) (comb_ops c)
         /\ Forall (from_pool values) (comb_values c)).
Proof.
  intros Hne Hbin Hbounds. split.
  - intros (tape & pos & pos' & Htape & Hgen).
    destruct (generateExpression_comb operators minOps maxOps values tape pos
                Htape Hne Hbin Hbounds) as (c & pos1 & Hgen' & Hlen & Hops & Hvals).
    rewrite Hgen in Hgen'. injection Hgen' as -> _.
    exists c. repeat split; try assumption; lia.
  - intros (c & -> & Hlen & Hops & Hvals).
    assert (Hc : comb_ops c <> []) by (destruct (comb_ops c); [simpl in Hlen; lia | discriminate]).
    destruct (generateExpression_reaches operators minOps maxOps values c 0%nat
                Hbin Hc Hlen Hops Hvals) as (tape & Htape & Hgen).
    eexists tape, 0%nat, _. split; [exact Htape | exact Hgen].
Qed.

(** The comb of a division by zero under [k] additions. *)
Lemma zero_division_comb (v : value num) (k : nat) :
  exists c : comb num,
    comb_array c
    = [TVal v; TVal v; TOp op_sub; TVal v; TOp op_div] ++ concat (repeat [TVal v; TOp op_add] k)
    /\ length (comb_ops c) = (2 + k)%nat
    /\ Forall (fun o => o ∈ default_operators (num := num)) (comb_ops c)
    /\ comb_values c = repeat v (3 + k)
    /\ eval (comb_tree c)
       = Nat.iter k (fun x => Num (add (to_number v) (to_number x)))
           (Num (div (to_number v) (sub (to_number v) (to_number v)))).
Proof.
  induction k as [| k (c & Harr & Hlen & Hops & Hvals & Hval)].
  - exists (Link op_div v (Link op_sub v (Last v))).
    split; [reflexivity |]. split; [reflexivity |]. split; [| split; reflexivity].
    unfold default_operators.
    repeat (apply Forall_cons_2; [rewrite !elem_of_cons; tauto |]). apply Forall_nil_2.
  - exists (Link op_add v c). cbn [comb_array comb_ops comb_values comb_tree eval map length].
    rewrite Harr, Hlen, Hvals, Hval. split; [| split; [reflexivity | split; [| split]]].
    + rewrite <- app_assoc. f_equal.
      change (repeat [TVal v; TOp op_add] (S k))
        with ([TVal v; TOp op_add] :: repeat [TVal v; TOp op_add] k).
      rewrite repeat_cons, concat_app. cbn [concat]. rewrite app_nil_r. reflexivity.
    + apply Forall_cons_2; [| exact Hops].
      unfold default_operators. rewrite !elem_of_cons. tauto.
    + reflexivity.
    + reflexivity.
Qed.

(** X22. Nothing keeps the generator from a division by zero: with the
    default registry, any value [v] of the pool and a number [2 + k] of
    operators that the bounds allow, some draws make it return
    [v, v, -, v, /] followed by [k] times [v, +], on which [solve]
    computes [v + (... + v / (v - v))]. *)
Theorem generateExpression_can_divide_by_zero (minOps maxOps : Z) (values : list (value num))
    (v : value num) (k : nat) :
  v ∈ values -> 1 <= minOps -> minOps <= Z.of_nat (2 + k) <= maxOps ->
  let e := [TVal v; TVal v; TOp op_sub; TVal v; TOp op_div]
           ++ concat (repeat [TVal v; TOp op_add] k) in
  (exists tape : nat -> Q,
      valid_tape tape
      /\ generateExpression default_operators minOps maxOps values tape 0%nat
         = (Ok e, (2 * k + 6)%nat))
  /\ solve e
     = Some (Nat.iter k (fun x => Num (add (to_number v) (to_number x)))
               (Num (div (to_number v) (sub (to_number v) (to_number v))))).
Proof.
  intros Hv Hmin Hbounds e.
  destruct (zero_division_comb v k) as (c & Harr & Hlen & Hops & Hvals & Hval).
  fold e in Harr.
  assert (Hbin : Forall (fun o => Operator.arity o = 2%nat) (comb_ops c)).
  { rewrite Forall_forall in Hops |- *. intros o Ho.
    pose proof (default_operators_binary (num := num)) as Hdef.
    rewrite Forall_forall in Hdef. apply Hdef, Hops, Ho. }
  split.
  - destruct (generateExpression_reaches default_operators minOps maxOps values c 0%nat)
      as (tape & Htape & Hgen).
    + apply default_operators_binary.
    + destruct (comb_ops c); [discriminate Hlen | discriminate].
    + rewrite Hlen. exact Hbounds.
    + exact Hops.
    + rewrite Hvals. apply Forall_forall. intros x Hx.
      apply list_elem_of_In, repeat_spec in Hx. subst x. left. exact Hv.
    + exists tape. split; [exact Htape |]. rewrite Hgen, Harr, Hlen. f_equal. lia.
  - rewrite <- Harr, <- Hval. apply solve_tree; [apply comb_array_stack |].
    apply comb_tree_proper, Hbin.
Qed.

End Reachability.

(** X21 on the array [1, 1, +] and the default registry. *)
Lemma generateExpression_returns_exactly_the_combs_witness :
  captcha.default_operators (num := qnum) <> []
  /\ Forall (fun o => Operator.arity o = 2%nat) (captcha.default_operators (num := qnum))
  /\ 1 <= 1 <= 2
  /\ exists (tape : nat -> Q) (pos pos' : nat),
       valid_tape tape
       /\ captcha.generateExpression (num := qnum) captcha.default_operators 1 2 default_values
            tape pos
          = (Ok [lit 1; lit 1; TOp captcha.op_add], pos').
Proof.
  split; [discriminate |]. split; [exact default_operators_binary |]. split; [lia |].
  apply (generateExpression_returns_exactly_the_combs (num := qnum) captcha.default_operators
           1 2 default_values [lit 1; lit 1; TOp captcha.op_add]
           ltac:(discriminate) default_operators_binary ltac:(lia)).
  exists (Link captcha.op_add (Num (of_N 1)) (Last (Num (of_N 1)))).
  split; [reflexivity |]. split; [simpl; lia |]. split.
  - apply Forall_cons_2; [| apply Forall_nil_2].
    unfold captcha.default_operators. rewrite !elem_of_cons. tauto.
  - repeat (apply Forall_cons_2;
            [left; unfold default_values; simpl; rewrite !elem_of_cons; tauto |]).
    apply Forall_nil_2.
Defined.

(** X22 on the default options: [5 + 5 / (5 - 5)]. *)
Lemma generateExpression_can_divide_by_zero_witness :
  Num (of_N 5) ∈ default_values (num := qnum) /\ 1 <= 3 /\ 3 <= Z.of_nat (2 + 1) <= 5
  /\ exists tape : nat -> Q,
       valid_tape tape
       /\ captcha.generateExpression (num := qnum) captcha.default_operators 3 5 default_values
            tape 0%nat
          = (Ok [lit 5; lit 5; TOp captcha.op_sub; lit 5; TOp captcha.op_div;
                 lit 5; TOp captcha.op_add], 8%nat).
Proof.
  assert (Hin : Num (of_N 5) ∈ default_values (num := qnum))
    by (unfold default_values; simpl; rewrite !elem_of_cons; tauto).
  split; [exact Hin |]. split; [lia |]. split; [simpl; lia |].
  destruct (generateExpression_can_divide_by_zero (num := qnum) 3 5 default_values
              (Num (of_N 5)) 1 Hin ltac:(lia) ltac:(simpl; lia)) as (Hreach & _).
  exact Hreach.
Defined.

Section RequestFacts.
Context {num : Type} `{JSNumber num}.
Variable md5 : string -> string.
Variable eager : bool.
Import captcha.







End RequestFacts.

